(** * Tachyon MPSC queue: a shallow embedding of [lib/mpsc_queue_impl.h]
    and [lib/mutex.cc], with the properties of the design document. *)

From Stdlib Require Import ZArith Lia Bool.
From Stdlib Require Import Strings.String Strings.Byte.
From stdpp Require Import base list.

Local Open Scope Z_scope.

(** ** Machine integers

  Shared words are kept as their unsigned value in [Z]; the wrap-around
  of every arithmetic operation is written out. *)

Module Word.

Definition uint16 (x : Z) : Z := x mod 2 ^ 16.
Definition uint32 (x : Z) : Z := x mod 2 ^ 32.

(** Reading a 32-bit pattern as an [int32_t]. *)
Definition int32 (x : Z) : Z :=
  let u := uint32 x in if u <? 2 ^ 31 then u else u - 2 ^ 32.

(** The two [uint16_t] halves of a [uint32_t], as the casts
    [reinterpret_cast<volatile uint16_t *>(&w)] and [... + 1] see them on
    a little-endian machine. *)
Definition low_half (w : Z) : Z := w mod 2 ^ 16.
Definition high_half (w : Z) : Z := (w / 2 ^ 16) mod 2 ^ 16.
Definition halves (lo hi : Z) : Z := uint16 lo + 2 ^ 16 * uint16 hi.

End Word.

(** ** atomics.h *)

Module Atomics.

(** Modelled from the spec: [atomics.h] is not part of the sources at hand.
    The design document names the operations: "atomic fetch-add",
    "atomic decrement", "atomic exchange", "CAS a -> b", "AND back into
    range".  Each function takes the current content of the word and
    returns what the caller gets together with the new content. *)

Definition ExchangeAdd (dest value : Z) : Z * Z :=
  (Word.int32 dest, Word.uint32 (dest + value)).

Definition Increment (dest : Z) : Z := Word.uint32 (dest + 1).
Definition Decrement (dest : Z) : Z := Word.uint32 (dest - 1).

Definition BitwiseAnd (dest mask : Z) : Z := Z.land dest mask.

Definition Exchange (dest value : Z) : Z * Z := (dest, value).

Definition CompareExchange (dest old_val new_val : Z) : bool * Z :=
  if dest =? old_val then (true, new_val) else (false, dest).

(** The 16-bit variants. *)
Definition ExchangeAddWord (dest value : Z) : Z * Z :=
  (Word.uint16 dest, Word.uint16 (dest + value)).

Definition IncrementWord (dest : Z) : Z := Word.uint16 (dest + 1).

End Atomics.

(** ** internal::VolatileCopy *)

Module internal.

Definition byte_to_Z (b : byte) : Z := Z.of_N (Byte.to_N b).

Definition byte_of_Z (z : Z) : byte :=
  match Byte.of_N (Z.to_N (z mod 256)) with
  | Some b => b
  | None => x00
  end.

(** A [uint64_t] read from, and written to, eight consecutive bytes. *)
Fixpoint le_decode (bs : list byte) : Z :=
  match bs with
  | [] => 0
  | b :: bs' => byte_to_Z b + 256 * le_decode bs'
  end.

Fixpoint le_encode (n : nat) (v : Z) : list byte :=
  match n with
  | O => []
  | S n' => byte_of_Z v :: le_encode n' (v / 256)
  end.

(** [*p] for [const uint64_t *p] at byte offset [off] of [buf]. *)
Definition load64 (buf : list byte) (off : nat) : Z :=
  le_decode (take 8 (drop off buf)).

(** Bytes stored one after the other from [off]; a store past the end of
    the buffer is out of the object in the source and is dropped here. *)
Fixpoint store_bytes (buf : list byte) (off : nat) (bs : list byte) : list byte :=
  match bs with
  | [] => buf
  | b :: bs' => store_bytes (<[off := b]> buf) (S off) bs'
  end.

Definition store64 (buf : list byte) (off : nat) (v : Z) : list byte :=
  store_bytes buf off (le_encode 8 v).

(** [while (length >= 8) { *dest_long++ = *src_long++; length -= 8; }]:
    the body runs [length / 8] times; [off] is the common offset of the two
    running pointers. *)
Fixpoint copy_long (words : nat) (off : nat) (dest src : list byte) : list byte :=
  match words with
  | O => dest
  | S w => copy_long w (off + 8)%nat (store64 dest off (load64 src off)) src
  end.

(** [while (length--) { *dest_byte++ = *src_byte++; }]. *)
Fixpoint copy_byte (count : nat) (off : nat) (dest src : list byte) : list byte :=
  match count with
  | O => dest
  | S c =>
      match src !! off with
      | Some b => copy_byte c (S off) (<[off := b]> dest) src
      | None => copy_byte c (S off) dest src
      end
  end.

(** [VolatileCopy(dest, src, length)].  [dest_int] and [src_int] are the
    two addresses, [dest] and [src] the bytes they point to.  The byte loop
    starts again from [dest] and [src] themselves: the pointers advanced by
    the 64-bit loop are not the ones it uses. *)
Definition VolatileCopy (dest_int src_int : Z) (dest src : list byte)
    (length : Z) : list byte :=
  let aligned := (Z.land dest_int 3 =? 0) && (Z.land src_int 3 =? 0) in
  let words := if aligned then Z.to_nat (length / 8) else O in
  let dest1 := copy_long words 0 dest src in
  let length1 := length - 8 * Z.of_nat words in
  copy_byte (Z.to_nat length1) 0 dest1 src.

End internal.

(** ** The kernel wait/wake word (mutex.cc) *)

(** The 32-bit words threads sleep on. *)
Inductive futex : Type :=
| mutex_state
| node_valid (index : nat)
| node_write_waiters (index : nat).

(** The [futex] system calls a run issues, oldest first.  [expected] is the
    32-bit pattern the kernel compares the word with; [num_waiters] is the
    count as the [int] that [FutexCall] passes on. *)
Inductive syscall : Type :=
| FUTEX_WAIT (word : futex) (expected : Z)
| FUTEX_WAKE (word : futex) (num_waiters : Z).

(** How a call ends: it returns, the calling thread goes to sleep inside
    [FutexWait] (it is resumed later), an [assert] fails, or the call indexes
    the slot array out of its bounds. *)
Inductive outcome (St A : Type) : Type :=
| Returns (a : A) (s : St)
| Sleeps (s : St)
| Fatal (msg : string)
| OutOfBounds.

Arguments Returns {St A} a s.
Arguments Sleeps {St A} s.
Arguments Fatal {St A} msg.
Arguments OutOfBounds {St A}.

(** Modelled from the spec: the kernel's side of [FUTEX_WAKE] is not in the
    sources; it is to "wake up to n threads parked on addr" and return the
    "number woken".  [sleeping] is the number of threads parked on the word.
    The kernel takes the count as an [int], counts the threads as it wakes
    them and stops once the count has reached [num_waiters]: with a sleeper
    on the word, a count below 1 still wakes one thread. *)
Definition FutexCall_wake (sleeping : nat) (num_waiters : Z) : Z :=
  if (sleeping =? 0)%nat then 0
  else Z.max 1 (Z.min (Z.of_nat sleeping) num_waiters).

(** [FutexWake(futex, num_waiters)]: the argument is converted to the [int]
    the parameter is; the result is the value returned, unless the [assert]
    fails. *)
Definition FutexWake (sleeping : nat) (num_waiters : Z) : Z + string :=
  let num_waiters := Word.int32 num_waiters in
  let futex_ret := FutexCall_wake sleeping num_waiters in
  if 0 <=? futex_ret then inl futex_ret
  else inr "futex(FUTEX_WAKE) failed unexpectedly."%string.

(** ** Mutex *)

Record Mutex : Type := { state : Z }.

(** A mutex, the number of threads asleep on its word, and the system calls
    made on it so far. *)
Record MutexWorld : Type := {
  mutex : Mutex;
  mutex_sleeping : nat;
  mutex_syscalls : list syscall }.

Definition MutexInit (w : MutexWorld) : MutexWorld :=
  {| mutex := {| state := 0 |};
     mutex_sleeping := mutex_sleeping w;
     mutex_syscalls := mutex_syscalls w |}.

Definition set_state (st : Z) (w : MutexWorld) : MutexWorld :=
  {| mutex := {| state := st |};
     mutex_sleeping := mutex_sleeping w;
     mutex_syscalls := mutex_syscalls w |}.

(** [FutexWait(state, 2)] as [MutexGrab] calls it: the call is made; the
    kernel puts the thread to sleep when the word still holds 2 and returns
    at once when it does not. *)
Definition MutexGrab_wait (w : MutexWorld) : MutexWorld :=
  {| mutex := mutex w;
     mutex_sleeping :=
       if state (mutex w) =? 2 then S (mutex_sleeping w) else mutex_sleeping w;
     mutex_syscalls := mutex_syscalls w ++ [FUTEX_WAIT mutex_state 2] |}.

(** The [do ... while (!CompareExchange(state, 0, 2))] loop of [MutexGrab],
    from the top of its body.  [fuel] bounds the rounds that neither sleep
    nor take the lock; [None] is a run that needs more. *)
Fixpoint MutexGrab_loop (fuel : nat) (w : MutexWorld)
    : option (outcome MutexWorld unit) :=
  match fuel with
  | O => None
  | S fuel' =>
      let '(contended, st1) :=
        if state (mutex w) =? 2 then (true, state (mutex w))
        else Atomics.CompareExchange (state (mutex w)) 1 2 in
      let w1 := set_state st1 w in
      if contended && (st1 =? 2) then Some (Sleeps (MutexGrab_wait w1))
      else
        let w2 := if contended then MutexGrab_wait w1 else w1 in
        let '(grabbed, st2) := Atomics.CompareExchange (state (mutex w2)) 0 2 in
        if grabbed then Some (Returns tt (set_state st2 w2))
        else MutexGrab_loop fuel' (set_state st2 w2)
  end.

Definition MutexGrab (fuel : nat) (w : MutexWorld)
    : option (outcome MutexWorld unit) :=
  let '(grabbed, st) := Atomics.CompareExchange (state (mutex w)) 0 1 in
  if grabbed then Some (Returns tt (set_state st w))
  else MutexGrab_loop fuel w.

(** A thread that slept in [MutexGrab] and that a [FUTEX_WAKE] has taken
    off the sleepers goes on with the loop's condition. *)
Definition MutexGrab_resume (fuel : nat) (w : MutexWorld)
    : option (outcome MutexWorld unit) :=
  let '(grabbed, st) := Atomics.CompareExchange (state (mutex w)) 0 2 in
  if grabbed then Some (Returns tt (set_state st w))
  else MutexGrab_loop fuel (set_state st w).

Definition MutexRelease (w : MutexWorld) : outcome MutexWorld unit :=
  let '(released, st1) := Atomics.CompareExchange (state (mutex w)) 1 0 in
  if released then
    Returns tt {| mutex := {| state := st1 |};
                  mutex_sleeping := mutex_sleeping w;
                  mutex_syscalls := mutex_syscalls w |}
  else
    let '(cas_ret, st2) := Atomics.CompareExchange st1 2 0 in
    if cas_ret then
      match FutexWake (mutex_sleeping w) 1 with
      | inl woken =>
          Returns tt {| mutex := {| state := st2 |};
                        mutex_sleeping :=
                          (mutex_sleeping w - Z.to_nat woken)%nat;
                        mutex_syscalls :=
                          mutex_syscalls w ++ [FUTEX_WAKE mutex_state 1] |}
      | inr msg => Fatal msg
      end
    else Fatal "Double-releasing lock?"%string.

(** ** constants.h *)

Definition kQueueCapacity : Z := 64.

(** Modelled from the spec: [kQueueCapacityShifts] is used by the queue but
    declared in no file at hand; the design document has it as
    "log2(capacity)". *)
Definition kQueueCapacityShifts : Z := 6.

(** ** The queue's shared data (mpsc_queue.h) *)

Record Node : Type := {
  value : list byte;
  valid : Z;
  write_waiters : Z }.

(** The words of [RawQueue] the implementation reads or writes: [array],
    indexed up to [kQueueCapacity], [write_length] and [head_index].
    [blocked_threads] is the last word of the struct in the header that
    declares the nodes' [write_waiters]; its comment there reads "it is
    guaranteed to be 0 if no blocking enqueues were ever performed". *)
Record RawQueue : Type := {
  array : list Node;
  write_length : Z;
  head_index : Z;
  blocked_threads : Z }.

(** A producer asleep in [DoWriteBlocking]: the slot it was handed, its
    ticket, and the item [DoEnqueue] will copy once it is let through. *)
Record Writer : Type := {
  writer_slot : nat;
  writer_wait_number : Z;
  writer_src : Z;
  writer_item : list byte }.

(** The shared queue together with the threads using it: the consumer's
    handle holds [tail_index_]; the consumer may be asleep inside
    [DequeueNextBlocking]; producers may be asleep inside [EnqueueBlocking]. *)
Record System : Type := {
  queue_ : RawQueue;
  tail_index_ : Z;
  reader_asleep : bool;
  writers : list Writer;
  syscalls : list syscall }.

Definition set_array (a : list Node) (q : RawQueue) : RawQueue :=
  {| array := a; write_length := write_length q;
     head_index := head_index q; blocked_threads := blocked_threads q |}.

Definition set_write_length (n : Z) (q : RawQueue) : RawQueue :=
  {| array := array q; write_length := n;
     head_index := head_index q; blocked_threads := blocked_threads q |}.

Definition set_head_index (n : Z) (q : RawQueue) : RawQueue :=
  {| array := array q; write_length := write_length q;
     head_index := n; blocked_threads := blocked_threads q |}.

Definition set_value (v : list byte) (n : Node) : Node :=
  {| value := v; valid := valid n; write_waiters := write_waiters n |}.

Definition set_valid (v : Z) (n : Node) : Node :=
  {| value := value n; valid := v; write_waiters := write_waiters n |}.

Definition set_write_waiters (w : Z) (n : Node) : Node :=
  {| value := value n; valid := valid n; write_waiters := w |}.

Definition with_queue (f : RawQueue -> RawQueue) (s : System) : System :=
  {| queue_ := f (queue_ s); tail_index_ := tail_index_ s;
     reader_asleep := reader_asleep s; writers := writers s;
     syscalls := syscalls s |}.

Definition with_node (i : nat) (n : Node) (s : System) : System :=
  with_queue (fun q => set_array (<[i := n]> (array q)) q) s.

Definition set_tail_index (t : Z) (s : System) : System :=
  {| queue_ := queue_ s; tail_index_ := t;
     reader_asleep := reader_asleep s; writers := writers s;
     syscalls := syscalls s |}.

Definition set_reader_asleep (b : bool) (s : System) : System :=
  {| queue_ := queue_ s; tail_index_ := tail_index_ s;
     reader_asleep := b; writers := writers s;
     syscalls := syscalls s |}.

Definition set_writers (ws : list Writer) (s : System) : System :=
  {| queue_ := queue_ s; tail_index_ := tail_index_ s;
     reader_asleep := reader_asleep s; writers := ws;
     syscalls := syscalls s |}.

Definition log (e : syscall) (s : System) : System :=
  {| queue_ := queue_ s; tail_index_ := tail_index_ s;
     reader_asleep := reader_asleep s; writers := writers s;
     syscalls := syscalls s ++ [e] |}.

(** Threads parked on a word of the queue. *)
Definition sleeping_on (s : System) (word : futex) : nat :=
  match word with
  | mutex_state => O
  | node_valid i =>
      if reader_asleep s && (tail_index_ s =? Z.of_nat i) then 1%nat else O
  | node_write_waiters i =>
      length (filter (fun w => writer_slot w = i) (writers s))
  end.

(** ** The queue's operations (mpsc_queue_impl.h) *)

(** [numeric_limits<uint32_t>::max() >> (32 - kQueueCapacityShifts)]. *)
Definition mask : Z := Z.shiftr (2 ^ 32 - 1) (32 - kQueueCapacityShifts).

(** The body of the constructor's loop. *)
Definition clear_node (n : Node) : Node :=
  set_write_waiters 0 (set_valid 0 n).

(** [for (int i = 0; i < kQueueCapacity; ++i)], with [count] rounds to go. *)
Fixpoint clear_nodes (count : nat) (i : nat) (a : list Node) : list Node :=
  match count with
  | O => a
  | S c => clear_nodes c (S i) (alter clear_node i a)
  end.

(** [MpscQueue<T>::MpscQueue()].  [allocated] is what
    [pool_->AllocateForType<RawQueue>()] hands back: nothing, or a block of
    shared memory with whatever it held before. *)
Definition MpscQueue (allocated : option RawQueue) : outcome System unit :=
  match allocated with
  | None => Fatal "Out of shared memory?"%string
  | Some raw =>
      let q := set_head_index 0 (set_write_length 0 raw) in
      let q := set_array (clear_nodes (Z.to_nat kQueueCapacity) 0 (array q)) q in
      Returns tt {| queue_ := q; tail_index_ := 0; reader_asleep := false;
                    writers := []; syscalls := [] |}
  end.

Definition Reserve (s : System) : bool * System :=
  let '(old_length, len) := Atomics.ExchangeAdd (write_length (queue_ s)) 1 in
  if old_length >=? kQueueCapacity then
    (false, with_queue (set_write_length (Atomics.Decrement len)) s)
  else (true, with_queue (set_write_length len) s).

Definition CancelReservation (s : System) : System :=
  with_queue (set_write_length (Atomics.Decrement (write_length (queue_ s)))) s.

(** [(write_waiters >> 16) & 0x7FFF]. *)
Definition woken_counter (write_waiters : Z) : Z :=
  Z.land (Z.shiftr write_waiters 16) 32767.

(** [(write_waiters & (1 << 15)) != (write_waiters & (1 << 31))]: the two
    masked words are compared as they are. *)
Definition inverted (write_waiters : Z) : bool :=
  negb (Z.land write_waiters (Z.shiftl 1 15)
        =? Z.land write_waiters (Word.uint32 (Z.shiftl 1 31))).

(** The condition of the [while] in [DoWriteBlocking]. *)
Definition keeps_waiting (my_wait_number write_waiters : Z) : bool :=
  (negb (inverted write_waiters)
   && (woken_counter write_waiters <? my_wait_number))
  || (inverted write_waiters
      && (my_wait_number <? woken_counter write_waiters)).

(** [DoWriteBlocking]: one evaluation of the loop.  The word handed to
    [FutexWait] is the one just read, so the thread does go to sleep; when it
    is resumed the same evaluation runs again. *)
Definition DoWriteBlocking (i : nat) (my_wait_number : Z) (s : System)
    : outcome System unit :=
  let my_wait_number := Z.land my_wait_number 32767 in
  match array (queue_ s) !! i with
  | None => OutOfBounds
  | Some write_at =>
      let w := write_waiters write_at in
      if keeps_waiting my_wait_number w
      then Sleeps (log (FUTEX_WAIT (node_write_waiters i) w) s)
      else Returns tt s
  end.

Section Template.

(** [sizeof(T)], and where the [value] of each node lies in memory. *)
Context (sizeof_T : nat) (value_addr : nat -> Z).

(** [DoEnqueue], from the copy of the item to the end. *)
Definition DoEnqueue_publish (i : nat) (src_int : Z) (item : list byte)
    (s : System) : outcome System unit :=
  match array (queue_ s) !! i with
  | None => OutOfBounds
  | Some write_at =>
      let copied :=
        internal.VolatileCopy (value_addr i) src_int (value write_at) item
          (Z.of_nat sizeof_T) in
      let '(old_valid, new_valid) := Atomics.Exchange (valid write_at) 1 in
      let s1 := with_node i (set_valid new_valid (set_value copied write_at)) s in
      if old_valid =? 1 then Fatal "Attempt to overwrite existing space!"%string
      else if old_valid =? 2 then
        match FutexWake (sleeping_on s1 (node_valid i)) 1 with
        | inl woke_up =>
            if woke_up <=? 1
            then Returns tt (log (FUTEX_WAKE (node_valid i) 1) s1)
            else Fatal "Woke up the wrong number of waiters?"%string
        | inr msg => Fatal msg
        end
      else Returns tt s1
  end.

Definition DoEnqueue (src_int : Z) (item : list byte) (can_block : bool)
    (s : System) : outcome System unit :=
  let '(old_head, head) := Atomics.ExchangeAdd (head_index (queue_ s)) 1 in
  let s1 := with_queue (set_head_index (Atomics.BitwiseAnd head mask)) s in
  let old_head := Z.land (Word.uint32 old_head) mask in
  let i := Z.to_nat old_head in
  match array (queue_ s1) !! i with
  | None => OutOfBounds
  | Some write_at =>
      let '(my_wait_number, taken) :=
        Atomics.ExchangeAddWord (Word.low_half (write_waiters write_at)) 1 in
      let counters :=
        Word.halves taken (Word.high_half (write_waiters write_at)) in
      let s2 := with_node i (set_write_waiters counters write_at) s1 in
      if can_block then
        match DoWriteBlocking i my_wait_number s2 with
        | Returns _ s3 => DoEnqueue_publish i src_int item s3
        | Sleeps s3 =>
            Sleeps (set_writers
                      (writers s3 ++
                       [{| writer_slot := i;
                           writer_wait_number := my_wait_number;
                           writer_src := src_int;
                           writer_item := item |}]) s3)
        | Fatal msg => Fatal msg
        | OutOfBounds => OutOfBounds
        end
      else DoEnqueue_publish i src_int item s2
  end.

Definition EnqueueAt (src_int : Z) (item : list byte) (s : System)
    : outcome System unit :=
  DoEnqueue src_int item false s.

Definition Enqueue (src_int : Z) (item : list byte) (s : System)
    : outcome System bool :=
  let '(reserved, s1) := Reserve s in
  if reserved then
    match EnqueueAt src_int item s1 with
    | Returns _ s2 => Returns true s2
    | Sleeps s2 => Sleeps s2
    | Fatal msg => Fatal msg
    | OutOfBounds => OutOfBounds
    end
  else Returns false s1.

Definition EnqueueBlocking (src_int : Z) (item : list byte) (s : System)
    : outcome System unit :=
  let s1 :=
    with_queue (set_write_length (Atomics.Increment (write_length (queue_ s)))) s in
  DoEnqueue src_int item true s1.

(** A producer asleep in [DoWriteBlocking] returns from [FutexWait], woken
    or not, and goes round the loop. *)
Definition resume_writer (k : nat) (s : System) : outcome System unit :=
  match writers s !! k with
  | None => Returns tt s
  | Some w =>
      let s1 := set_writers (delete k (writers s)) s in
      match DoWriteBlocking (writer_slot w) (writer_wait_number w) s1 with
      | Returns _ s2 =>
          DoEnqueue_publish (writer_slot w) (writer_src w) (writer_item w) s2
      | Sleeps s2 => Sleeps (set_writers (writers s2 ++ [w]) s2)
      | Fatal msg => Fatal msg
      | OutOfBounds => OutOfBounds
      end
  end.

(** [DoDequeue(item, read_at)]; [read_at] is node [i] as it is now. *)
Definition DoDequeue (i : nat) (read_at : Node) (s : System)
    : list byte * System :=
  let item := value read_at in
  let tail := Z.land (Word.uint32 (tail_index_ s + 1)) mask in
  let woken := Atomics.IncrementWord (Word.high_half (write_waiters read_at)) in
  let counters := Word.halves (Word.low_half (write_waiters read_at)) woken in
  (item, set_tail_index tail (with_node i (set_write_waiters counters read_at) s)).

Definition DequeueNext (s : System) : outcome System (option (list byte)) :=
  let i := Z.to_nat (tail_index_ s) in
  match array (queue_ s) !! i with
  | None => OutOfBounds
  | Some read_at =>
      let '(was_valid, v) := Atomics.CompareExchange (valid read_at) 1 0 in
      if was_valid then
        let '(item, s1) := DoDequeue i (set_valid v read_at) s in
        Returns (Some item)
          (with_queue
             (set_write_length (Atomics.Decrement (write_length (queue_ s1)))) s1)
      else Returns None s
  end.

(** [DequeueNextBlocking], from its [assert] to the end; [read_at] is node
    [i] as it is now.  The count handed to [FutexWake] is
    [numeric_limits<uint32_t>::max()], which the [int] parameter turns
    into -1. *)
Definition DequeueNextBlocking_read (i : nat) (read_at : Node) (s : System)
    : outcome System (list byte) :=
  if valid read_at =? 0 then
    let '(item, s1) := DoDequeue i read_at s in
    let '(old_length, len) :=
      Atomics.ExchangeAdd (write_length (queue_ s1)) (-1) in
    let s2 := with_queue (set_write_length len) s1 in
    if old_length >? kQueueCapacity then
      let num_waiters := 2 ^ 32 - 1 in
      match FutexWake (sleeping_on s2 (node_write_waiters i)) num_waiters with
      | inl _ =>
          Returns item
            (log (FUTEX_WAKE (node_write_waiters i) (Word.int32 num_waiters)) s2)
      | inr msg => Fatal msg
      end
    else Returns item s2
  else Fatal "Reading from node not marked as invalid."%string.

(** The [while (read_at->valid == 2)] loop and the exchange after it. *)
Definition DequeueNextBlocking_wait (i : nat) (s : System)
    : outcome System (list byte) :=
  match array (queue_ s) !! i with
  | None => OutOfBounds
  | Some read_at =>
      if valid read_at =? 2 then
        Sleeps (set_reader_asleep true (log (FUTEX_WAIT (node_valid i) 2) s))
      else
        let '(_, v) := Atomics.Exchange (valid read_at) 0 in
        let read_at := set_valid v read_at in
        DequeueNextBlocking_read i read_at
          (set_reader_asleep false (with_node i read_at s))
  end.

Definition DequeueNextBlocking (s : System) : outcome System (list byte) :=
  let i := Z.to_nat (tail_index_ s) in
  match array (queue_ s) !! i with
  | None => OutOfBounds
  | Some read_at =>
      let '(was_valid, v) := Atomics.CompareExchange (valid read_at) 1 0 in
      if was_valid then
        let read_at := set_valid v read_at in
        DequeueNextBlocking_read i read_at (with_node i read_at s)
      else
        let '(parked, v) := Atomics.CompareExchange (valid read_at) 0 2 in
        if parked then
          DequeueNextBlocking_wait i (with_node i (set_valid v read_at) s)
        else
          let '(_, v) := Atomics.Exchange (valid read_at) 0 in
          let read_at := set_valid v read_at in
          DequeueNextBlocking_read i read_at (with_node i read_at s)
  end.

(** The consumer asleep in [DequeueNextBlocking] returns from [FutexWait]. *)
Definition resume_reader (s : System) : outcome System (list byte) :=
  DequeueNextBlocking_wait (Z.to_nat (tail_index_ s)) s.

End Template.

(** ** Runs of the queue *)

(** What the threads can do next: the consumer or a producer makes a call,
    or a sleeping thread comes back from [FutexWait]. *)
Inductive call : Type :=
| call_Enqueue (src_int : Z) (item : list byte)
| call_EnqueueBlocking (src_int : Z) (item : list byte)
| call_DequeueNext
| call_DequeueNextBlocking
| wake_writer (k : nat)
| wake_reader.

(** What the finished call hands back. *)
Inductive reply : Type :=
| enqueue_result (accepted : bool)
| enqueue_done
| dequeue_result (item : option (list byte))
| dequeue_done (item : list byte).

Definition reply_with {St A B : Type} (f : A -> B) (o : outcome St A)
    : outcome St B :=
  match o with
  | Returns a s => Returns (f a) s
  | Sleeps s => Sleeps s
  | Fatal msg => Fatal msg
  | OutOfBounds => OutOfBounds
  end.

(** The system a call leaves behind, when it leaves one. *)
Definition after {St A : Type} (o : outcome St A) : option St :=
  match o with
  | Returns _ s => Some s
  | Sleeps s => Some s
  | Fatal _ => None
  | OutOfBounds => None
  end.

Section Runs.

Context (sizeof_T : nat) (value_addr : nat -> Z).

Definition perform (c : call) (s : System) : outcome System reply :=
  match c with
  | call_Enqueue src_int item =>
      reply_with enqueue_result (Enqueue sizeof_T value_addr src_int item s)
  | call_EnqueueBlocking src_int item =>
      reply_with (fun _ => enqueue_done)
        (EnqueueBlocking sizeof_T value_addr src_int item s)
  | call_DequeueNext => reply_with dequeue_result (DequeueNext s)
  | call_DequeueNextBlocking => reply_with dequeue_done (DequeueNextBlocking s)
  | wake_writer k =>
      reply_with (fun _ => enqueue_done) (resume_writer sizeof_T value_addr k s)
  | wake_reader => reply_with dequeue_done (resume_reader s)
  end.

(** A block of shared memory of the size of a [RawQueue]. *)
Definition raw_block (raw : RawQueue) : Prop :=
  length (array raw) = Z.to_nat kQueueCapacity
  /\ Forall (fun n => length (value n) = sizeof_T) (array raw).

(** The contract of the interface: items are of type [T]; there is one
    consumer, which makes no call while it is asleep in another; only a
    sleeping thread can be resumed. *)
Definition admissible (s : System) (c : call) : Prop :=
  match c with
  | call_Enqueue _ item => length item = sizeof_T
  | call_EnqueueBlocking _ item => length item = sizeof_T
  | call_DequeueNext => reader_asleep s = false
  | call_DequeueNextBlocking => reader_asleep s = false
  | wake_writer k => (k < length (writers s))%nat
  | wake_reader => reader_asleep s = true
  end.

Inductive reachable : System -> Prop :=
| reachable_new raw s :
    raw_block raw ->
    MpscQueue (Some raw) = Returns tt s ->
    reachable s
| reachable_step s c s' :
    reachable s ->
    admissible s c ->
    after (perform c s) = Some s' ->
    reachable s'.

(** No operation is in progress. *)
Definition quiescent (s : System) : Prop :=
  reader_asleep s = false /\ writers s = [].

(** A run of calls made one after the other, with the replies in order. *)
Fixpoint run (cs : list call) (s : System) : outcome System (list reply) :=
  match cs with
  | [] => Returns [] s
  | c :: cs' =>
      match perform c s with
      | Returns r s1 => reply_with (cons r) (run cs' s1)
      | Sleeps s1 => run cs' s1
      | Fatal msg => Fatal msg
      | OutOfBounds => OutOfBounds
      end
  end.

(** The same run, keeping only the last system. *)
Definition and_then (c : call) (o : outcome System unit) : outcome System unit :=
  match o with
  | Returns _ s => reply_with (fun _ => tt) (perform c s)
  | Sleeps s => reply_with (fun _ => tt) (perform c s)
  | Fatal msg => Fatal msg
  | OutOfBounds => OutOfBounds
  end.

End Runs.

(** ** Invariants *)

(** How many of the tickets [0 .. n-1] fall on slot [i]. *)
Definition laps (n i : Z) : Z :=
  n / kQueueCapacity + (if i <? n mod kQueueCapacity then 1 else 0).

(** Slot [i] holds one of the elements [D .. E-1]. *)
Definition occupied (D E i : Z) : bool :=
  (i - D) mod kQueueCapacity <? E - D.

(** The shared words after [E] enqueues and [D] dequeues, none of them
    blocking, made one after the other on a new queue. *)
Record shape (s : System) (E D : Z) : Prop := {
  shape_window : 0 <= D <= E /\ E - D <= kQueueCapacity;
  shape_array : length (array (queue_ s)) = Z.to_nat kQueueCapacity;
  shape_write_length : write_length (queue_ s) = E - D;
  shape_head : head_index (queue_ s) = E mod kQueueCapacity;
  shape_tail : tail_index_ s = D mod kQueueCapacity;
  shape_nodes :
    forall (i : nat) (node : Node),
      array (queue_ s) !! i = Some node ->
      valid node = (if occupied D E (Z.of_nat i) then 1 else 0)
      /\ write_waiters node
         = Word.halves (laps E (Z.of_nat i)) (laps D (Z.of_nat i)) }.

(** The elements in the slots: [hist] lists every item accepted so far, and
    the items [D .. E-1] are the ones stored. *)
Record content (sizeof_T : nat) (s : System) (E D : Z)
    (hist : list (list byte)) : Prop := {
  content_hist : Z.of_nat (length hist) = E;
  content_sized :
    forall (i : nat) (node : Node),
      array (queue_ s) !! i = Some node -> length (value node) = sizeof_T;
  content_values :
    forall (j : nat) (x : list byte),
      D <= Z.of_nat j ->
      hist !! j = Some x ->
      exists node,
        array (queue_ s) !! Z.to_nat (Z.of_nat j mod kQueueCapacity) = Some node
        /\ value node = x }.

(** What holds of every system the threads can bring about. *)
Record consistent (s : System) : Prop := {
  consistent_array : length (array (queue_ s)) = Z.to_nat kQueueCapacity;
  consistent_tail : 0 <= tail_index_ s < kQueueCapacity;
  consistent_valid :
    forall (i : nat) (node : Node),
      array (queue_ s) !! i = Some node ->
      valid node = 0 \/ valid node = 1
      \/ (valid node = 2 /\ reader_asleep s = true
          /\ Z.of_nat i = tail_index_ s);
  consistent_writers :
    Forall (fun w => (writer_slot w < Z.to_nat kQueueCapacity)%nat) (writers s) }.

(** The indices the threads hold lie in the slot array: the consumer's
    [tail_index_] and the slot of every producer asleep in
    [DoWriteBlocking].  Nothing is asked of the shared [head_index]. *)
Definition within_array (s : System) : Prop :=
  length (array (queue_ s)) = Z.to_nat kQueueCapacity
  /\ 0 <= tail_index_ s < kQueueCapacity
  /\ Forall (fun w => (writer_slot w < Z.to_nat kQueueCapacity)%nat) (writers s).

(** Sizes [VolatileCopy] copies in full whatever the alignment. *)
Definition copies_whole (sizeof_T : nat) : bool :=
  (sizeof_T <? 8)%nat || (sizeof_T mod 8 =? 0)%nat.

(** The calls of the non-blocking interface, on items of type [T]. *)
Definition nonblocking (sizeof_T : nat) (c : call) : Prop :=
  match c with
  | call_Enqueue _ item => length item = sizeof_T
  | call_DequeueNext => True
  | _ => False
  end.

(** The items a run's successful enqueues were given, in call order. *)
Fixpoint accepted (cs : list call) (rs : list reply) : list (list byte) :=
  match cs, rs with
  | call_Enqueue _ item :: cs', enqueue_result true :: rs' =>
      item :: accepted cs' rs'
  | _ :: cs', _ :: rs' => accepted cs' rs'
  | _, _ => []
  end.

(** The items a run's successful dequeues returned, in call order. *)
Fixpoint delivered (rs : list reply) : list (list byte) :=
  match rs with
  | dequeue_result (Some item) :: rs' => item :: delivered rs'
  | dequeue_done item :: rs' => item :: delivered rs'
  | _ :: rs' => delivered rs'
  | [] => []
  end.

(** The inversion flag in the words of the design document:
    "inverted = (bit15 != bit31)". *)
Definition inverted_spec (write_waiters : Z) : bool :=
  negb (Bool.eqb (Z.testbit write_waiters 15) (Z.testbit write_waiters 31)).

(** The wait condition in the words of the design document, on the woken
    counter of the observed word. *)
Definition keeps_waiting_spec (my_ticket write_waiters : Z) : bool :=
  (negb (inverted_spec write_waiters)
   && (woken_counter write_waiters <? my_ticket))
  || (inverted_spec write_waiters
      && (my_ticket <? woken_counter write_waiters)).

(** A producer's calls to [Enqueue], one for each item and its address. *)
Definition enqueues (items : list (Z * list byte)) : list call :=
  map (fun p => call_Enqueue (fst p) (snd p)) items.

(** [n] rounds of an [Enqueue] followed by a [DequeueNext]. *)
Fixpoint rounds (n : nat) (src_int : Z) (item : list byte) : list call :=
  match n with
  | O => []
  | S n' => call_Enqueue src_int item :: call_DequeueNext :: rounds n' src_int item
  end.

(** ** Example data *)

(** A node of a block the pool hands out again: its words are whatever the
    previous owner left. *)
Definition used_node (sizeof_T : nat) : Node :=
  {| value := replicate sizeof_T xff; valid := 7; write_waiters := 9 |}.

Definition used_block (sizeof_T : nat) : RawQueue :=
  {| array := replicate 64 (used_node sizeof_T);
     write_length := 5; head_index := 3; blocked_threads := 1 |}.

(** The address of node [i]'s value when the array starts at [base] and a
    node takes [stride] bytes. *)
Definition node_at (base stride : Z) (i : nat) : Z :=
  base + stride * Z.of_nat i.

Definition item8 : list byte := [x01; x02; x03; x04; x05; x06; x07; x08].

Definition item12 : list byte :=
  [x01; x02; x03; x04; x05; x06; x07; x08; x09; x0a; x0b; x0c].

(** A short run of one producer and one consumer. *)
Definition short_run : list call :=
  [call_Enqueue 1024 item8; call_Enqueue 1032 item8; call_DequeueNext;
   call_DequeueNext; call_DequeueNext].

Definition item12' : list byte :=
  [x11; x12; x13; x14; x15; x16; x17; x18; x19; x1a; x1b; x1c].

(** Two enqueues and two dequeues on 12-byte items. *)
Definition twelve_byte_run : list call :=
  [call_Enqueue 1024 item12; call_Enqueue 1036 item12'; call_DequeueNext;
   call_DequeueNext].

(** Sixty-four enqueues, which fill a new queue. *)
Definition fill_run : list call := enqueues (replicate 64 (1024, item8)).

(** A run that leaves one element in the queue. *)
Definition one_element_run : list call := [call_Enqueue 1024 item8].

(** The queue as a producer finds it after 63 rounds of an [Enqueue] and a
    [DequeueNext], when another producer has reserved a slot and done its
    fetch-add on [head_index], from 63 to 64, but not yet its AND. *)
Definition head_not_masked : System :=
  {| queue_ :=
       {| array :=
            replicate 63 {| value := item8; valid := 0; write_waiters := 65537 |}
            ++ [{| value := replicate 8 xff; valid := 0; write_waiters := 0 |}];
          write_length := 1; head_index := 64; blocked_threads := 1 |};
     tail_index_ := 63; reader_asleep := false; writers := []; syscalls := [] |}.

(** * Properties *)

(** ** Machine integers *)

Lemma uint32_range x : 0 <= Word.uint32 x < 2 ^ 32.
Proof. unfold Word.uint32. apply Z.mod_pos_bound. lia. Qed.

Lemma uint32_small x : 0 <= x < 2 ^ 32 -> Word.uint32 x = x.
Proof. intros H. unfold Word.uint32. apply Z.mod_small. exact H. Qed.

Lemma int32_small x : 0 <= x < 2 ^ 31 -> Word.int32 x = x.
Proof.
  intros H. unfold Word.int32. rewrite uint32_small by lia.
  destruct (Z.ltb_spec x (2 ^ 31)); lia.
Qed.

(** *** The wake call *)

Lemma FutexWake_one sleeping :
  FutexWake sleeping 1 = inl (Z.min (Z.of_nat sleeping) 1).
Proof.
  unfold FutexWake, FutexCall_wake. change (Word.int32 1) with 1.
  destruct sleeping as [|n]; [reflexivity|].
  cbn [Nat.eqb].
  destruct (Z.leb_spec 0 (Z.max 1 (Z.min (Z.of_nat (S n)) 1))); [|lia].
  f_equal. lia.
Qed.

Lemma FutexWake_all sleeping :
  FutexWake sleeping (2 ^ 32 - 1)
  = inl (if (sleeping =? 0)%nat then 0 else 1).
Proof.
  unfold FutexWake, FutexCall_wake. change (Word.int32 (2 ^ 32 - 1)) with (-1).
  destruct sleeping as [|n]; [reflexivity|].
  cbn [Nat.eqb].
  replace (Z.max 1 (Z.min (Z.of_nat (S n)) (-1))) with 1 by lia.
  reflexivity.
Qed.

Lemma low_half_halves lo hi : Word.low_half (Word.halves lo hi) = Word.uint16 lo.
Proof.
  unfold Word.low_half, Word.halves, Word.uint16.
  rewrite Z.mul_comm, Z_mod_plus_full. apply Z.mod_mod. lia.
Qed.

Lemma high_half_halves lo hi : Word.high_half (Word.halves lo hi) = Word.uint16 hi.
Proof.
  unfold Word.high_half, Word.halves, Word.uint16.
  rewrite Z.mul_comm, Z.div_add by lia.
  rewrite (Z.div_small (lo mod 2 ^ 16)) by (apply Z.mod_pos_bound; lia).
  rewrite Z.add_0_l. apply Z.mod_mod. lia.
Qed.

Lemma uint16_succ x : Word.uint16 (Word.uint16 x + 1) = Word.uint16 (x + 1).
Proof. unfold Word.uint16. apply Zplus_mod_idemp_l. Qed.

Lemma land_mask x : Z.land x mask = x mod kQueueCapacity.
Proof.
  change mask with (Z.ones 6). rewrite Z.land_ones by lia. reflexivity.
Qed.

Lemma mask_in_bounds old_head :
  0 <= Z.land (Word.uint32 old_head) mask < kQueueCapacity.
Proof. rewrite land_mask. apply Z.mod_pos_bound. reflexivity. Qed.

(** ** internal::VolatileCopy *)

Lemma byte_of_to_Z b : internal.byte_of_Z (internal.byte_to_Z b) = b.
Proof. destruct b; reflexivity. Qed.

Lemma byte_to_Z_range b : 0 <= internal.byte_to_Z b < 256.
Proof.
  unfold internal.byte_to_Z. pose proof (Byte.to_N_bounded b) as H. lia.
Qed.

Lemma byte_of_Z_mod z : internal.byte_of_Z (z mod 256) = internal.byte_of_Z z.
Proof. unfold internal.byte_of_Z. rewrite Z.mod_mod by lia. reflexivity. Qed.

Lemma le_encode_decode bs :
  internal.le_encode (length bs) (internal.le_decode bs) = bs.
Proof.
  induction bs as [|b bs IH]; simpl; [reflexivity|].
  pose proof (byte_to_Z_range b) as Hb.
  replace (internal.byte_to_Z b + 256 * internal.le_decode bs)
    with (internal.byte_to_Z b + internal.le_decode bs * 256) by lia.
  f_equal.
  - rewrite <- byte_of_Z_mod, Z_mod_plus_full, Z.mod_small by lia.
    apply byte_of_to_Z.
  - rewrite Z.div_add by lia.
    rewrite (Z.div_small (internal.byte_to_Z b)) by lia.
    rewrite Z.add_0_l. exact IH.
Qed.

Lemma store_bytes_length bs : forall buf off,
  length (internal.store_bytes buf off bs) = length buf.
Proof.
  induction bs as [|b bs IH]; intros buf off; simpl; [reflexivity|].
  rewrite IH. apply length_insert.
Qed.

Lemma store_bytes_lookup bs : forall buf off i,
  (off + length bs <= length buf)%nat ->
  internal.store_bytes buf off bs !! i =
    if decide (off <= i < off + length bs)%nat then bs !! (i - off)%nat
    else buf !! i.
Proof.
  induction bs as [|b bs IH]; intros buf off i Hlen;
    cbn [internal.store_bytes length] in *.
  - case_decide; [lia | reflexivity].
  - rewrite IH by (rewrite length_insert; lia).
    repeat case_decide; try lia.
    + replace (i - off)%nat with (S (i - S off)) by lia. reflexivity.
    + assert (i = off) as -> by lia.
      rewrite list_lookup_insert_eq by lia.
      replace (off - off)%nat with O by lia. reflexivity.
    + apply list_lookup_insert_ne. lia.
Qed.

Lemma store64_load64 dest src off :
  (off + 8 <= length src)%nat ->
  internal.store64 dest off (internal.load64 src off)
  = internal.store_bytes dest off (take 8 (drop off src)).
Proof.
  intros Hlen. unfold internal.store64, internal.load64. f_equal.
  assert (length (take 8 (drop off src)) = 8%nat) as Hl.
  { rewrite length_take, length_drop. lia. }
  rewrite <- Hl at 1. apply le_encode_decode.
Qed.

Lemma copy_long_length words : forall off dest src,
  length (internal.copy_long words off dest src) = length dest.
Proof.
  induction words as [|w IH]; intros off dest src; simpl; [reflexivity|].
  rewrite IH. apply store_bytes_length.
Qed.

Lemma copy_long_lookup words : forall off dest src i,
  length dest = length src ->
  (off + 8 * words <= length src)%nat ->
  internal.copy_long words off dest src !! i =
    if decide (off <= i < off + 8 * words)%nat then src !! i else dest !! i.
Proof.
  induction words as [|w IH]; intros off dest src i Hd Hlen;
    cbn [internal.copy_long].
  - case_decide; [lia | reflexivity].
  - rewrite store64_load64 by lia.
    rewrite IH by (rewrite ?store_bytes_length; lia).
    assert (length (take 8 (drop off src)) = 8%nat) as Hl.
    { rewrite length_take, length_drop. lia. }
    rewrite store_bytes_lookup by lia. rewrite Hl.
    repeat case_decide; try reflexivity; try lia.
    rewrite lookup_take_lt by lia. rewrite lookup_drop. f_equal. lia.
Qed.

Lemma copy_byte_length count : forall off dest src,
  length (internal.copy_byte count off dest src) = length dest.
Proof.
  induction count as [|c IH]; intros off dest src; simpl; [reflexivity|].
  destruct (src !! off); rewrite IH; [apply length_insert | reflexivity].
Qed.

Lemma copy_byte_lookup count : forall off dest src i,
  length dest = length src ->
  (off + count <= length src)%nat ->
  internal.copy_byte count off dest src !! i =
    if decide (off <= i < off + count)%nat then src !! i else dest !! i.
Proof.
  induction count as [|c IH]; intros off dest src i Hd Hlen;
    cbn [internal.copy_byte].
  - case_decide; [lia | reflexivity].
  - destruct (src !! off) as [b|] eqn:Hb.
    + rewrite IH by (rewrite ?length_insert; lia).
      repeat case_decide; try reflexivity; try lia.
      * assert (i = off) as -> by lia.
        rewrite list_lookup_insert_eq by lia. symmetry. exact Hb.
      * apply list_lookup_insert_ne. lia.
    + apply lookup_ge_None in Hb. lia.
Qed.

(** What [VolatileCopy] leaves in the destination, byte by byte: the bytes
    of the source below [8 * words] and below the rest of the length; the
    destination's own bytes elsewhere. *)
Lemma VolatileCopy_lookup dest_int src_int dest src i :
  length dest = length src ->
  let aligned := (Z.land dest_int 3 =? 0) && (Z.land src_int 3 =? 0) in
  let words := if aligned then (length src / 8)%nat else O in
  internal.VolatileCopy dest_int src_int dest src (Z.of_nat (length src)) !! i =
    if decide (i < 8 * words \/ i < length src - 8 * words)%nat
    then src !! i else dest !! i.
Proof.
  intros Hd aligned words. unfold internal.VolatileCopy.
  fold aligned.
  assert ((if aligned then Z.to_nat (Z.of_nat (length src) / 8) else O) = words)
    as ->.
  { subst words. destruct aligned; [|reflexivity].
    change 8 with (Z.of_nat 8). rewrite <- Nat2Z.inj_div. apply Nat2Z.id. }
  assert (8 * words <= length src)%nat as Hw.
  { subst words. destruct aligned; [|lia].
    pose proof (Nat.Div0.mul_div_le (length src) 8). lia. }
  replace (Z.to_nat (Z.of_nat (length src) - 8 * Z.of_nat words))
    with (length src - 8 * words)%nat by lia.
  rewrite copy_byte_lookup by (rewrite ?copy_long_length; lia).
  rewrite copy_long_lookup by lia.
  repeat destruct (decide _); try reflexivity; lia.
Qed.

Lemma VolatileCopy_length dest_int src_int dest src n :
  length (internal.VolatileCopy dest_int src_int dest src n) = length dest.
Proof.
  unfold internal.VolatileCopy. rewrite copy_byte_length. apply copy_long_length.
Qed.

(** The sizes the copy is exact on. *)
Lemma VolatileCopy_whole dest_int src_int dest src :
  length dest = length src ->
  copies_whole (length src) = true ->
  internal.VolatileCopy dest_int src_int dest src (Z.of_nat (length src)) = src.
Proof.
  intros Hd Hsize. apply list_eq. intros i.
  rewrite VolatileCopy_lookup by exact Hd.
  set (aligned := (Z.land dest_int 3 =? 0) && (Z.land src_int 3 =? 0)).
  set (words := if aligned then (length src / 8)%nat else O).
  destruct (decide _) as [Hin|Hout]; [reflexivity|].
  assert (length src <= i)%nat as Hi; [|].
  { unfold copies_whole in Hsize. apply orb_true_iff in Hsize.
    subst words. destruct aligned.
    - destruct Hsize as [Hs|Hs].
      + apply Nat.ltb_lt in Hs.
        rewrite (Nat.div_small (length src) 8) in Hout by exact Hs. lia.
      + apply Nat.eqb_eq in Hs.
        pose proof (Nat.div_mod_eq (length src) 8). lia.
    - lia. }
  rewrite (lookup_ge_None_2 src) by exact Hi.
  apply lookup_ge_None_2. lia.
Qed.

(** On aligned buffers of a size that is no multiple of 8 and above 8, the
    bytes past the last 64-bit word are not copied. *)
Lemma VolatileCopy_tail dest_int src_int dest src i :
  length dest = length src ->
  Z.land dest_int 3 = 0 -> Z.land src_int 3 = 0 ->
  (8 <= length src)%nat ->
  (8 * (length src / 8) <= i)%nat ->
  internal.VolatileCopy dest_int src_int dest src (Z.of_nat (length src)) !! i
  = dest !! i.
Proof.
  intros Hd Ha1 Ha2 Hlen Hi.
  rewrite VolatileCopy_lookup by exact Hd.
  rewrite Ha1, Ha2. change ((0 =? 0) && (0 =? 0)) with true. cbv iota.
  pose proof (Nat.div_mod_eq (length src) 8) as Hdm.
  pose proof (Nat.mod_upper_bound (length src) 8) as Hm.
  assert (1 <= length src / 8)%nat as Hq.
  { apply Nat.div_le_lower_bound; lia. }
  set (q := (length src / 8)%nat) in *.
  case_decide as Hin; [|reflexivity]. lia.
Qed.

(** ** Ring arithmetic *)

Lemma capacity_eq : kQueueCapacity = 64.
Proof. reflexivity. Qed.

Ltac ring_arith :=
  rewrite ?capacity_eq in *;
  repeat match goal with
         | |- context [Z.ltb ?a ?b] => destruct (Z.ltb_spec a b)
         | |- context [Z.eqb ?a ?b] => destruct (Z.eqb_spec a b)
         | H : context [Z.ltb ?a ?b] |- _ => destruct (Z.ltb_spec a b)
         | H : context [Z.eqb ?a ?b] |- _ => destruct (Z.eqb_spec a b)
         end;
  cbn [orb andb negb] in *;
  try discriminate; try reflexivity;
  Z.div_mod_to_equations; lia.

Lemma laps_succ n i :
  0 <= i < kQueueCapacity ->
  laps (n + 1) i = laps n i + (if i =? n mod kQueueCapacity then 1 else 0).
Proof. intros Hi. unfold laps. ring_arith. Qed.

Lemma occupied_enqueue D E i :
  0 <= i < kQueueCapacity -> 0 <= E - D < kQueueCapacity ->
  occupied D (E + 1) i = (i =? E mod kQueueCapacity) || occupied D E i.
Proof. intros Hi Hw. unfold occupied. ring_arith. Qed.

Lemma occupied_head D E :
  0 <= E - D < kQueueCapacity -> occupied D E (E mod kQueueCapacity) = false.
Proof. intros Hw. unfold occupied. ring_arith. Qed.

Lemma occupied_dequeue D E i :
  0 <= i < kQueueCapacity -> 0 < E - D <= kQueueCapacity ->
  occupied (D + 1) E i = negb (i =? D mod kQueueCapacity) && occupied D E i.
Proof. intros Hi Hw. unfold occupied. ring_arith. Qed.

Lemma occupied_tail D E :
  0 < E - D -> occupied D E (D mod kQueueCapacity) = true.
Proof. intros Hw. unfold occupied. ring_arith. Qed.

Lemma occupied_none D i : occupied D D i = false.
Proof. unfold occupied. ring_arith. Qed.

Lemma occupied_full D E i :
  E - D = kQueueCapacity -> occupied D E i = true.
Proof. intros Hw. unfold occupied. ring_arith. Qed.

Lemma succ_mod n : (n mod kQueueCapacity + 1) mod kQueueCapacity
                   = (n + 1) mod kQueueCapacity.
Proof. apply Zplus_mod_idemp_l. Qed.

Lemma ring_index n : 0 <= n mod kQueueCapacity < kQueueCapacity.
Proof. apply Z.mod_pos_bound. reflexivity. Qed.

Section QueueFacts.

Context (sizeof_T : nat) (value_addr : nat -> Z).

Lemma Reserve_free s :
  0 <= write_length (queue_ s) < kQueueCapacity ->
  Reserve s
  = (true, with_queue (set_write_length (write_length (queue_ s) + 1)) s).
Proof.
  intros Hw. rewrite capacity_eq in Hw. unfold Reserve, Atomics.ExchangeAdd.
  rewrite int32_small, uint32_small by lia.
  destruct (Z.geb_spec (write_length (queue_ s)) kQueueCapacity) as [Hge|Hlt];
    [rewrite capacity_eq in Hge; lia | reflexivity].
Qed.

Lemma Reserve_full s :
  write_length (queue_ s) = kQueueCapacity -> Reserve s = (false, s).
Proof.
  intros Hw. destruct s as [[a wl h b] t r ws l]. simpl in Hw. subst wl.
  reflexivity.
Qed.

Lemma halves_uint16_l lo hi : Word.halves (Word.uint16 lo) hi = Word.halves lo hi.
Proof.
  unfold Word.halves, Word.uint16. rewrite Z.mod_mod by lia. reflexivity.
Qed.

Lemma halves_uint16_r lo hi : Word.halves lo (Word.uint16 hi) = Word.halves lo hi.
Proof.
  unfold Word.halves, Word.uint16. rewrite Z.mod_mod by lia. reflexivity.
Qed.

Lemma with_node_twice i n1 n2 s :
  with_node i n2 (with_node i n1 s) = with_node i n2 s.
Proof.
  unfold with_node, with_queue, set_array. cbn.
  rewrite list_insert_insert_eq. reflexivity.
Qed.

Lemma array_with_node i n s :
  array (queue_ (with_node i n s)) = <[i := n]> (array (queue_ s)).
Proof. reflexivity. Qed.

Lemma lookup_with_node i n s :
  (i < length (array (queue_ s)))%nat ->
  array (queue_ (with_node i n s)) !! i = Some n.
Proof. intros Hi. rewrite array_with_node. apply list_lookup_insert_eq, Hi. Qed.

(** [DoEnqueue]'s last part on a slot that is neither published nor
    watched by the consumer. *)
Lemma DoEnqueue_publish_free i src_int item s write_at :
  array (queue_ s) !! i = Some write_at ->
  valid write_at = 0 ->
  DoEnqueue_publish sizeof_T value_addr i src_int item s
  = Returns tt
      (with_node i
         {| value :=
              internal.VolatileCopy (value_addr i) src_int (value write_at)
                item (Z.of_nat sizeof_T);
            valid := 1;
            write_waiters := write_waiters write_at |} s).
Proof.
  intros Hnode Hvalid. unfold DoEnqueue_publish. rewrite Hnode.
  unfold Atomics.Exchange. rewrite Hvalid. reflexivity.
Qed.

Lemma DoEnqueue_free src_int item s node :
  0 <= head_index (queue_ s) < kQueueCapacity ->
  array (queue_ s) !! Z.to_nat (head_index (queue_ s)) = Some node ->
  valid node = 0 ->
  DoEnqueue sizeof_T value_addr src_int item false s
  = Returns tt
      (with_node (Z.to_nat (head_index (queue_ s)))
         {| value :=
              internal.VolatileCopy
                (value_addr (Z.to_nat (head_index (queue_ s)))) src_int
                (value node) item (Z.of_nat sizeof_T);
            valid := 1;
            write_waiters :=
              Word.halves (Word.low_half (write_waiters node) + 1)
                (Word.high_half (write_waiters node)) |}
         (with_queue
            (set_head_index ((head_index (queue_ s) + 1) mod kQueueCapacity)) s)).
Proof.
  intros Hh Hnode Hvalid. pose proof Hh as Hh'. rewrite capacity_eq in Hh'.
  unfold DoEnqueue, Atomics.ExchangeAdd, Atomics.BitwiseAnd.
  rewrite int32_small, !uint32_small by lia.
  rewrite !land_mask. rewrite (Z.mod_small (head_index (queue_ s))) by exact Hh.
  cbn [with_queue queue_ set_head_index array].
  rewrite Hnode.
  unfold Atomics.ExchangeAddWord. rewrite halves_uint16_l.
  rewrite (DoEnqueue_publish_free _ _ _ _
             (set_write_waiters
                (Word.halves (Word.low_half (write_waiters node) + 1)
                   (Word.high_half (write_waiters node))) node)).
  - rewrite with_node_twice. reflexivity.
  - apply lookup_with_node. apply lookup_lt_Some in Hnode. exact Hnode.
  - exact Hvalid.
Qed.

Lemma Enqueue_free src_int item s node :
  0 <= write_length (queue_ s) < kQueueCapacity ->
  0 <= head_index (queue_ s) < kQueueCapacity ->
  array (queue_ s) !! Z.to_nat (head_index (queue_ s)) = Some node ->
  valid node = 0 ->
  Enqueue sizeof_T value_addr src_int item s
  = Returns true
      (with_node (Z.to_nat (head_index (queue_ s)))
         {| value :=
              internal.VolatileCopy
                (value_addr (Z.to_nat (head_index (queue_ s)))) src_int
                (value node) item (Z.of_nat sizeof_T);
            valid := 1;
            write_waiters :=
              Word.halves (Word.low_half (write_waiters node) + 1)
                (Word.high_half (write_waiters node)) |}
         (with_queue
            (fun q =>
               set_head_index ((head_index q + 1) mod kQueueCapacity)
                 (set_write_length (write_length q + 1) q)) s)).
Proof.
  intros Hw Hh Hnode Hvalid. unfold Enqueue, EnqueueAt.
  rewrite Reserve_free by exact Hw.
  erewrite DoEnqueue_free; [reflexivity | exact Hh | exact Hnode | exact Hvalid].
Qed.

Lemma Enqueue_full src_int item s :
  write_length (queue_ s) = kQueueCapacity ->
  Enqueue sizeof_T value_addr src_int item s = Returns false s.
Proof.
  intros Hw. unfold Enqueue. rewrite Reserve_full by exact Hw. reflexivity.
Qed.

(** [DequeueNext] on a published slot. *)
Lemma DequeueNext_published s node :
  0 <= tail_index_ s < kQueueCapacity ->
  0 < write_length (queue_ s) <= kQueueCapacity ->
  array (queue_ s) !! Z.to_nat (tail_index_ s) = Some node ->
  valid node = 1 ->
  DequeueNext s
  = Returns (Some (value node))
      (with_queue (fun q => set_write_length (write_length q - 1) q)
         (set_tail_index ((tail_index_ s + 1) mod kQueueCapacity)
            (with_node (Z.to_nat (tail_index_ s))
               {| value := value node;
                  valid := 0;
                  write_waiters :=
                    Word.halves (Word.low_half (write_waiters node))
                      (Word.high_half (write_waiters node) + 1) |} s))).
Proof.
  intros Ht Hw Hnode Hvalid. rewrite capacity_eq in Ht, Hw.
  unfold DequeueNext. rewrite Hnode. unfold Atomics.CompareExchange.
  rewrite Hvalid. cbn [Z.eqb Pos.eqb]. unfold DoDequeue.
  rewrite uint32_small, land_mask by lia.
  unfold Atomics.IncrementWord. rewrite halves_uint16_r.
  unfold Atomics.Decrement. cbn [queue_ with_queue set_tail_index with_node
    write_length set_array set_write_length].
  rewrite uint32_small by lia. reflexivity.
Qed.

Lemma DequeueNext_empty s node :
  array (queue_ s) !! Z.to_nat (tail_index_ s) = Some node ->
  valid node <> 1 ->
  DequeueNext s = Returns None s.
Proof.
  intros Hnode Hvalid. unfold DequeueNext. rewrite Hnode.
  unfold Atomics.CompareExchange.
  destruct (Z.eqb_spec (valid node) 1); [contradiction | reflexivity].
Qed.

Lemma halves_succ_l a b :
  Word.halves (Word.uint16 a + 1) (Word.uint16 b) = Word.halves (a + 1) b.
Proof.
  rewrite halves_uint16_r. unfold Word.halves. rewrite uint16_succ. reflexivity.
Qed.

Lemma halves_succ_r a b :
  Word.halves (Word.uint16 a) (Word.uint16 b + 1) = Word.halves a (b + 1).
Proof.
  rewrite halves_uint16_l. unfold Word.halves. rewrite uint16_succ. reflexivity.
Qed.

Lemma shape_lookup s E D (i : Z) :
  shape s E D -> 0 <= i < kQueueCapacity ->
  exists node,
    array (queue_ s) !! Z.to_nat i = Some node
    /\ valid node = (if occupied D E i then 1 else 0)
    /\ write_waiters node = Word.halves (laps E i) (laps D i).
Proof.
  intros Hs Hi.
  destruct (lookup_lt_is_Some_2 (array (queue_ s)) (Z.to_nat i)) as [node Hnode].
  { rewrite (shape_array _ _ _ Hs). lia. }
  exists node. split; [exact Hnode|].
  pose proof (shape_nodes _ _ _ Hs _ _ Hnode) as Hn.
  rewrite Z2Nat.id in Hn by lia. exact Hn.
Qed.

Lemma Enqueue_accepts src_int item s E D :
  shape s E D ->
  E - D < kQueueCapacity ->
  exists s',
    Enqueue sizeof_T value_addr src_int item s = Returns true s'
    /\ shape s' (E + 1) D
    /\ forall hist,
         content sizeof_T s E D hist ->
         length item = sizeof_T ->
         copies_whole sizeof_T = true ->
         content sizeof_T s' (E + 1) D (hist ++ [item]).
Proof.
  intros Hs Hroom. pose proof capacity_eq as HC.
  destruct Hs as [Hwin Harr Hwl Hhead Htail Hnodes].
  pose proof (ring_index E) as Hi.
  destruct (shape_lookup s E D (E mod kQueueCapacity)) as (node & Hnode & Hv & Hww);
    [constructor; assumption | exact Hi |].
  rewrite occupied_head in Hv by lia.
  eexists. split; [|split].
  - apply Enqueue_free with (node := node); rewrite ?Hwl, ?Hhead; try lia;
      assumption.
  - rewrite Hhead. constructor; cbn.
    + lia.
    + rewrite length_insert. exact Harr.
    + lia.
    + rewrite Hhead. apply succ_mod.
    + exact Htail.
    + intros i n Hn.
      assert (i < Z.to_nat kQueueCapacity)%nat as Hlt.
      { apply lookup_lt_Some in Hn. rewrite length_insert in Hn. lia. }
      rewrite occupied_enqueue by lia.
      rewrite laps_succ by lia.
      destruct (decide (i = Z.to_nat (E mod kQueueCapacity))) as [->|Hne].
      * rewrite list_lookup_insert_eq in Hn by lia.
        injection Hn as <-. cbn.
        rewrite Z2Nat.id by lia. rewrite Z.eqb_refl. cbn.
        split; [reflexivity|].
        rewrite Hww, low_half_halves, high_half_halves.
        apply halves_succ_l.
      * rewrite list_lookup_insert_ne in Hn by congruence.
        destruct (Hnodes _ _ Hn) as [Hv' Hww'].
        destruct (Z.eqb_spec (Z.of_nat i) (E mod kQueueCapacity)) as [Heq|_];
          [exfalso; apply Hne; lia|].
        cbn. rewrite Z.add_0_r. split; assumption.
  - intros hist [Hlen Hsized Hvals] Hitem Hwhole. rewrite Hhead.
    constructor; cbn.
    + rewrite length_app. cbn. lia.
    + intros i n Hn.
      destruct (decide (i = Z.to_nat (E mod kQueueCapacity))) as [->|Hne].
      * rewrite list_lookup_insert_eq in Hn
          by (apply lookup_lt_Some in Hnode; exact Hnode).
        injection Hn as <-. cbn. rewrite VolatileCopy_length.
        eapply Hsized, Hnode.
      * rewrite list_lookup_insert_ne in Hn by congruence.
        eapply Hsized, Hn.
    + intros j x Hj Hx.
      destruct (decide (j < length hist)%nat) as [Hold|Hnew].
      * rewrite lookup_app_l in Hx by exact Hold.
        destruct (Hvals j x Hj Hx) as (n & Hn & Hval).
        exists n. split; [|exact Hval].
        rewrite list_lookup_insert_ne; [exact Hn|].
        intros Heq. apply Z2Nat.inj in Heq; try apply ring_index.
        revert Heq. clear -Hold Hlen Hj Hroom Hwin HC. rewrite HC in *.
        intros Heq. Z.div_mod_to_equations. lia.
      * assert (j = length hist) as ->.
        { apply lookup_lt_Some in Hx. rewrite length_app in Hx. cbn in Hx. lia. }
        rewrite list_lookup_middle in Hx by reflexivity. injection Hx as <-.
        rewrite Hlen.
        eexists. split.
        -- apply list_lookup_insert_eq. apply lookup_lt_Some in Hnode. exact Hnode.
        -- cbn. rewrite <- Hitem. apply VolatileCopy_whole.
           ++ rewrite Hitem. eapply Hsized, Hnode.
           ++ rewrite Hitem. exact Hwhole.
Qed.

Lemma Enqueue_rejects src_int item s E D :
  shape s E D ->
  E - D = kQueueCapacity ->
  Enqueue sizeof_T value_addr src_int item s = Returns false s.
Proof.
  intros Hs Hfull. apply Enqueue_full.
  rewrite (shape_write_length _ _ _ Hs). exact Hfull.
Qed.

Lemma DequeueNext_delivers s E D :
  shape s E D ->
  D < E ->
  exists x s',
    DequeueNext s = Returns (Some x) s'
    /\ shape s' E (D + 1)
    /\ forall hist,
         content sizeof_T s E D hist ->
         hist !! Z.to_nat D = Some x
         /\ content sizeof_T s' E (D + 1) hist.
Proof.
  intros Hs Hsome. pose proof capacity_eq as HC.
  destruct Hs as [Hwin Harr Hwl Hhead Htail Hnodes].
  pose proof (ring_index D) as Hi.
  destruct (shape_lookup s E D (D mod kQueueCapacity)) as (node & Hnode & Hv & Hww);
    [constructor; assumption | exact Hi |].
  rewrite occupied_tail in Hv by lia.
  exists (value node). eexists. split; [|split].
  - apply DequeueNext_published; rewrite ?Hwl, ?Htail; try lia; assumption.
  - rewrite Htail. constructor; cbn.
    + lia.
    + rewrite length_insert. exact Harr.
    + lia.
    + exact Hhead.
    + apply succ_mod.
    + intros i n Hn.
      assert (i < Z.to_nat kQueueCapacity)%nat as Hlt.
      { apply lookup_lt_Some in Hn. rewrite length_insert in Hn. lia. }
      rewrite occupied_dequeue by lia.
      rewrite laps_succ by lia.
      destruct (decide (i = Z.to_nat (D mod kQueueCapacity))) as [->|Hne].
      * rewrite list_lookup_insert_eq in Hn by lia.
        injection Hn as <-. cbn.
        rewrite Z2Nat.id by lia. rewrite Z.eqb_refl. cbn.
        split; [reflexivity|].
        rewrite Hww, low_half_halves, high_half_halves.
        apply halves_succ_r.
      * rewrite list_lookup_insert_ne in Hn by congruence.
        destruct (Hnodes _ _ Hn) as [Hv' Hww'].
        destruct (Z.eqb_spec (Z.of_nat i) (D mod kQueueCapacity)) as [Heq|_];
          [exfalso; apply Hne; lia|].
        cbn. rewrite Z.add_0_r. split; assumption.
  - intros hist [Hlen Hsized Hvals]. split.
    + destruct (lookup_lt_is_Some_2 hist (Z.to_nat D)) as [y Hy]; [lia|].
      assert (D <= Z.of_nat (Z.to_nat D)) as HD by lia.
      destruct (Hvals _ _ HD Hy) as (n & Hn & Hval).
      rewrite Z2Nat.id in Hn by lia.
      rewrite Hnode in Hn. injection Hn as <-. rewrite Hval. exact Hy.
    + rewrite Htail. constructor; cbn.
      * exact Hlen.
      * intros i n Hn.
        destruct (decide (i = Z.to_nat (D mod kQueueCapacity))) as [->|Hne].
        -- rewrite list_lookup_insert_eq in Hn
             by (apply lookup_lt_Some in Hnode; exact Hnode).
           injection Hn as <-. cbn. eapply Hsized, Hnode.
        -- rewrite list_lookup_insert_ne in Hn by congruence.
           eapply Hsized, Hn.
      * intros j x Hj Hx.
        assert (D <= Z.of_nat j) as HD by lia.
        destruct (Hvals j x HD Hx) as (n & Hn & Hval).
        exists n. split; [|exact Hval].
        rewrite list_lookup_insert_ne; [exact Hn|].
        apply lookup_lt_Some in Hx.
        intros Heq. apply Z2Nat.inj in Heq; try apply ring_index.
        revert Heq. clear -Hx Hlen Hj Hwin HC. rewrite HC in *.
        intros Heq. Z.div_mod_to_equations. lia.
Qed.

Lemma DequeueNext_nothing s D :
  shape s D D -> DequeueNext s = Returns None s.
Proof.
  intros Hs.
  destruct (shape_lookup s D D (D mod kQueueCapacity)) as (node & Hnode & Hv & _);
    [exact Hs | apply ring_index |].
  rewrite occupied_none in Hv.
  apply DequeueNext_empty with (node := node).
  - rewrite (shape_tail _ _ _ Hs). exact Hnode.
  - lia.
Qed.

Lemma Returns_state {St A : Type} (a a' : A) (s s' : St) :
  Returns a s = Returns a' s' -> s = s'.
Proof. intros H. injection H as _ H. exact H. Qed.

(** The queue the constructor builds. *)
Lemma clear_nodes_length count : forall i a,
  length (clear_nodes count i a) = length a.
Proof.
  induction count as [|c IH]; intros i a; cbn [clear_nodes]; [reflexivity|].
  rewrite IH. apply length_alter.
Qed.

Lemma clear_nodes_lookup count : forall i a j,
  clear_nodes count i a !! j =
    if decide (i <= j < i + count)%nat then clear_node <$> a !! j else a !! j.
Proof.
  induction count as [|c IH]; intros i a j; cbn [clear_nodes].
  - case_decide; [lia | reflexivity].
  - rewrite IH. repeat case_decide; try lia.
    + rewrite list_lookup_alter_ne by lia. reflexivity.
    + assert (j = i) as -> by lia. apply list_lookup_alter_eq.
    + apply list_lookup_alter_ne. lia.
Qed.

Lemma MpscQueue_shape raw s :
  raw_block sizeof_T raw ->
  MpscQueue (Some raw) = Returns tt s ->
  shape s 0 0 /\ content sizeof_T s 0 0 [].
Proof.
  intros [Hlen Hsized] Hnew. unfold MpscQueue in Hnew.
  apply Returns_state in Hnew. subst s.
  pose proof capacity_eq as HC.
  split; constructor; cbn [queue_ tail_index_ array set_array write_length
                           head_index set_head_index set_write_length].
  - lia.
  - rewrite clear_nodes_length. exact Hlen.
  - reflexivity.
  - reflexivity.
  - reflexivity.
  - intros i node Hnode.
    assert (i < Z.to_nat kQueueCapacity)%nat as Hi.
    { apply lookup_lt_Some in Hnode. rewrite clear_nodes_length in Hnode. lia. }
    rewrite clear_nodes_lookup in Hnode.
    case_decide; [|lia].
    destruct (array raw !! i) as [n|]; [|discriminate].
    injection Hnode as <-. rewrite occupied_none. cbn [clear_node valid
      set_valid set_write_waiters write_waiters].
    split; [reflexivity|].
    unfold laps. rewrite HC. rewrite Z.mod_0_l, Z.div_0_l by lia.
    destruct (Z.ltb_spec (Z.of_nat i) 0); [lia | reflexivity].
  - reflexivity.
  - intros i node Hnode. rewrite clear_nodes_lookup in Hnode.
    rewrite Forall_lookup in Hsized.
    case_decide.
    + destruct (array raw !! i) as [n|] eqn:Hn; [|discriminate].
      injection Hnode as <-. cbn. eapply Hsized, Hn.
    + eapply Hsized, Hnode.
  - intros j x _ Hx. discriminate.
Qed.

(** *** The invariant of every run *)

Lemma consistent_intro s :
  length (array (queue_ s)) = Z.to_nat kQueueCapacity ->
  0 <= tail_index_ s < kQueueCapacity ->
  (forall (i : nat) node,
      array (queue_ s) !! i = Some node ->
      valid node = 0 \/ valid node = 1
      \/ (valid node = 2 /\ reader_asleep s = true
          /\ Z.of_nat i = tail_index_ s)) ->
  Forall (fun w => (writer_slot w < Z.to_nat kQueueCapacity)%nat) (writers s) ->
  consistent s.
Proof. intros. constructor; assumption. Qed.

(** Writing a node whose [valid] is allowed where it stands. *)
Lemma consistent_with_node i n s :
  consistent s ->
  (valid n = 0 \/ valid n = 1
   \/ (valid n = 2 /\ reader_asleep s = true /\ Z.of_nat i = tail_index_ s)) ->
  consistent (with_node i n s).
Proof.
  intros [Hlen Htail Hvalid Hws] Hn. constructor; cbn.
  - rewrite length_insert. exact Hlen.
  - exact Htail.
  - intros j node Hnode.
    destruct (decide (j = i)) as [->|Hne].
    + rewrite list_lookup_insert_eq in Hnode
        by (apply lookup_lt_Some in Hnode; rewrite length_insert in Hnode;
            exact Hnode).
      injection Hnode as <-. exact Hn.
    + rewrite list_lookup_insert_ne in Hnode by congruence.
      eapply Hvalid, Hnode.
  - exact Hws.
Qed.

Lemma consistent_with_header f s :
  (forall q, array (f q) = array q) ->
  consistent s -> consistent (with_queue f s).
Proof.
  intros Hf [Hlen Htail Hvalid Hws]. constructor; cbn; rewrite ?Hf; assumption.
Qed.

Lemma consistent_log e s : consistent s -> consistent (log e s).
Proof. intros [Hlen Htail Hvalid Hws]. constructor; assumption. Qed.

Lemma consistent_set_writers ws s :
  Forall (fun w => (writer_slot w < Z.to_nat kQueueCapacity)%nat) ws ->
  consistent s -> consistent (set_writers ws s).
Proof. intros Hws' [Hlen Htail Hvalid Hws]. constructor; assumption. Qed.

Lemma DoEnqueue_publish_consistent i src_int item s s' :
  consistent s ->
  after (DoEnqueue_publish sizeof_T value_addr i src_int item s) = Some s' ->
  consistent s'.
Proof.
  intros Hs Hafter. unfold DoEnqueue_publish, Atomics.Exchange in Hafter.
  repeat case_match; simplify_eq/=;
    try apply consistent_log; apply consistent_with_node; auto.
Qed.

Lemma DoWriteBlocking_consistent i my_wait_number s s' :
  consistent s ->
  after (DoWriteBlocking i my_wait_number s) = Some s' ->
  consistent s'.
Proof.
  intros Hs Hafter. unfold DoWriteBlocking in Hafter.
  repeat case_match; simplify_eq/=; try apply consistent_log; assumption.
Qed.

Lemma DoEnqueue_consistent src_int item can_block s s' :
  consistent s ->
  after (DoEnqueue sizeof_T value_addr src_int item can_block s) = Some s' ->
  consistent s'.
Proof.
  intros Hs Hafter. unfold DoEnqueue, Atomics.ExchangeAdd in Hafter.
  set (s1 := with_queue _ s) in Hafter.
  assert (consistent s1) as Hs1 by (apply consistent_with_header; auto).
  clearbody s1.
  destruct (array (queue_ s1) !! _) as [write_at|] eqn:Hnode; [|discriminate].
  unfold Atomics.ExchangeAddWord in Hafter.
  set (s2 := with_node _ _ s1) in Hafter.
  assert (consistent s2) as Hs2.
  { apply consistent_with_node; [exact Hs1|].
    cbn. eapply consistent_valid; eassumption. }
  assert (Z.to_nat (Z.land (Word.uint32 (Word.int32 (head_index (queue_ s)))) mask)
          < Z.to_nat kQueueCapacity)%nat as Hslot.
  { apply lookup_lt_Some in Hnode.
    rewrite (consistent_array _ Hs1) in Hnode. exact Hnode. }
  clearbody s2.
  destruct can_block.
  - destruct (DoWriteBlocking _ _ s2) as [[] s3|s3| |] eqn:Hwait;
      try discriminate.
    + eapply DoEnqueue_publish_consistent; [|exact Hafter].
      eapply DoWriteBlocking_consistent; [exact Hs2|]. rewrite Hwait. reflexivity.
    + cbn in Hafter. injection Hafter as <-.
      assert (consistent s3) as Hs3.
      { eapply DoWriteBlocking_consistent; [exact Hs2|]. rewrite Hwait.
        reflexivity. }
      apply consistent_set_writers; [|exact Hs3].
      apply Forall_app. split; [apply (consistent_writers _ Hs3)|].
      constructor; [exact Hslot | constructor].
  - eapply DoEnqueue_publish_consistent; eassumption.
Qed.

Lemma Enqueue_consistent src_int item s s' :
  consistent s ->
  after (Enqueue sizeof_T value_addr src_int item s) = Some s' ->
  consistent s'.
Proof.
  intros Hs Hafter. unfold Enqueue, Reserve, Atomics.ExchangeAdd in Hafter.
  destruct (_ >=? _).
  - cbn in Hafter. injection Hafter as <-.
    apply consistent_with_header; auto.
  - unfold EnqueueAt in Hafter.
    destruct (DoEnqueue _ _ _ _ _ _) as [[] s2|s2| |] eqn:Hdo; try discriminate;
      cbn in Hafter; injection Hafter as <-;
      (eapply DoEnqueue_consistent; [|rewrite Hdo; reflexivity]);
      apply consistent_with_header; auto.
Qed.

Lemma EnqueueBlocking_consistent src_int item s s' :
  consistent s ->
  after (EnqueueBlocking sizeof_T value_addr src_int item s) = Some s' ->
  consistent s'.
Proof.
  intros Hs Hafter. unfold EnqueueBlocking in Hafter.
  eapply DoEnqueue_consistent; [|exact Hafter].
  apply consistent_with_header; auto.
Qed.

Lemma resume_writer_consistent k s s' :
  consistent s ->
  after (resume_writer sizeof_T value_addr k s) = Some s' ->
  consistent s'.
Proof.
  intros Hs Hafter. unfold resume_writer in Hafter.
  destruct (writers s !! k) as [w|] eqn:Hw.
  - set (s1 := set_writers _ s) in Hafter.
    assert (Forall (fun w => (writer_slot w < Z.to_nat kQueueCapacity)%nat)
              (writers s)) as Hws by apply (consistent_writers _ Hs).
    assert (consistent s1) as Hs1.
    { apply consistent_set_writers; [|exact Hs]. apply Forall_delete, Hws. }
    clearbody s1.
    destruct (DoWriteBlocking _ _ s1) as [[] s2|s2| |] eqn:Hwait;
      try discriminate.
    + eapply DoEnqueue_publish_consistent; [|exact Hafter].
      eapply DoWriteBlocking_consistent; [exact Hs1|]. rewrite Hwait. reflexivity.
    + cbn in Hafter. injection Hafter as <-.
      assert (consistent s2) as Hs2.
      { eapply DoWriteBlocking_consistent; [exact Hs1|]. rewrite Hwait.
        reflexivity. }
      apply consistent_set_writers; [|exact Hs2].
      apply Forall_app. split; [apply (consistent_writers _ Hs2)|].
      constructor; [|constructor].
      rewrite Forall_lookup in Hws. eapply (Hws k), Hw.
  - cbn in Hafter. injection Hafter as <-. exact Hs.
Qed.

(** A system in which no slot carries the consumer's mark stays consistent
    when the consumer moves on. *)
Lemma consistent_unmarked b t q ws l s :
  length (array q) = Z.to_nat kQueueCapacity ->
  0 <= t < kQueueCapacity ->
  (forall (i : nat) node,
      array q !! i = Some node -> valid node = 0 \/ valid node = 1) ->
  Forall (fun w => (writer_slot w < Z.to_nat kQueueCapacity)%nat) ws ->
  s = {| queue_ := q; tail_index_ := t; reader_asleep := b; writers := ws;
         syscalls := l |} ->
  consistent s.
Proof.
  intros Hlen Ht Hvalid Hws ->. constructor; cbn; try assumption.
  intros i node Hnode. destruct (Hvalid i node Hnode); auto.
Qed.

Lemma next_tail_in_bounds t :
  0 <= Z.land (Word.uint32 (t + 1)) mask < kQueueCapacity.
Proof. apply mask_in_bounds. Qed.

(** [DequeueNextBlocking]'s last part, run on a system whose slot [i] was
    just emptied and in which no other slot carries the consumer's mark. *)
Lemma DequeueNextBlocking_read_consistent i read_at s s' :
  length (array (queue_ s)) = Z.to_nat kQueueCapacity ->
  (i < Z.to_nat kQueueCapacity)%nat ->
  (forall (j : nat) node,
      array (queue_ s) !! j = Some node -> valid node = 0 \/ valid node = 1) ->
  Forall (fun w => (writer_slot w < Z.to_nat kQueueCapacity)%nat) (writers s) ->
  after (DequeueNextBlocking_read i read_at s) = Some s' ->
  consistent s'
  /\ exists node, array (queue_ s') !! i = Some node /\ valid node = 0.
Proof.
  intros Hlen Hi Hvalid Hws Hread.
  unfold DequeueNextBlocking_read, DoDequeue, Atomics.ExchangeAdd in Hread.
  destruct (Z.eqb_spec (valid read_at) 0) as [Hzero|]; [|discriminate].
  assert (forall (j : nat) node,
             <[i := set_write_waiters
                      (Word.halves (Word.low_half (write_waiters read_at))
                         (Atomics.IncrementWord
                            (Word.high_half (write_waiters read_at))))
                      read_at]> (array (queue_ s)) !! j = Some node ->
             valid node = 0 \/ valid node = 1) as Hvalid'.
  { intros j node Hnode. destruct (decide (j = i)) as [->|Hne].
    - rewrite list_lookup_insert_eq in Hnode by lia.
      injection Hnode as <-. left. exact Hzero.
    - rewrite list_lookup_insert_ne in Hnode by congruence.
      eapply Hvalid, Hnode. }
  repeat case_match; simplify_eq/=; (split;
    [ eapply consistent_unmarked; [| | | |reflexivity]; cbn;
      rewrite ?length_insert; auto using next_tail_in_bounds
    | eexists; split; [apply list_lookup_insert_eq; lia | exact Hzero] ]).
Qed.

Lemma consistent_unmarked_nodes s :
  consistent s -> reader_asleep s = false ->
  forall (i : nat) node,
    array (queue_ s) !! i = Some node -> valid node = 0 \/ valid node = 1.
Proof.
  intros Hs Hawake i node Hnode.
  destruct (consistent_valid _ Hs _ _ Hnode) as [H|[H|(_ & H & _)]]; auto.
  congruence.
Qed.

Lemma DequeueNext_consistent s s' :
  consistent s -> reader_asleep s = false ->
  after (DequeueNext s) = Some s' ->
  consistent s'.
Proof.
  intros Hs Hawake Hafter.
  pose proof (consistent_unmarked_nodes s Hs Hawake) as Hvalid.
  destruct Hs as [Hlen Htail _ Hws].
  unfold DequeueNext, DoDequeue, Atomics.CompareExchange in Hafter.
  destruct (array (queue_ s) !! _) as [read_at|] eqn:Hnode; [|discriminate].
  destruct (Z.eqb_spec (valid read_at) 1) as [Hone|Hnot].
  - cbn in Hafter. injection Hafter as <-.
    eapply consistent_unmarked; [| | | |reflexivity]; cbn;
      rewrite ?length_insert; auto using next_tail_in_bounds.
    intros j node Hj.
    destruct (decide (j = Z.to_nat (tail_index_ s))) as [->|Hne].
    + rewrite list_lookup_insert_eq in Hj
        by (apply lookup_lt_Some in Hnode; exact Hnode).
      injection Hj as <-. left. reflexivity.
    + rewrite list_lookup_insert_ne in Hj by congruence.
      eapply Hvalid, Hj.
  - cbn in Hafter. injection Hafter as <-.
    constructor; try assumption.
    intros j node Hj. destruct (Hvalid j node Hj); auto.
Qed.

Lemma DequeueNextBlocking_wait_consistent s s' :
  length (array (queue_ s)) = Z.to_nat kQueueCapacity ->
  0 <= tail_index_ s < kQueueCapacity ->
  (forall (j : nat) node,
      array (queue_ s) !! j = Some node ->
      valid node = 0 \/ valid node = 1
      \/ (valid node = 2 /\ Z.of_nat j = tail_index_ s)) ->
  Forall (fun w => (writer_slot w < Z.to_nat kQueueCapacity)%nat) (writers s) ->
  after (DequeueNextBlocking_wait (Z.to_nat (tail_index_ s)) s) = Some s' ->
  consistent s'
  /\ (reader_asleep s' = false ->
      exists node,
        array (queue_ s') !! Z.to_nat (tail_index_ s) = Some node
        /\ valid node = 0).
Proof.
  intros Hlen Htail Hvalid Hws Hafter.
  unfold DequeueNextBlocking_wait, Atomics.Exchange in Hafter.
  destruct (array (queue_ s) !! _) as [read_at|] eqn:Hnode; [|discriminate].
  destruct (Z.eqb_spec (valid read_at) 2) as [Htwo|Hnot].
  - cbn in Hafter. injection Hafter as <-. split; [|discriminate].
    constructor; cbn; try assumption.
    intros j node Hj.
    destruct (Hvalid j node Hj) as [H|[H|[H1 H2]]]; auto.
  - apply DequeueNextBlocking_read_consistent in Hafter; cbn;
      rewrite ?length_insert; try assumption; try lia.
    + destruct Hafter as [Hs' Hslot]. split; [exact Hs' | intros _; exact Hslot].
    + intros j node Hj.
      destruct (decide (j = Z.to_nat (tail_index_ s))) as [->|Hne].
      * rewrite list_lookup_insert_eq in Hj
          by (apply lookup_lt_Some in Hnode; exact Hnode).
        injection Hj as <-. left. reflexivity.
      * rewrite list_lookup_insert_ne in Hj by congruence.
        destruct (Hvalid j node Hj) as [H|[H|[H1 H2]]]; auto. lia.
Qed.

Lemma DequeueNextBlocking_read_awake i read_at s s' :
  reader_asleep s = false ->
  after (DequeueNextBlocking_read i read_at s) = Some s' ->
  reader_asleep s' = false.
Proof.
  intros Hawake Hafter.
  unfold DequeueNextBlocking_read, DoDequeue, Atomics.ExchangeAdd in Hafter.
  repeat case_match; simplify_eq/=; exact Hawake.
Qed.

Lemma DequeueNextBlocking_consistent s s' :
  consistent s -> reader_asleep s = false ->
  after (DequeueNextBlocking s) = Some s' ->
  consistent s'
  /\ (reader_asleep s' = false ->
      exists node,
        array (queue_ s') !! Z.to_nat (tail_index_ s) = Some node
        /\ valid node = 0).
Proof.
  intros Hs Hawake Hafter.
  pose proof (consistent_unmarked_nodes s Hs Hawake) as Hvalid.
  destruct Hs as [Hlen Htail _ Hws].
  unfold DequeueNextBlocking, Atomics.CompareExchange, Atomics.Exchange in Hafter.
  destruct (array (queue_ s) !! _) as [read_at|] eqn:Hnode; [|discriminate].
  assert (Z.to_nat (tail_index_ s) < length (array (queue_ s)))%nat as Hi
    by (apply lookup_lt_Some in Hnode; exact Hnode).
  assert (forall v (j : nat) node,
             (v = 0 \/ v = 1) ->
             <[Z.to_nat (tail_index_ s) := set_valid v read_at]>
               (array (queue_ s)) !! j = Some node ->
             valid node = 0 \/ valid node = 1) as Hvalid'.
  { intros v j node Hv Hj.
    destruct (decide (j = Z.to_nat (tail_index_ s))) as [->|Hne].
    - rewrite list_lookup_insert_eq in Hj by exact Hi.
      injection Hj as <-. exact Hv.
    - rewrite list_lookup_insert_ne in Hj by congruence.
      eapply Hvalid, Hj. }
  destruct (Z.eqb_spec (valid read_at) 1) as [Hone|Hnot1].
  - apply DequeueNextBlocking_read_consistent in Hafter; cbn;
      rewrite ?length_insert; try assumption; try lia.
    + destruct Hafter as [Hs' Hslot]. split; [exact Hs' | intros _; exact Hslot].
    + intros j node. apply Hvalid'. auto.
  - destruct (Z.eqb_spec (valid read_at) 0) as [Hzero|Hnot0].
    + change (with_node (Z.to_nat (tail_index_ s)) (set_valid 2 read_at) s)
        with (set_tail_index (tail_index_ s)
                (with_node (Z.to_nat (tail_index_ s)) (set_valid 2 read_at) s))
        in Hafter.
      set (s1 := with_node _ _ s) in Hafter.
      change (Z.to_nat (tail_index_ s))
        with (Z.to_nat (tail_index_ (set_tail_index (tail_index_ s) s1)))
        in Hafter at 1.
      apply DequeueNextBlocking_wait_consistent in Hafter; subst s1; cbn;
        rewrite ?length_insert; try assumption.
      intros j node Hj.
      destruct (decide (j = Z.to_nat (tail_index_ s))) as [->|Hne].
      * rewrite list_lookup_insert_eq in Hj by exact Hi.
        injection Hj as <-. right. right. cbn. split; [reflexivity | lia].
      * rewrite list_lookup_insert_ne in Hj by congruence.
        destruct (Hvalid j node Hj); auto.
    + apply DequeueNextBlocking_read_consistent in Hafter; cbn;
        rewrite ?length_insert; try assumption; try lia.
      * destruct Hafter as [Hs' Hslot].
        split; [exact Hs' | intros _; exact Hslot].
      * intros j node. apply Hvalid'. auto.
Qed.

Lemma resume_reader_consistent s s' :
  consistent s ->
  after (resume_reader s) = Some s' ->
  consistent s'
  /\ (reader_asleep s' = false ->
      exists node,
        array (queue_ s') !! Z.to_nat (tail_index_ s) = Some node
        /\ valid node = 0).
Proof.
  intros [Hlen Htail Hvalid Hws] Hafter. unfold resume_reader in Hafter.
  apply DequeueNextBlocking_wait_consistent in Hafter; try assumption.
  intros j node Hj.
  destruct (Hvalid j node Hj) as [H|[H|(H1 & _ & H2)]]; auto.
Qed.

Lemma DequeueNextBlocking_wait_awake i s s' item :
  DequeueNextBlocking_wait i s = Returns item s' -> reader_asleep s' = false.
Proof.
  unfold DequeueNextBlocking_wait, Atomics.Exchange. intros Hret.
  destruct (array (queue_ s) !! i) as [read_at|]; [|discriminate].
  destruct (valid read_at =? 2); [discriminate|].
  eapply DequeueNextBlocking_read_awake; [|rewrite Hret; reflexivity].
  reflexivity.
Qed.

Lemma DequeueNextBlocking_awake s s' item :
  reader_asleep s = false ->
  DequeueNextBlocking s = Returns item s' -> reader_asleep s' = false.
Proof.
  unfold DequeueNextBlocking, Atomics.CompareExchange, Atomics.Exchange.
  intros Hawake Hret.
  destruct (array (queue_ s) !! _) as [read_at|]; [|discriminate].
  destruct (valid read_at =? 1).
  - eapply DequeueNextBlocking_read_awake; [|rewrite Hret; reflexivity].
    exact Hawake.
  - destruct (valid read_at =? 0).
    + eapply DequeueNextBlocking_wait_awake, Hret.
    + eapply DequeueNextBlocking_read_awake; [|rewrite Hret; reflexivity].
      exact Hawake.
Qed.

Lemma after_reply_with {St A B : Type} (f : A -> B) (o : outcome St A) :
  after (reply_with f o) = after o.
Proof. destruct o; reflexivity. Qed.

Lemma perform_consistent c s s' :
  consistent s ->
  admissible sizeof_T s c ->
  after (perform sizeof_T value_addr c s) = Some s' ->
  consistent s'.
Proof.
  intros Hs Hadm Hafter.
  destruct c; cbn [perform admissible] in *; rewrite after_reply_with in Hafter.
  - eapply Enqueue_consistent; eassumption.
  - eapply EnqueueBlocking_consistent; eassumption.
  - eapply DequeueNext_consistent; eassumption.
  - eapply DequeueNextBlocking_consistent; eassumption.
  - eapply resume_writer_consistent; eassumption.
  - eapply resume_reader_consistent; eassumption.
Qed.

Lemma MpscQueue_consistent raw s :
  raw_block sizeof_T raw ->
  MpscQueue (Some raw) = Returns tt s ->
  consistent s.
Proof.
  intros [Hlen _] Hnew. unfold MpscQueue in Hnew.
  apply Returns_state in Hnew. subst s.
  eapply consistent_unmarked; [| | | |reflexivity];
    cbn [array set_array set_head_index set_write_length].
  - rewrite clear_nodes_length. exact Hlen.
  - rewrite capacity_eq. lia.
  - intros i node Hnode.
    assert (i < Z.to_nat kQueueCapacity)%nat as Hi.
    { apply lookup_lt_Some in Hnode. rewrite clear_nodes_length in Hnode. lia. }
    rewrite clear_nodes_lookup in Hnode.
    case_decide; [|lia].
    destruct (array raw !! i) as [n|]; [|discriminate].
    injection Hnode as <-. left. reflexivity.
  - constructor.
Qed.

Lemma reachable_consistent s :
  reachable sizeof_T value_addr s -> consistent s.
Proof.
  induction 1 as [raw s Hraw Hnew | s c s' _ IH Hadm Hafter].
  - eapply MpscQueue_consistent; eassumption.
  - eapply perform_consistent; eassumption.
Qed.

(** *** Indexing stays inside the slot array *)

Ltac in_bounds :=
  repeat case_match; try congruence;
  repeat match goal with
         | H : _ !! _ = None |- _ =>
             apply lookup_ge_None in H; cbn in H; rewrite ?length_insert in H
         end;
  lia.

Lemma DoEnqueue_publish_in_bounds i src_int item s :
  (i < length (array (queue_ s)))%nat ->
  DoEnqueue_publish sizeof_T value_addr i src_int item s <> OutOfBounds.
Proof.
  intros Hi. unfold DoEnqueue_publish, Atomics.Exchange. in_bounds.
Qed.

Lemma DoWriteBlocking_array i my_wait_number s s' :
  after (DoWriteBlocking i my_wait_number s) = Some s' ->
  array (queue_ s') = array (queue_ s).
Proof.
  unfold DoWriteBlocking. intros Hafter.
  repeat case_match; simplify_eq/=; reflexivity.
Qed.

Lemma DoWriteBlocking_in_bounds i my_wait_number s :
  (i < length (array (queue_ s)))%nat ->
  DoWriteBlocking i my_wait_number s <> OutOfBounds.
Proof. intros Hi. unfold DoWriteBlocking. in_bounds. Qed.

Lemma DoEnqueue_in_bounds src_int item can_block s :
  length (array (queue_ s)) = Z.to_nat kQueueCapacity ->
  DoEnqueue sizeof_T value_addr src_int item can_block s <> OutOfBounds.
Proof.
  intros Hlen. unfold DoEnqueue, Atomics.ExchangeAdd, Atomics.ExchangeAddWord.
  pose proof (mask_in_bounds (Word.int32 (head_index (queue_ s)))) as Hi.
  cbn [queue_ with_queue array set_head_index].
  destruct (array (queue_ s) !! _) as [write_at|] eqn:Hnode.
  - set (s2 := with_node _ _ _).
    assert (length (array (queue_ s2)) = Z.to_nat kQueueCapacity) as Hlen2.
    { subst s2. cbn. rewrite length_insert. exact Hlen. }
    clearbody s2.
    destruct can_block.
    + destruct (DoWriteBlocking _ _ s2) as [[] s3|s3| |] eqn:Hwait;
        try discriminate.
      * apply DoEnqueue_publish_in_bounds.
        erewrite DoWriteBlocking_array by (rewrite Hwait; reflexivity). lia.
      * exfalso. eapply DoWriteBlocking_in_bounds; [|exact Hwait]. lia.
    + apply DoEnqueue_publish_in_bounds. lia.
  - apply lookup_ge_None in Hnode. lia.
Qed.

Lemma reply_with_in_bounds {St A B : Type} (f : A -> B) (o : outcome St A) :
  o <> OutOfBounds -> reply_with f o <> OutOfBounds.
Proof. destruct o; cbn; congruence. Qed.

Lemma consistent_within_array s : consistent s -> within_array s.
Proof. intros [Hlen Htail _ Hws]. split; [|split]; assumption. Qed.

Lemma perform_in_bounds c s :
  within_array s ->
  perform sizeof_T value_addr c s <> OutOfBounds.
Proof.
  intros (Hlen & Htail & Hws).
  destruct c; cbn [perform]; apply reply_with_in_bounds.
  - unfold Enqueue, Reserve, Atomics.ExchangeAdd, EnqueueAt.
    destruct (_ >=? _); [discriminate|].
    pose proof (DoEnqueue_in_bounds src_int item false
                  (with_queue
                     (set_write_length
                        (Word.uint32 (write_length (queue_ s) + 1))) s) Hlen).
    destruct (DoEnqueue _ _ _ _ _ _); congruence.
  - unfold EnqueueBlocking. apply DoEnqueue_in_bounds. exact Hlen.
  - unfold DequeueNext, DoDequeue, Atomics.CompareExchange. in_bounds.
  - unfold DequeueNextBlocking, DequeueNextBlocking_wait,
      DequeueNextBlocking_read, DoDequeue, Atomics.CompareExchange,
      Atomics.Exchange, Atomics.ExchangeAdd.
    in_bounds.
  - unfold resume_writer.
    destruct (writers s !! k) as [w|] eqn:Hw; [|discriminate].
    rewrite Forall_lookup in Hws. pose proof (Hws k w Hw) as Hslot.
    destruct (DoWriteBlocking _ _ _) as [[] s2|s2| |] eqn:Hwait;
      try discriminate.
    + apply DoEnqueue_publish_in_bounds.
      erewrite DoWriteBlocking_array by (rewrite Hwait; reflexivity). cbn. lia.
    + exfalso. eapply DoWriteBlocking_in_bounds; [|exact Hwait]. cbn. lia.
  - unfold resume_reader, DequeueNextBlocking_wait, DequeueNextBlocking_read,
      DoDequeue, Atomics.Exchange, Atomics.ExchangeAdd.
    in_bounds.
Qed.

(** *** The indices stay in the array, whatever [head_index] holds *)

Lemma uint32_int32 x : Word.uint32 (Word.int32 x) = Word.uint32 x.
Proof.
  unfold Word.int32, Word.uint32.
  destruct (Z.ltb_spec (x mod 2 ^ 32) (2 ^ 31)).
  - apply Z.mod_mod. lia.
  - change (2 ^ 32) with 4294967296. Z.div_mod_to_equations. lia.
Qed.

Lemma within_array_with_node i n s :
  within_array s -> within_array (with_node i n s).
Proof.
  intros (Hlen & Htail & Hws). split; [|split]; cbn; try assumption.
  rewrite length_insert. exact Hlen.
Qed.

Lemma within_array_with_header f s :
  (forall q, array (f q) = array q) ->
  within_array s -> within_array (with_queue f s).
Proof.
  intros Hf (Hlen & Htail & Hws). split; [|split]; cbn; try assumption.
  rewrite Hf. exact Hlen.
Qed.

Lemma within_array_set_writers ws s :
  Forall (fun w => (writer_slot w < Z.to_nat kQueueCapacity)%nat) ws ->
  within_array s -> within_array (set_writers ws s).
Proof. intros Hws' (Hlen & Htail & Hws). split; [|split]; assumption. Qed.

Lemma DoEnqueue_publish_within i src_int item s s' :
  within_array s ->
  after (DoEnqueue_publish sizeof_T value_addr i src_int item s) = Some s' ->
  within_array s'.
Proof.
  intros Hs Hafter. unfold DoEnqueue_publish, Atomics.Exchange in Hafter.
  repeat case_match; simplify_eq/=; apply (within_array_with_node _ _ _ Hs).
Qed.

Lemma DoWriteBlocking_within i my_wait_number s s' :
  within_array s ->
  after (DoWriteBlocking i my_wait_number s) = Some s' ->
  within_array s'.
Proof.
  intros Hs Hafter. unfold DoWriteBlocking in Hafter.
  repeat case_match; simplify_eq/=; exact Hs.
Qed.

Lemma DoEnqueue_within src_int item can_block s s' :
  within_array s ->
  after (DoEnqueue sizeof_T value_addr src_int item can_block s) = Some s' ->
  within_array s'.
Proof.
  intros Hs Hafter. unfold DoEnqueue, Atomics.ExchangeAdd in Hafter.
  set (s1 := with_queue _ s) in Hafter.
  assert (within_array s1) as Hs1 by (apply within_array_with_header; auto).
  clearbody s1.
  destruct (array (queue_ s1) !! _) as [write_at|] eqn:Hnode; [|discriminate].
  unfold Atomics.ExchangeAddWord in Hafter.
  set (s2 := with_node _ _ s1) in Hafter.
  assert (within_array s2) as Hs2 by apply (within_array_with_node _ _ _ Hs1).
  assert (Z.to_nat (Z.land (Word.uint32 (Word.int32 (head_index (queue_ s)))) mask)
          < Z.to_nat kQueueCapacity)%nat as Hslot.
  { apply lookup_lt_Some in Hnode. destruct Hs1 as (Hlen & _).
    rewrite Hlen in Hnode. exact Hnode. }
  clearbody s2.
  destruct can_block.
  - destruct (DoWriteBlocking _ _ s2) as [[] s3|s3| |] eqn:Hwait;
      try discriminate.
    + eapply DoEnqueue_publish_within; [|exact Hafter].
      eapply DoWriteBlocking_within; [exact Hs2|]. rewrite Hwait. reflexivity.
    + cbn in Hafter. injection Hafter as <-.
      assert (within_array s3) as Hs3.
      { eapply DoWriteBlocking_within; [exact Hs2|]. rewrite Hwait.
        reflexivity. }
      apply within_array_set_writers; [|exact Hs3].
      apply Forall_app. split; [apply Hs3|].
      constructor; [exact Hslot | constructor].
  - eapply DoEnqueue_publish_within; eassumption.
Qed.

Lemma resume_writer_within k s s' :
  within_array s ->
  after (resume_writer sizeof_T value_addr k s) = Some s' ->
  within_array s'.
Proof.
  intros Hs Hafter. unfold resume_writer in Hafter.
  destruct (writers s !! k) as [w|] eqn:Hw.
  - set (s1 := set_writers _ s) in Hafter.
    assert (Forall (fun w => (writer_slot w < Z.to_nat kQueueCapacity)%nat)
              (writers s)) as Hws by apply Hs.
    assert (within_array s1) as Hs1.
    { apply within_array_set_writers; [|exact Hs]. apply Forall_delete, Hws. }
    clearbody s1.
    destruct (DoWriteBlocking _ _ s1) as [[] s2|s2| |] eqn:Hwait;
      try discriminate.
    + eapply DoEnqueue_publish_within; [|exact Hafter].
      eapply DoWriteBlocking_within; [exact Hs1|]. rewrite Hwait. reflexivity.
    + cbn in Hafter. injection Hafter as <-.
      assert (within_array s2) as Hs2.
      { eapply DoWriteBlocking_within; [exact Hs1|]. rewrite Hwait.
        reflexivity. }
      apply within_array_set_writers; [|exact Hs2].
      apply Forall_app. split; [apply Hs2|].
      constructor; [|constructor].
      rewrite Forall_lookup in Hws. eapply (Hws k), Hw.
  - cbn in Hafter. injection Hafter as <-. exact Hs.
Qed.

Lemma DoDequeue_within i read_at s :
  within_array s -> within_array (DoDequeue i read_at s).2.
Proof.
  intros Hs. unfold DoDequeue. cbn [snd].
  destruct (within_array_with_node i
              (set_write_waiters
                 (Word.halves (Word.low_half (write_waiters read_at))
                    (Atomics.IncrementWord
                       (Word.high_half (write_waiters read_at)))) read_at)
              s Hs) as (Hlen & _ & Hws).
  split; [exact Hlen|]. split; [apply next_tail_in_bounds | exact Hws].
Qed.

Lemma DequeueNextBlocking_read_within i read_at s s' :
  within_array s ->
  after (DequeueNextBlocking_read i read_at s) = Some s' ->
  within_array s'.
Proof.
  intros Hs Hafter. pose proof (DoDequeue_within i read_at s Hs) as Hd.
  unfold DequeueNextBlocking_read, Atomics.ExchangeAdd in Hafter.
  destruct (DoDequeue i read_at s) as [item s1]. cbn [snd] in Hd.
  repeat case_match; simplify_eq/=;
    apply (within_array_with_header _ _ (fun q => eq_refl) Hd).
Qed.

Lemma DequeueNext_within s s' :
  within_array s -> after (DequeueNext s) = Some s' -> within_array s'.
Proof.
  intros Hs Hafter. unfold DequeueNext, Atomics.CompareExchange in Hafter.
  destruct (array (queue_ s) !! _) as [read_at|]; [|discriminate].
  destruct (valid read_at =? 1).
  - pose proof (DoDequeue_within (Z.to_nat (tail_index_ s))
                  (set_valid 0 read_at) s Hs) as Hd.
    destruct (DoDequeue _ _ s) as [item s1]. cbn [snd] in Hd.
    cbn in Hafter. injection Hafter as <-.
    apply (within_array_with_header _ _ (fun q => eq_refl) Hd).
  - cbn in Hafter. injection Hafter as <-. exact Hs.
Qed.

Lemma DequeueNextBlocking_wait_within i s s' :
  within_array s ->
  after (DequeueNextBlocking_wait i s) = Some s' ->
  within_array s'.
Proof.
  intros Hs Hafter. unfold DequeueNextBlocking_wait, Atomics.Exchange in Hafter.
  destruct (array (queue_ s) !! i) as [read_at|]; [|discriminate].
  destruct (valid read_at =? 2).
  - cbn in Hafter. injection Hafter as <-. exact Hs.
  - eapply DequeueNextBlocking_read_within; [|exact Hafter].
    apply (within_array_with_node i _ _ Hs).
Qed.

Lemma DequeueNextBlocking_within s s' :
  within_array s -> after (DequeueNextBlocking s) = Some s' -> within_array s'.
Proof.
  intros Hs Hafter.
  unfold DequeueNextBlocking, Atomics.CompareExchange, Atomics.Exchange in Hafter.
  destruct (array (queue_ s) !! _) as [read_at|]; [|discriminate].
  destruct (valid read_at =? 1).
  - eapply DequeueNextBlocking_read_within; [|exact Hafter].
    apply (within_array_with_node _ _ _ Hs).
  - destruct (valid read_at =? 0).
    + eapply DequeueNextBlocking_wait_within; [|exact Hafter].
      apply (within_array_with_node _ _ _ Hs).
    + eapply DequeueNextBlocking_read_within; [|exact Hafter].
      apply (within_array_with_node _ _ _ Hs).
Qed.

Lemma perform_within c s s' :
  within_array s ->
  after (perform sizeof_T value_addr c s) = Some s' ->
  within_array s'.
Proof.
  intros Hs Hafter.
  destruct c; cbn [perform] in Hafter; rewrite after_reply_with in Hafter.
  - unfold Enqueue, Reserve, Atomics.ExchangeAdd, EnqueueAt in Hafter.
    destruct (_ >=? _).
    + cbn in Hafter. injection Hafter as <-.
      apply within_array_with_header; auto.
    + destruct (DoEnqueue _ _ _ _ _ _) as [[] s2|s2| |] eqn:Hdo;
        try discriminate; cbn in Hafter; injection Hafter as <-;
        (eapply DoEnqueue_within; [|rewrite Hdo; reflexivity]);
        apply within_array_with_header; auto.
  - unfold EnqueueBlocking in Hafter.
    eapply DoEnqueue_within; [|exact Hafter].
    apply within_array_with_header; auto.
  - eapply DequeueNext_within; eassumption.
  - eapply DequeueNextBlocking_within; eassumption.
  - eapply resume_writer_within; eassumption.
  - eapply DequeueNextBlocking_wait_within; eassumption.
Qed.

Lemma run_in_bounds cs : forall s,
  within_array s -> run sizeof_T value_addr cs s <> OutOfBounds.
Proof.
  induction cs as [|c cs IH]; intros s Hs; cbn [run]; [discriminate|].
  pose proof (perform_in_bounds c s Hs) as Hc.
  pose proof (perform_within c s) as Hw.
  destruct (perform sizeof_T value_addr c s) as [r s1|s1| |];
    [ | |discriminate|congruence].
  - apply reply_with_in_bounds, IH, Hw; [exact Hs | reflexivity].
  - apply IH, Hw; [exact Hs | reflexivity].
Qed.

Lemma DoEnqueue_publish_frame i src_int item s s' j :
  after (DoEnqueue_publish sizeof_T value_addr i src_int item s) = Some s' ->
  j <> i ->
  array (queue_ s') !! j = array (queue_ s) !! j.
Proof.
  unfold DoEnqueue_publish, Atomics.Exchange. intros Hafter Hne.
  repeat case_match; simplify_eq/=; apply list_lookup_insert_ne; congruence.
Qed.

(** [DoEnqueue] writes to the slot of its ticket under the mask and to no
    other. *)
Lemma DoEnqueue_frame src_int item can_block s s' j :
  after (DoEnqueue sizeof_T value_addr src_int item can_block s) = Some s' ->
  j <> Z.to_nat (Z.land (Word.uint32 (head_index (queue_ s))) mask) ->
  array (queue_ s') !! j = array (queue_ s) !! j.
Proof.
  intros Hafter Hne. unfold DoEnqueue, Atomics.ExchangeAdd in Hafter.
  rewrite uint32_int32 in Hafter.
  set (i := Z.to_nat (Z.land (Word.uint32 (head_index (queue_ s))) mask)) in *.
  set (s1 := with_queue _ s) in Hafter.
  assert (array (queue_ s1) = array (queue_ s)) as Harr1 by reflexivity.
  clearbody s1.
  destruct (array (queue_ s1) !! i) as [write_at|]; [|discriminate].
  unfold Atomics.ExchangeAddWord in Hafter.
  set (s2 := with_node _ _ s1) in Hafter.
  assert (array (queue_ s2) !! j = array (queue_ s) !! j) as Harr2.
  { subst s2. cbn. rewrite <- Harr1. apply list_lookup_insert_ne. congruence. }
  clearbody s2.
  destruct can_block.
  - destruct (DoWriteBlocking _ _ s2) as [[] s3|s3| |] eqn:Hwait;
      try discriminate.
    + rewrite (DoEnqueue_publish_frame _ _ _ _ _ _ Hafter Hne).
      erewrite DoWriteBlocking_array by (rewrite Hwait; reflexivity).
      exact Harr2.
    + cbn in Hafter. injection Hafter as <-.
      cbn [queue_ set_writers].
      erewrite DoWriteBlocking_array by (rewrite Hwait; reflexivity).
      exact Harr2.
  - rewrite (DoEnqueue_publish_frame _ _ _ _ _ _ Hafter Hne). exact Harr2.
Qed.

(** *** Runs of the non-blocking interface *)

Lemma run_app cs1 : forall cs2 s rs1 s1,
  run sizeof_T value_addr cs1 s = Returns rs1 s1 ->
  run sizeof_T value_addr (cs1 ++ cs2) s
  = reply_with (app rs1) (run sizeof_T value_addr cs2 s1).
Proof.
  induction cs1 as [|c cs1 IH]; intros cs2 s rs1 s1 Hrun; cbn [run app] in *.
  - injection Hrun as <- <-. destruct (run _ _ cs2 s); reflexivity.
  - destruct (perform _ _ c s) as [r s2|s2| |]; try discriminate.
    + destruct (run _ _ cs1 s2) as [rs s3|s3| |] eqn:Hrest; try discriminate.
      cbn in Hrun. injection Hrun as <- <-.
      rewrite (IH cs2 s2 rs s3 Hrest).
      destruct (run _ _ cs2 s3); reflexivity.
    + apply IH. exact Hrun.
Qed.

Lemma run_enqueues items : forall s E D,
  shape s E D ->
  E - D + Z.of_nat (length items) <= kQueueCapacity ->
  exists s',
    run sizeof_T value_addr (enqueues items) s
    = Returns (replicate (length items) (enqueue_result true)) s'
    /\ shape s' (E + Z.of_nat (length items)) D.
Proof.
  induction items as [|[src_int item] items IH]; intros s E D Hs Hroom;
    cbn [enqueues map length run replicate fst snd] in *.
  - exists s. rewrite Z.add_0_r. split; [reflexivity | exact Hs].
  - destruct (Enqueue_accepts src_int item s E D Hs) as (s1 & Henq & Hs1 & _);
      [lia|].
    destruct (IH s1 (E + 1) D Hs1) as (s' & Hrun & Hs'); [lia|].
    exists s'. cbn [perform]. rewrite Henq. cbn [reply_with].
    fold (enqueues items). rewrite Hrun. cbn [reply_with].
    split; [reflexivity|].
    replace (E + Z.of_nat (S (length items)))
      with (E + 1 + Z.of_nat (length items)) by lia.
    exact Hs'.
Qed.

Lemma run_rounds n src_int item : forall s E,
  shape s E E ->
  exists rs s',
    run sizeof_T value_addr (rounds n src_int item) s = Returns rs s'
    /\ shape s' (E + Z.of_nat n) (E + Z.of_nat n).
Proof.
  pose proof capacity_eq as HC.
  induction n as [|n IH]; intros s E Hs; cbn [rounds run].
  - exists [], s. rewrite Z.add_0_r. split; [reflexivity | exact Hs].
  - destruct (Enqueue_accepts src_int item s E E Hs) as (s1 & Henq & Hs1 & _);
      [lia|].
    destruct (DequeueNext_delivers s1 (E + 1) E Hs1) as (x & s2 & Hdeq & Hs2 & _);
      [lia|].
    destruct (IH s2 (E + 1) Hs2) as (rs & s' & Hrun & Hs').
    cbn [perform]. rewrite Henq. cbn [reply_with].
    rewrite Hdeq. cbn [reply_with]. rewrite Hrun. cbn [reply_with].
    eexists _, s'. split; [reflexivity|].
    replace (E + Z.of_nat (S n)) with (E + 1 + Z.of_nat n) by lia.
    exact Hs'.
Qed.

Lemma run_nonblocking cs : forall s E D hist,
  copies_whole sizeof_T = true ->
  shape s E D ->
  content sizeof_T s E D hist ->
  Forall (nonblocking sizeof_T) cs ->
  exists rs s' E' D',
    run sizeof_T value_addr cs s = Returns rs s'
    /\ length rs = length cs
    /\ shape s' E' D'
    /\ content sizeof_T s' E' D' (hist ++ accepted cs rs)
    /\ D <= D'
    /\ take (Z.to_nat D') (hist ++ accepted cs rs)
       = take (Z.to_nat D) hist ++ delivered rs.
Proof.
  pose proof capacity_eq as HC.
  induction cs as [|c cs IH]; intros s E D hist Hwhole Hs Hc Hcs.
  - exists [], s, E, D. cbn. rewrite !app_nil_r.
    split_and!; try assumption; try reflexivity; try lia.
  - apply Forall_cons in Hcs as [Hcall Hcs].
    pose proof (shape_window _ _ _ Hs) as Hwin.
    pose proof (content_hist _ _ _ _ _ Hc) as Hlen.
    destruct c as [src_int item|? ?| | | |]; cbn in Hcall; try contradiction.
    + destruct (decide (E - D < kQueueCapacity)) as [Hroom|Hfull].
      * destruct (Enqueue_accepts src_int item s E D Hs Hroom)
          as (s1 & Henq & Hs1 & Hc1).
        specialize (Hc1 hist Hc Hcall Hwhole).
        destruct (IH s1 (E + 1) D (hist ++ [item]) Hwhole Hs1 Hc1 Hcs)
          as (rs & s' & E' & D' & Hrun & Hrs & Hs' & Hc' & HD & Htake).
        exists (enqueue_result true :: rs), s', E', D'.
        cbn [run perform]. rewrite Henq. cbn [reply_with]. rewrite Hrun.
        cbn [reply_with accepted delivered length].
        rewrite <- app_assoc in Hc', Htake. cbn [app] in Hc', Htake.
        rewrite (take_app_le hist [item]) in Htake by lia.
        split_and!; try assumption; try reflexivity; try lia.
      * destruct (IH s E D hist Hwhole Hs Hc Hcs)
          as (rs & s' & E' & D' & Hrun & Hrs & Hs' & Hc' & HD & Htake).
        exists (enqueue_result false :: rs), s', E', D'.
        cbn [run perform].
        rewrite (Enqueue_rejects src_int item s E D Hs ltac:(lia)).
        cbn [reply_with]. rewrite Hrun.
        cbn [reply_with accepted delivered length].
        split_and!; try assumption; try reflexivity; try lia.
    + destruct (decide (D < E)) as [Hsome|Hnone].
      * destruct (DequeueNext_delivers s E D Hs Hsome)
          as (x & s1 & Hdeq & Hs1 & Hc1).
        destruct (Hc1 hist Hc) as [Hx Hc1'].
        destruct (IH s1 E (D + 1) hist Hwhole Hs1 Hc1' Hcs)
          as (rs & s' & E' & D' & Hrun & Hrs & Hs' & Hc' & HD & Htake).
        exists (dequeue_result (Some x) :: rs), s', E', D'.
        cbn [run perform]. rewrite Hdeq. cbn [reply_with]. rewrite Hrun.
        cbn [reply_with accepted delivered length].
        replace (Z.to_nat (D + 1)) with (S (Z.to_nat D)) in Htake by lia.
        rewrite (take_S_r _ _ _ Hx), <- app_assoc in Htake.
        split_and!; try assumption; try reflexivity; try lia.
      * assert (E = D) as -> by lia.
        destruct (IH s D D hist Hwhole Hs Hc Hcs)
          as (rs & s' & E' & D' & Hrun & Hrs & Hs' & Hc' & HD & Htake).
        exists (dequeue_result None :: rs), s', E', D'.
        cbn [run perform]. rewrite (DequeueNext_nothing s D Hs).
        cbn [reply_with]. rewrite Hrun.
        cbn [reply_with accepted delivered length].
        split_and!; try assumption; try reflexivity; try lia.
Qed.

Lemma run_nonblocking_shape cs : forall s E D,
  shape s E D ->
  Forall (nonblocking sizeof_T) cs ->
  exists rs s' E' D',
    run sizeof_T value_addr cs s = Returns rs s' /\ shape s' E' D'.
Proof.
  induction cs as [|c cs IH]; intros s E D Hs Hcs.
  - exists [], s, E, D. split; [reflexivity | exact Hs].
  - apply Forall_cons in Hcs as [Hcall Hcs].
    pose proof (shape_window _ _ _ Hs) as Hwin.
    destruct c as [src_int item|? ?| | | |]; cbn in Hcall; try contradiction;
      cbn [run perform].
    + destruct (decide (E - D < kQueueCapacity)) as [Hroom|Hfull].
      * destruct (Enqueue_accepts src_int item s E D Hs Hroom)
          as (s1 & Henq & Hs1 & _).
        destruct (IH s1 _ _ Hs1 Hcs) as (rs & s' & E' & D' & Hrun & Hs').
        rewrite Henq. cbn [reply_with]. rewrite Hrun. cbn [reply_with].
        eauto 10.
      * rewrite (Enqueue_rejects src_int item s E D Hs) by lia.
        destruct (IH s _ _ Hs Hcs) as (rs & s' & E' & D' & Hrun & Hs').
        cbn [reply_with]. rewrite Hrun. cbn [reply_with]. eauto 10.
    + destruct (decide (D < E)) as [Hsome|Hnone].
      * destruct (DequeueNext_delivers s E D Hs Hsome)
          as (x & s1 & Hdeq & Hs1 & _).
        destruct (IH s1 _ _ Hs1 Hcs) as (rs & s' & E' & D' & Hrun & Hs').
        rewrite Hdeq. cbn [reply_with]. rewrite Hrun. cbn [reply_with].
        eauto 10.
      * assert (E = D) as -> by lia.
        rewrite (DequeueNext_nothing s D Hs).
        destruct (IH s _ _ Hs Hcs) as (rs & s' & E' & D' & Hrun & Hs').
        cbn [reply_with]. rewrite Hrun. cbn [reply_with]. eauto 10.
Qed.

Lemma MpscQueue_returns raw :
  exists s, MpscQueue (Some raw) = Returns tt s.
Proof. eexists. reflexivity. Qed.

Lemma reply_with_Returns {St A B : Type} (f : A -> B) (o : outcome St A) r s :
  reply_with f o = Returns r s -> exists a, o = Returns a s /\ r = f a.
Proof.
  destruct o as [a s1|s1| |]; cbn; try discriminate.
  intros H. injection H as <- <-. exists a. split; reflexivity.
Qed.


(** *** The blocking enqueue *)

(** [EnqueueBlocking] up to the wait: the length is raised, the head ticket
    and the wait number are taken. *)
Lemma EnqueueBlocking_ticket src_int item s node :
  0 <= write_length (queue_ s) <= kQueueCapacity ->
  0 <= head_index (queue_ s) < kQueueCapacity ->
  array (queue_ s) !! Z.to_nat (head_index (queue_ s)) = Some node ->
  let i := Z.to_nat (head_index (queue_ s)) in
  let my_wait_number := Word.uint16 (Word.low_half (write_waiters node)) in
  let counters :=
    Word.halves (Word.low_half (write_waiters node) + 1)
      (Word.high_half (write_waiters node)) in
  let s2 :=
    with_node i (set_write_waiters counters node)
      (with_queue
         (fun q =>
            set_head_index ((head_index q + 1) mod kQueueCapacity)
              (set_write_length (write_length q + 1) q)) s) in
  EnqueueBlocking sizeof_T value_addr src_int item s
  = if keeps_waiting (Z.land my_wait_number 32767) counters
    then
      Sleeps
        (set_writers
           (writers s ++
            [{| writer_slot := i; writer_wait_number := my_wait_number;
                writer_src := src_int; writer_item := item |}])
           (log (FUTEX_WAIT (node_write_waiters i) counters) s2))
    else DoEnqueue_publish sizeof_T value_addr i src_int item s2.
Proof.
  intros Hw Hh Hnode. cbv zeta.
  pose proof capacity_eq as HC.
  unfold EnqueueBlocking, DoEnqueue, Atomics.Increment, Atomics.ExchangeAdd,
    Atomics.BitwiseAnd.
  cbn [with_queue queue_ set_write_length head_index array].
  rewrite int32_small, !uint32_small by lia.
  rewrite !land_mask. rewrite (Z.mod_small (head_index (queue_ s))) by exact Hh.
  cbn [array set_head_index set_write_length].
  rewrite Hnode.
  unfold Atomics.ExchangeAddWord. rewrite halves_uint16_l.
  unfold DoWriteBlocking. rewrite lookup_with_node
    by (cbn; apply lookup_lt_Some in Hnode; exact Hnode).
  cbn [write_waiters set_write_waiters].
  destruct (keeps_waiting _ _); reflexivity.
Qed.

Lemma uint16_idem x : Word.uint16 (Word.uint16 x) = Word.uint16 x.
Proof. unfold Word.uint16. apply Z.mod_mod. lia. Qed.

Lemma DoEnqueue_publish_live i src_int item s write_at :
  array (queue_ s) !! i = Some write_at ->
  valid write_at = 1 ->
  DoEnqueue_publish sizeof_T value_addr i src_int item s
  = Fatal "Attempt to overwrite existing space!"%string.
Proof.
  intros Hnode Hvalid. unfold DoEnqueue_publish. rewrite Hnode.
  unfold Atomics.Exchange. rewrite Hvalid. reflexivity.
Qed.

(** On a full queue the producer's slot is live: the call must sleep, and
    when the wait condition lets it through it trips the [assert]. *)
Lemma EnqueueBlocking_full src_int item s E D :
  shape s E D ->
  E - D = kQueueCapacity ->
  let i := E mod kQueueCapacity in
  keeps_waiting (Z.land (Word.uint16 (laps E i)) 32767)
    (Word.halves (laps E i + 1) (laps D i)) = false ->
  EnqueueBlocking sizeof_T value_addr src_int item s
  = Fatal "Attempt to overwrite existing space!"%string.
Proof.
  intros Hs Hfull i Hgo. pose proof capacity_eq as HC.
  pose proof (ring_index E) as Hi.
  destruct (shape_lookup s E D i Hs Hi) as (node & Hnode & Hv & Hww).
  rewrite occupied_full in Hv by exact Hfull.
  destruct Hs as [Hwin Harr Hwl Hhead Htail Hnodes].
  rewrite (EnqueueBlocking_ticket src_int item s node);
    rewrite ?Hwl, ?Hhead; try lia; try exact Hnode.
  rewrite Hww, low_half_halves, high_half_halves, uint16_idem, halves_succ_l.
  fold i. rewrite Hgo.
  apply DoEnqueue_publish_live with (write_at :=
    set_write_waiters (Word.halves (laps E i + 1) (laps D i)) node).
  - apply lookup_with_node. cbn. apply lookup_lt_Some in Hnode. exact Hnode.
  - exact Hv.
Qed.

(** ** Properties of the queue, from a new queue on *)

(** X1.  Producers and one consumer make any sequence of [Enqueue] and
    [DequeueNext] calls on a new queue, on items of a size the copy is exact
    on (below 8 bytes, or a multiple of 8).  Every call returns; the values
    the successful dequeues return are the values the successful enqueues
    were given, in the same order, up to the values still stored, which lie
    in the slots from [tail_index_] on; the run may be of any length, so the
    indices wrap. *)
Theorem fifo_single_producer_single_consumer raw cs :
  copies_whole sizeof_T = true ->
  raw_block sizeof_T raw ->
  Forall (nonblocking sizeof_T) cs ->
  exists s rs s' rest,
    MpscQueue (Some raw) = Returns tt s
    /\ run sizeof_T value_addr cs s = Returns rs s'
    /\ length rs = length cs
    /\ accepted cs rs = delivered rs ++ rest
    /\ Z.of_nat (length rest) = write_length (queue_ s')
    /\ forall (k : nat) x,
         rest !! k = Some x ->
         exists node,
           array (queue_ s')
             !! Z.to_nat ((tail_index_ s' + Z.of_nat k) mod kQueueCapacity)
           = Some node
           /\ value node = x.
Proof.
  intros Hwhole Hraw Hcs.
  destruct (MpscQueue_returns raw) as [s Hnew].
  destruct (MpscQueue_shape raw s Hraw Hnew) as [Hs Hc].
  destruct (run_nonblocking cs s 0 0 [] Hwhole Hs Hc Hcs)
    as (rs & s' & E' & D' & Hrun & Hrs & Hs' & Hc' & HD & Htake).
  cbn [app take] in Hc', Htake. rewrite take_0 in Htake. cbn [app] in Htake.
  pose proof (shape_window _ _ _ Hs') as Hwin.
  pose proof (content_hist _ _ _ _ _ Hc') as Hlen.
  exists s, rs, s', (drop (Z.to_nat D') (accepted cs rs)).
  split_and!; try assumption.
  - rewrite <- Htake. symmetry. apply take_drop.
  - rewrite length_drop, (shape_write_length _ _ _ Hs'). lia.
  - intros k x Hx. rewrite lookup_drop in Hx.
    assert (D' <= Z.of_nat (Z.to_nat D' + k)) as Hk by lia.
    destruct (content_values _ _ _ _ _ Hc' _ _ Hk Hx) as (node & Hnode & Hval).
    exists node. split; [|exact Hval].
    rewrite (shape_tail _ _ _ Hs'), Zplus_mod_idemp_l.
    replace (D' + Z.of_nat k) with (Z.of_nat (Z.to_nat D' + k)) by lia.
    exact Hnode.
Qed.

(** C2.  A queue that a run of the non-blocking interface has left empty
    takes [kQueueCapacity] enqueues, each returning true; on the next one the
    fetch-add sees a length that is not below the capacity, the decrement
    undoes it and the call returns false with nothing changed; after one
    successful [DequeueNext] an enqueue returns true again. *)
Theorem full_queue_rejects_until_dequeued raw cs items src_int item :
  raw_block sizeof_T raw ->
  Forall (nonblocking sizeof_T) cs ->
  length items = Z.to_nat kQueueCapacity ->
  exists s0 rs s,
    MpscQueue (Some raw) = Returns tt s0
    /\ run sizeof_T value_addr cs s0 = Returns rs s
    /\ (write_length (queue_ s) = 0 ->
        exists s1,
          run sizeof_T value_addr (enqueues items) s
          = Returns (replicate (length items) (enqueue_result true)) s1
          /\ fst (Atomics.ExchangeAdd (write_length (queue_ s1)) 1)
             >= kQueueCapacity
          /\ Atomics.Decrement
               (snd (Atomics.ExchangeAdd (write_length (queue_ s1)) 1))
             = write_length (queue_ s1)
          /\ Reserve s1 = (false, s1)
          /\ Enqueue sizeof_T value_addr src_int item s1 = Returns false s1
          /\ exists x s2 s3,
               DequeueNext s1 = Returns (Some x) s2
               /\ Enqueue sizeof_T value_addr src_int item s2
                  = Returns true s3).
Proof.
  intros Hraw Hcs Hitems. pose proof capacity_eq as HC.
  destruct (MpscQueue_returns raw) as [s0 Hnew].
  destruct (MpscQueue_shape raw s0 Hraw Hnew) as [Hs0 _].
  destruct (run_nonblocking_shape cs s0 0 0 Hs0 Hcs)
    as (rs & s & E & D & Hrun & Hs).
  exists s0, rs, s. split_and!; try assumption.
  intros Hempty.
  rewrite (shape_write_length _ _ _ Hs) in Hempty.
  assert (E = D) as -> by lia.
  destruct (run_enqueues items s D D Hs) as (s1 & Hfill & Hs1); [lia|].
  exists s1.
  pose proof (shape_write_length _ _ _ Hs1) as Hwl.
  assert (write_length (queue_ s1) = kQueueCapacity) as Hfull by lia.
  split_and!.
  - exact Hfill.
  - rewrite Hfull. vm_compute. discriminate.
  - rewrite Hfull. reflexivity.
  - apply Reserve_full, Hfull.
  - apply Enqueue_full, Hfull.
  - destruct (DequeueNext_delivers s1 _ _ Hs1) as (x & s2 & Hdeq & Hs2 & _);
      [lia|].
    destruct (Enqueue_accepts src_int item s2 _ _ Hs2) as (s3 & Henq & _);
      [lia|].
    exists x, s2, s3. split; assumption.
Qed.

(** C6.  In every system the threads can bring about, each slot's [valid]
    is 0, 1 or 2, and every further operation keeps it so; while the consumer
    is not asleep no slot is 2; and when [DequeueNextBlocking] returns,
    whether at once or after the consumer slept, the slot it read is 0 and no
    slot is 2. *)
Theorem valid_stays_in_range s :
  reachable sizeof_T value_addr s ->
  (forall (i : nat) node,
      array (queue_ s) !! i = Some node ->
      valid node = 0 \/ valid node = 1 \/ valid node = 2)
  /\ (reader_asleep s = false ->
      forall (i : nat) node,
        array (queue_ s) !! i = Some node -> valid node <> 2)
  /\ (forall c s',
        admissible sizeof_T s c ->
        after (perform sizeof_T value_addr c s) = Some s' ->
        forall (i : nat) node,
          array (queue_ s') !! i = Some node ->
          valid node = 0 \/ valid node = 1 \/ valid node = 2)
  /\ (forall c item s',
        c = call_DequeueNextBlocking \/ c = wake_reader ->
        admissible sizeof_T s c ->
        perform sizeof_T value_addr c s = Returns (dequeue_done item) s' ->
        (exists node,
            array (queue_ s') !! Z.to_nat (tail_index_ s) = Some node
            /\ valid node = 0)
        /\ forall (i : nat) node,
             array (queue_ s') !! i = Some node -> valid node <> 2).
Proof.
  intros Hreach. pose proof (reachable_consistent s Hreach) as Hs.
  assert (forall s1, consistent s1 ->
            forall (i : nat) node,
              array (queue_ s1) !! i = Some node ->
              valid node = 0 \/ valid node = 1 \/ valid node = 2) as Hrange.
  { intros s1 Hs1 i node Hnode.
    destruct (consistent_valid _ Hs1 _ _ Hnode) as [H|[H|[H _]]]; auto. }
  assert (forall s1, consistent s1 -> reader_asleep s1 = false ->
            forall (i : nat) node,
              array (queue_ s1) !! i = Some node -> valid node <> 2) as Hno2.
  { intros s1 Hs1 Hawake i node Hnode.
    destruct (consistent_unmarked_nodes s1 Hs1 Hawake i node Hnode); lia. }
  split_and!.
  - apply Hrange, Hs.
  - apply Hno2, Hs.
  - intros c s' Hadm Hafter. apply Hrange.
    eapply perform_consistent; eassumption.
  - intros c item s' Hc Hadm Hret.
    assert (after (perform sizeof_T value_addr c s) = Some s') as Hafter
      by (rewrite Hret; reflexivity).
    destruct Hc as [-> | ->]; cbn [perform admissible] in *;
      rewrite after_reply_with in Hafter;
      apply reply_with_Returns in Hret as (item' & Hret & _).
    + pose proof (DequeueNextBlocking_awake s s' item' Hadm Hret) as Hawake.
      destruct (DequeueNextBlocking_consistent s s' Hs Hadm Hafter)
        as [Hs' Hslot].
      split; [apply Hslot, Hawake | apply Hno2; assumption].
    + pose proof (DequeueNextBlocking_wait_awake _ s s' item' Hret) as Hawake.
      destruct (resume_reader_consistent s s' Hs Hafter) as [Hs' Hslot].
      split; [apply Hslot, Hawake | apply Hno2; assumption].
Qed.

(** C7.  When the slot at [tail_index_] is not published, [DequeueNext]
    returns false and leaves the system as it found it: the length, the two
    indices and every word of every slot keep their values. *)
Theorem DequeueNext_empty_changes_nothing s read_at :
  array (queue_ s) !! Z.to_nat (tail_index_ s) = Some read_at ->
  valid read_at <> 1 ->
  DequeueNext s = Returns None s.
Proof. apply DequeueNext_empty. Qed.

(** X15.  Given any block of the size of a [RawQueue], whatever it held,
    the constructor returns a queue whose [write_length], [head_index] and
    [tail_index_] are 0 and whose slots all have [valid] and [write_waiters]
    0; the new queue returns false to a dequeue, unchanged, and true to
    [kQueueCapacity] enqueues in a row. *)
Theorem new_queue_is_empty raw items :
  raw_block sizeof_T raw ->
  length items = Z.to_nat kQueueCapacity ->
  exists s,
    MpscQueue (Some raw) = Returns tt s
    /\ write_length (queue_ s) = 0
    /\ head_index (queue_ s) = 0
    /\ tail_index_ s = 0
    /\ length (array (queue_ s)) = Z.to_nat kQueueCapacity
    /\ (forall (i : nat) node,
          array (queue_ s) !! i = Some node ->
          valid node = 0 /\ write_waiters node = 0)
    /\ DequeueNext s = Returns None s
    /\ exists s',
         run sizeof_T value_addr (enqueues items) s
         = Returns (replicate (length items) (enqueue_result true)) s'.
Proof.
  intros Hraw Hitems. pose proof capacity_eq as HC.
  destruct (MpscQueue_returns raw) as [s Hnew].
  destruct (MpscQueue_shape raw s Hraw Hnew) as [Hs _].
  exists s. split; [exact Hnew|].
  pose proof (shape_write_length _ _ _ Hs) as Hwl.
  pose proof (shape_head _ _ _ Hs) as Hhead.
  pose proof (shape_tail _ _ _ Hs) as Htail.
  split_and!.
  - lia.
  - rewrite Hhead. reflexivity.
  - rewrite Htail. reflexivity.
  - apply (shape_array _ _ _ Hs).
  - intros i node Hnode.
    destruct (shape_nodes _ _ _ Hs i node Hnode) as [Hv Hww].
    rewrite occupied_none in Hv. split; [exact Hv|].
    assert (0 <= Z.of_nat i < kQueueCapacity) as Hi.
    { apply lookup_lt_Some in Hnode. rewrite (shape_array _ _ _ Hs) in Hnode.
      lia. }
    rewrite Hww. unfold laps. rewrite HC, Z.mod_0_l, Z.div_0_l by lia.
    destruct (Z.ltb_spec (Z.of_nat i) 0); [lia | reflexivity].
  - apply DequeueNext_nothing with (D := 0). exact Hs.
  - destruct (run_enqueues items s 0 0 Hs) as (s' & Hrun & _); [lia|].
    exists s'. exact Hrun.
Qed.

(** C10.  Whatever the shared [head_index] holds, masked or not, an enqueue
    indexes the array with its own ticket under the mask
    [kQueueCapacity - 1], which lies in the array, and writes to no other
    slot.  As long as the consumer's [tail_index_] and the slots of the
    sleeping producers lie in the array, no operation indexes the array out
    of bounds and each leaves them in the array, [tail_index_] being masked
    after its advance; so no run of operations does, however long.  A new
    queue starts that way, and so does every system the threads can bring
    about. *)
Theorem slot_indices_in_bounds s c :
  within_array s ->
  perform sizeof_T value_addr c s <> OutOfBounds
  /\ (forall s',
        after (perform sizeof_T value_addr c s) = Some s' -> within_array s')
  /\ (forall cs, run sizeof_T value_addr cs s <> OutOfBounds)
  /\ (forall src_int item can_block s',
        after (DoEnqueue sizeof_T value_addr src_int item can_block s) = Some s' ->
        let i := Z.to_nat (Z.land (Word.uint32 (head_index (queue_ s))) mask) in
        (i < Z.to_nat kQueueCapacity)%nat
        /\ forall j, j <> i -> array (queue_ s') !! j = array (queue_ s) !! j)
  /\ (forall i read_at,
        0 <= tail_index_ (snd (DoDequeue i read_at s)) < kQueueCapacity)
  /\ (forall s0, reachable sizeof_T value_addr s0 -> within_array s0)
  /\ mask = kQueueCapacity - 1.
Proof.
  intros Hs.
  refine (conj _ (conj _ (conj _ (conj _ (conj _ (conj _ eq_refl)))))).
  - apply perform_in_bounds, Hs.
  - intros s'. apply perform_within, Hs.
  - intros cs. apply run_in_bounds, Hs.
  - intros src_int item can_block s' Hafter i. split.
    + pose proof (mask_in_bounds (head_index (queue_ s))). subst i. lia.
    + intros j Hne. eapply DoEnqueue_frame; eassumption.
  - intros i read_at. apply next_tail_in_bounds.
  - intros s0 Hreach. apply consistent_within_array, reachable_consistent, Hreach.
Qed.

End QueueFacts.

(** ** Properties on closed inputs *)

Lemma used_block_raw n : raw_block n (used_block n).
Proof.
  split; [reflexivity|]. apply Forall_replicate. cbn. apply length_replicate.
Qed.

(** C1.  With 12-byte elements at 4-byte aligned addresses the values
    two successful dequeues return are not the values the two successful
    enqueues were given: each comes back with the last four bytes the slot
    held before. *)
Theorem dequeued_values_differ_from_enqueued :
  exists s rs s',
    MpscQueue (Some (used_block 12)) = Returns tt s
    /\ run 12 (node_at 4096 20) twelve_byte_run s = Returns rs s'
    /\ accepted twelve_byte_run rs = [item12; item12']
    /\ delivered rs
       = [take 8 item12 ++ replicate 4 xff; take 8 item12' ++ replicate 4 xff]
    /\ delivered rs <> accepted twelve_byte_run rs.
Proof.
  eexists. eexists. eexists. split; [reflexivity|].
  split; [vm_compute; reflexivity|].
  repeat split; discriminate.
Qed.

(** C3.  A 12-byte element whose source and slot are 4-byte aligned does not
    come back as it went in: [VolatileCopy] copies the first eight bytes as
    one 64-bit word and then the first four bytes once more, so the last four
    bytes of the slot keep what they held. *)
Theorem twelve_byte_round_trip_loses_tail :
  exists s s',
    MpscQueue (Some (used_block 12)) = Returns tt s
    /\ run 12 (node_at 4096 20) [call_Enqueue 1024 item12; call_DequeueNext] s
       = Returns
           [enqueue_result true;
            dequeue_result (Some (take 8 item12 ++ replicate 4 xff))] s'
    /\ take 8 item12 ++ replicate 4 xff <> item12.
Proof.
  eexists. eexists. split; [reflexivity|]. split; [|discriminate].
  vm_compute. reflexivity.
Qed.

(** C4.  On a word with bit 15 and bit 31 both set the two parity bits are
    equal, yet the flag the code computes is true: it compares
    [w & (1 << 15)] with [w & (1 << 31)], which are 0x8000 and 0x80000000.
    A writer with ticket 1 that sees such a word with woken counter 0 goes on
    where the stated condition has it wait. *)
Theorem inverted_when_both_parity_bits_set :
  Z.testbit 2147516416 15 = Z.testbit 2147516416 31
  /\ inverted 2147516416 = true
  /\ inverted_spec 2147516416 = false
  /\ woken_counter 2147516418 = 0
  /\ keeps_waiting 1 2147516418 = false
  /\ keeps_waiting_spec 1 2147516418 = true.
Proof. repeat split; vm_compute; reflexivity. Qed.

(** C5.  One producer and one consumer, from a new queue: 32766 * 64 rounds
    of [Enqueue] and [DequeueNext], 64 enqueues that fill the queue, then one
    [EnqueueBlocking].  Its slot holds a live element, its ticket is 0x7FFF
    and the woken counter is 0x7FFE with the taken counter's parity bit just
    flipped, so the wait condition lets it through and the exchange on
    [valid] returns 1: the [assert] fails. *)
Theorem blocking_enqueue_overwrites_live_slot :
  exists s,
    MpscQueue (Some (used_block 8)) = Returns tt s
    /\ run 8 (node_at 4096 16)
         (rounds (Z.to_nat 2097024) 1024 item8
          ++ enqueues (replicate 64 (1024, item8))
          ++ [call_EnqueueBlocking 1024 item8]) s
       = Fatal "Attempt to overwrite existing space!"%string.
Proof.
  destruct (MpscQueue_returns (used_block 8)) as [s Hnew].
  exists s. split; [exact Hnew|].
  destruct (MpscQueue_shape 8 (used_block 8) s (used_block_raw 8) Hnew)
    as [Hs _].
  destruct (run_rounds 8 (node_at 4096 16) (Z.to_nat 2097024) 1024 item8 s 0 Hs)
    as (rs1 & s1 & Hrun1 & Hs1).
  rewrite Z2Nat.id in Hs1 by lia.
  destruct (run_enqueues 8 (node_at 4096 16) (replicate 64 (1024, item8))
              s1 _ _ Hs1) as (s2 & Hrun2 & Hs2).
  { rewrite length_replicate. vm_compute. discriminate. }
  rewrite length_replicate in Hrun2, Hs2.
  rewrite (run_app 8 (node_at 4096 16) _ _ _ _ _ Hrun1).
  rewrite (run_app 8 (node_at 4096 16) _ _ _ _ _ Hrun2).
  cbn [run perform].
  rewrite (EnqueueBlocking_full 8 (node_at 4096 16) 1024 item8 s2 _ _ Hs2);
    reflexivity.
Qed.


(** C9.  [MutexRelease] on a mutex in state 1 puts it in state 0 and makes
    no system call; in state 2 it puts it in state 0 and issues one
    [FUTEX_WAKE] for one waiter, which takes one thread off the sleepers if
    there is one; in any other state the [assert] fails. *)
Theorem MutexRelease_by_state w :
  (state (mutex w) = 1 ->
   MutexRelease w
   = Returns tt {| mutex := {| state := 0 |};
                   mutex_sleeping := mutex_sleeping w;
                   mutex_syscalls := mutex_syscalls w |})
  /\ (state (mutex w) = 2 ->
      MutexRelease w
      = Returns tt {| mutex := {| state := 0 |};
                      mutex_sleeping := (mutex_sleeping w - 1)%nat;
                      mutex_syscalls :=
                        mutex_syscalls w ++ [FUTEX_WAKE mutex_state 1] |})
  /\ (state (mutex w) <> 1 -> state (mutex w) <> 2 ->
      MutexRelease w = Fatal "Double-releasing lock?"%string).
Proof.
  unfold MutexRelease, Atomics.CompareExchange.
  split_and!.
  - intros ->. reflexivity.
  - intros ->. cbn [Z.eqb Pos.eqb]. rewrite FutexWake_one.
    replace (mutex_sleeping w - Z.to_nat (Z.min (Z.of_nat (mutex_sleeping w)) 1))%nat
      with (mutex_sleeping w - 1)%nat by lia.
    reflexivity.
  - intros H1 H2.
    destruct (Z.eqb_spec (state (mutex w)) 1); [contradiction|].
    destruct (Z.eqb_spec (state (mutex w)) 2); [contradiction|].
    reflexivity.
Qed.

(** ** The theorems at work on the example data *)

Lemma fifo_single_producer_single_consumer_witness :
  copies_whole 8 = true
  /\ exists s rs s' rest,
       MpscQueue (Some (used_block 8)) = Returns tt s
       /\ run 8 (node_at 4096 16) short_run s = Returns rs s'
       /\ length rs = length short_run
       /\ accepted short_run rs = delivered rs ++ rest
       /\ Z.of_nat (length rest) = write_length (queue_ s')
       /\ forall (k : nat) x,
            rest !! k = Some x ->
            exists node,
              array (queue_ s')
                !! Z.to_nat ((tail_index_ s' + Z.of_nat k) mod kQueueCapacity)
              = Some node
              /\ value node = x.
Proof.
  split; [reflexivity|].
  apply (fifo_single_producer_single_consumer 8 (node_at 4096 16)
           (used_block 8) short_run).
  - reflexivity.
  - apply used_block_raw.
  - repeat constructor.
Defined.

Lemma full_queue_rejects_until_dequeued_witness :
  exists s0 rs s,
    MpscQueue (Some (used_block 8)) = Returns tt s0
    /\ run 8 (node_at 4096 16) short_run s0 = Returns rs s
    /\ (write_length (queue_ s) = 0 ->
        exists s1,
          run 8 (node_at 4096 16) (enqueues (replicate 64 (1024, item8))) s
          = Returns
              (replicate (length (replicate 64 (1024, item8)))
                 (enqueue_result true)) s1
          /\ fst (Atomics.ExchangeAdd (write_length (queue_ s1)) 1)
             >= kQueueCapacity
          /\ Atomics.Decrement
               (snd (Atomics.ExchangeAdd (write_length (queue_ s1)) 1))
             = write_length (queue_ s1)
          /\ Reserve s1 = (false, s1)
          /\ Enqueue 8 (node_at 4096 16) 1024 item8 s1 = Returns false s1
          /\ exists x s2 s3,
               DequeueNext s1 = Returns (Some x) s2
               /\ Enqueue 8 (node_at 4096 16) 1024 item8 s2 = Returns true s3).
Proof.
  apply (full_queue_rejects_until_dequeued 8 (node_at 4096 16)
           (used_block 8) short_run (replicate 64 (1024, item8)) 1024 item8).
  - apply used_block_raw.
  - repeat constructor.
  - reflexivity.
Defined.

Lemma valid_stays_in_range_witness :
  exists s,
    MpscQueue (Some (used_block 8)) = Returns tt s
    /\ (forall (i : nat) node,
          array (queue_ s) !! i = Some node ->
          valid node = 0 \/ valid node = 1 \/ valid node = 2)
    /\ (reader_asleep s = false ->
        forall (i : nat) node,
          array (queue_ s) !! i = Some node -> valid node <> 2).
Proof.
  eexists. split; [reflexivity|].
  refine (let H := valid_stays_in_range 8 (node_at 4096 16) _ _ in
          conj (proj1 H) (proj1 (proj2 H))).
  eapply reachable_new; [apply (used_block_raw 8) | reflexivity].
Defined.

Lemma DequeueNext_empty_changes_nothing_witness :
  exists s,
    MpscQueue (Some (used_block 8)) = Returns tt s
    /\ DequeueNext s = Returns None s.
Proof.
  eexists. split; [reflexivity|].
  eapply DequeueNext_empty_changes_nothing; [reflexivity|].
  vm_compute. discriminate.
Defined.

Lemma new_queue_is_empty_witness :
  exists s,
    MpscQueue (Some (used_block 8)) = Returns tt s
    /\ write_length (queue_ s) = 0
    /\ head_index (queue_ s) = 0
    /\ tail_index_ s = 0
    /\ length (array (queue_ s)) = Z.to_nat kQueueCapacity
    /\ (forall (i : nat) node,
          array (queue_ s) !! i = Some node ->
          valid node = 0 /\ write_waiters node = 0)
    /\ DequeueNext s = Returns None s
    /\ exists s',
         run 8 (node_at 4096 16) (enqueues (replicate 64 (1024, item8))) s
         = Returns
             (replicate (length (replicate 64 (1024, item8)))
                (enqueue_result true)) s'.
Proof.
  apply (new_queue_is_empty 8 (node_at 4096 16) (used_block 8)
           (replicate 64 (1024, item8))).
  - apply used_block_raw.
  - reflexivity.
Defined.

Lemma slot_indices_in_bounds_witness :
  within_array head_not_masked
  /\ head_index (queue_ head_not_masked) = kQueueCapacity
  /\ perform 8 (node_at 4096 16) (call_Enqueue 1024 item8) head_not_masked
     <> OutOfBounds.
Proof.
  assert (within_array head_not_masked) as Hs.
  { split; [reflexivity|]. split; [vm_compute|constructor].
    split; [discriminate | reflexivity]. }
  split; [exact Hs|]. split; [reflexivity|].
  apply (slot_indices_in_bounds 8 (node_at 4096 16) head_not_masked
           (call_Enqueue 1024 item8) Hs).
Defined.

(** ** The deli ticket of [DoWriteBlocking] *)

Lemma land_bit w n :
  0 <= n -> Z.land w (2 ^ n) = if Z.testbit w n then 2 ^ n else 0.
Proof.
  intros Hn. apply Z.bits_inj'. intros m Hm.
  rewrite Z.land_spec, Z.pow2_bits_eqb by exact Hn.
  destruct (Z.eqb_spec n m) as [->|Hne].
  - destruct (Z.testbit w m) eqn:Hb.
    + rewrite Z.pow2_bits_true by exact Hm. reflexivity.
    + rewrite Z.bits_0. reflexivity.
  - rewrite andb_false_r.
    destruct (Z.testbit w n).
    + rewrite Z.pow2_bits_false by congruence. reflexivity.
    + rewrite Z.bits_0. reflexivity.
Qed.

Lemma inverted_bits w :
  inverted w = Z.testbit w 15 || Z.testbit w 31.
Proof.
  unfold inverted.
  change (Z.shiftl 1 15) with (2 ^ 15).
  change (Word.uint32 (Z.shiftl 1 31)) with (2 ^ 31).
  rewrite !land_bit by lia.
  destruct (Z.testbit w 15), (Z.testbit w 31); reflexivity.
Qed.

Lemma woken_counter_arith w :
  woken_counter w = (w / 2 ^ 16) mod 2 ^ 15.
Proof.
  unfold woken_counter. rewrite Z.shiftr_div_pow2 by lia.
  change 32767 with (Z.ones 15). apply Z.land_ones. lia.
Qed.

Lemma woken_counter_halves lo hi :
  woken_counter (Word.halves lo hi) = hi mod 2 ^ 15.
Proof.
  rewrite woken_counter_arith. unfold Word.halves, Word.uint16.
  rewrite Z.mul_comm, Z.div_add by lia.
  rewrite (Z.div_small (lo mod 2 ^ 16)) by (apply Z.mod_pos_bound; lia).
  rewrite Z.add_0_l.
  change (2 ^ 16) with (2 ^ 15 * 2). rewrite Z.rem_mul_r by lia.
  rewrite Z.mul_comm, Z_mod_plus_full. apply Z.mod_mod. lia.
Qed.

Lemma wait_number_arith t :
  Z.land (Word.uint16 t) 32767 = t mod 2 ^ 15.
Proof.
  change 32767 with (Z.ones 15). rewrite Z.land_ones by lia.
  unfold Word.uint16.
  change (2 ^ 16) with (2 ^ 15 * 2). rewrite Z.rem_mul_r by lia.
  rewrite Z.mul_comm, Z_mod_plus_full. apply Z.mod_mod. lia.
Qed.

Lemma testbit_halves_15 lo hi :
  Z.testbit (Word.halves lo hi) 15 = (2 ^ 15 <=? lo mod 2 ^ 16).
Proof.
  rewrite Z.testbit_eqb by lia. unfold Word.halves, Word.uint16.
  destruct (Z.leb_spec (2 ^ 15) (lo mod 2 ^ 16));
    destruct (Z.eqb_spec
                (((lo mod 2 ^ 16 + 2 ^ 16 * (hi mod 2 ^ 16)) / 2 ^ 15) mod 2) 1);
    try reflexivity; exfalso;
    change (2 ^ 15) with 32768 in *; change (2 ^ 16) with 65536 in *;
    Z.div_mod_to_equations; lia.
Qed.

Lemma testbit_halves_31 lo hi :
  Z.testbit (Word.halves lo hi) 31 = (2 ^ 15 <=? hi mod 2 ^ 16).
Proof.
  rewrite Z.testbit_eqb by lia. unfold Word.halves, Word.uint16.
  destruct (Z.leb_spec (2 ^ 15) (hi mod 2 ^ 16));
    destruct (Z.eqb_spec
                (((lo mod 2 ^ 16 + 2 ^ 16 * (hi mod 2 ^ 16)) / 2 ^ 31) mod 2) 1);
    try reflexivity; exfalso;
    change (2 ^ 15) with 32768 in *; change (2 ^ 16) with 65536 in *;
    change (2 ^ 31) with 2147483648 in *;
    Z.div_mod_to_equations; lia.
Qed.

(** A writer that finds its slot free is let through, whatever the
    counters. *)
Lemma free_slot_lets_through t :
  keeps_waiting (Z.land (Word.uint16 t) 32767) (Word.halves (t + 1) t) = false.
Proof.
  unfold keeps_waiting.
  rewrite woken_counter_halves, wait_number_arith, Z.ltb_irrefl.
  rewrite !andb_false_r. reflexivity.
Qed.

(** A writer that finds its slot live goes to sleep when the taken counter
    it incremented, read with its parity bit, was below 0x7FFF or was
    0x8000. *)
Lemma live_slot_waits t :
  t mod 2 ^ 16 < 32767 \/ t mod 2 ^ 16 = 32768 ->
  keeps_waiting (Z.land (Word.uint16 t) 32767) (Word.halves (t + 1) (t - 1))
  = true.
Proof.
  intros Ht. unfold keeps_waiting.
  rewrite inverted_bits, testbit_halves_15, testbit_halves_31.
  rewrite woken_counter_halves, wait_number_arith.
  change (2 ^ 15) with 32768 in *. change (2 ^ 16) with 65536 in *.
  repeat match goal with
         | |- context [Z.ltb ?a ?b] => destruct (Z.ltb_spec a b)
         | |- context [Z.leb ?a ?b] => destruct (Z.leb_spec a b)
         end; cbn [orb andb negb]; try reflexivity; exfalso;
    Z.div_mod_to_equations; lia.
Qed.

(** For every other value the wait condition lets it through. *)
Lemma live_slot_passes t :
  32767 <= t mod 2 ^ 16 -> t mod 2 ^ 16 <> 32768 ->
  keeps_waiting (Z.land (Word.uint16 t) 32767) (Word.halves (t + 1) (t - 1))
  = false.
Proof.
  intros Ht Hne. unfold keeps_waiting.
  rewrite inverted_bits, testbit_halves_15, testbit_halves_31.
  rewrite woken_counter_halves, wait_number_arith.
  change (2 ^ 15) with 32768 in *. change (2 ^ 16) with 65536 in *.
  repeat match goal with
         | |- context [Z.ltb ?a ?b] => destruct (Z.ltb_spec a b)
         | |- context [Z.leb ?a ?b] => destruct (Z.leb_spec a b)
         end; cbn [orb andb negb]; try reflexivity; exfalso;
    Z.div_mod_to_equations; lia.
Qed.

(** ** The blocking interface next to the non-blocking one *)

Lemma laps_free D E :
  0 <= D <= E -> E - D < kQueueCapacity ->
  laps D (E mod kQueueCapacity) = laps E (E mod kQueueCapacity).
Proof. intros Hw Hroom. unfold laps. ring_arith. Qed.

Lemma laps_full D E i :
  0 <= i < kQueueCapacity -> E - D = kQueueCapacity ->
  laps D i = laps E i - 1.
Proof. intros Hi Hfull. unfold laps. ring_arith. Qed.

Lemma full_head_is_tail D E :
  E - D = kQueueCapacity -> D mod kQueueCapacity = E mod kQueueCapacity.
Proof. intros Hfull. ring_arith. Qed.

Lemma occupied_offset D E k :
  0 <= k < kQueueCapacity ->
  occupied D E ((D mod kQueueCapacity + k) mod kQueueCapacity) = (k <? E - D).
Proof. intros Hk. unfold occupied. ring_arith. Qed.

Lemma head_from_tail D E :
  (D mod kQueueCapacity + (E - D)) mod kQueueCapacity = E mod kQueueCapacity.
Proof. ring_arith. Qed.

Section BlockingFacts.

Context (sizeof_T : nat) (value_addr : nat -> Z).

(** The non-blocking calls leave the threads and the system calls alone. *)
Lemma Enqueue_accepts_quiet src_int item s E D :
  shape s E D ->
  E - D < kQueueCapacity ->
  exists s',
    Enqueue sizeof_T value_addr src_int item s = Returns true s'
    /\ shape s' (E + 1) D
    /\ syscalls s' = syscalls s /\ writers s' = writers s
    /\ reader_asleep s' = reader_asleep s.
Proof.
  intros Hs Hroom. pose proof capacity_eq as HC.
  destruct (Enqueue_accepts sizeof_T value_addr src_int item s E D Hs Hroom)
    as (s' & Henq & Hs' & _).
  exists s'. split; [exact Henq|]. split; [exact Hs'|].
  destruct (shape_lookup s E D (E mod kQueueCapacity) Hs (ring_index E))
    as (node & Hnode & Hv & _).
  pose proof (shape_window _ _ _ Hs) as Hwin.
  rewrite occupied_head in Hv by lia.
  rewrite (Enqueue_free sizeof_T value_addr src_int item s node) in Henq;
    rewrite ?(shape_write_length _ _ _ Hs), ?(shape_head _ _ _ Hs);
    try lia; try assumption; try apply ring_index.
  apply Returns_state in Henq. subst s'. repeat split.
Qed.

Lemma DequeueNext_delivers_quiet s E D :
  shape s E D ->
  D < E ->
  exists x s',
    DequeueNext s = Returns (Some x) s'
    /\ shape s' E (D + 1)
    /\ syscalls s' = syscalls s /\ writers s' = writers s
    /\ reader_asleep s' = reader_asleep s.
Proof.
  intros Hs Hsome. pose proof capacity_eq as HC.
  destruct (DequeueNext_delivers sizeof_T s E D Hs Hsome)
    as (x & s' & Hdeq & Hs' & _).
  exists x, s'. split; [exact Hdeq|]. split; [exact Hs'|].
  destruct (shape_lookup s E D (D mod kQueueCapacity) Hs (ring_index D))
    as (node & Hnode & Hv & _).
  pose proof (shape_window _ _ _ Hs) as Hwin.
  rewrite occupied_tail in Hv by lia.
  rewrite (DequeueNext_published s node) in Hdeq;
    rewrite ?(shape_write_length _ _ _ Hs), ?(shape_tail _ _ _ Hs);
    try lia; try assumption; try apply ring_index.
  apply Returns_state in Hdeq. subst s'. repeat split.
Qed.

Lemma run_nonblocking_quiet cs : forall s E D,
  shape s E D ->
  Forall (nonblocking sizeof_T) cs ->
  exists rs s' E' D',
    run sizeof_T value_addr cs s = Returns rs s'
    /\ length rs = length cs
    /\ shape s' E' D'
    /\ syscalls s' = syscalls s /\ writers s' = writers s
    /\ reader_asleep s' = reader_asleep s.
Proof.
  induction cs as [|c cs IH]; intros s E D Hs Hcs.
  - exists [], s, E, D. split_and!; try reflexivity. exact Hs.
  - apply Forall_cons in Hcs as [Hcall Hcs].
    pose proof (shape_window _ _ _ Hs) as Hwin.
    destruct c as [src_int item|? ?| | | |]; cbn in Hcall; try contradiction;
      cbn [run perform].
    + destruct (decide (E - D < kQueueCapacity)) as [Hroom|Hfull].
      * destruct (Enqueue_accepts_quiet src_int item s E D Hs Hroom)
          as (s1 & Henq & Hs1 & Hq1 & Hq2 & Hq3).
        destruct (IH s1 _ _ Hs1 Hcs)
          as (rs & s' & E' & D' & Hrun & Hlen & Hs' & Hr1 & Hr2 & Hr3).
        rewrite Henq. cbn [reply_with]. rewrite Hrun. cbn [reply_with].
        eexists _, s', E', D'. split_and!; try reflexivity; try exact Hs';
          try congruence. cbn. congruence.
      * rewrite (Enqueue_rejects sizeof_T value_addr src_int item s E D Hs)
          by lia.
        destruct (IH s _ _ Hs Hcs)
          as (rs & s' & E' & D' & Hrun & Hlen & Hs' & Hr1 & Hr2 & Hr3).
        cbn [reply_with]. rewrite Hrun. cbn [reply_with].
        eexists _, s', E', D'. split_and!; try reflexivity; try exact Hs';
          try congruence. cbn. congruence.
    + destruct (decide (D < E)) as [Hsome|Hnone].
      * destruct (DequeueNext_delivers_quiet s E D Hs Hsome)
          as (x & s1 & Hdeq & Hs1 & Hq1 & Hq2 & Hq3).
        destruct (IH s1 _ _ Hs1 Hcs)
          as (rs & s' & E' & D' & Hrun & Hlen & Hs' & Hr1 & Hr2 & Hr3).
        rewrite Hdeq. cbn [reply_with]. rewrite Hrun. cbn [reply_with].
        eexists _, s', E', D'. split_and!; try reflexivity; try exact Hs';
          try congruence. cbn. congruence.
      * assert (E = D) as -> by lia.
        rewrite (DequeueNext_nothing s D Hs).
        destruct (IH s _ _ Hs Hcs)
          as (rs & s' & E' & D' & Hrun & Hlen & Hs' & Hr1 & Hr2 & Hr3).
        cbn [reply_with]. rewrite Hrun. cbn [reply_with].
        eexists _, s', E', D'. split_and!; try reflexivity; try exact Hs';
          try congruence. cbn. congruence.
Qed.

(** X2.  After any run of [Enqueue] and [DequeueNext] calls on a new queue
    every call has returned, without a system call and with no thread
    asleep; [write_length] is between 0 and the capacity; [head_index] is
    [tail_index_] plus [write_length] modulo the capacity; and the published
    slots are the [write_length] slots from [tail_index_] on, and no others. *)
Theorem nonblocking_run_keeps_ring raw cs :
  raw_block sizeof_T raw ->
  Forall (nonblocking sizeof_T) cs ->
  exists s rs s',
    MpscQueue (Some raw) = Returns tt s
    /\ run sizeof_T value_addr cs s = Returns rs s'
    /\ length rs = length cs
    /\ syscalls s' = [] /\ writers s' = [] /\ reader_asleep s' = false
    /\ 0 <= write_length (queue_ s') <= kQueueCapacity
    /\ 0 <= tail_index_ s' < kQueueCapacity
    /\ head_index (queue_ s')
       = (tail_index_ s' + write_length (queue_ s')) mod kQueueCapacity
    /\ forall k,
         0 <= k < kQueueCapacity ->
         exists node,
           array (queue_ s')
             !! Z.to_nat ((tail_index_ s' + k) mod kQueueCapacity)
           = Some node
           /\ valid node = (if k <? write_length (queue_ s') then 1 else 0).
Proof.
  intros Hraw Hcs.
  destruct (MpscQueue_returns raw) as [s Hnew].
  destruct (MpscQueue_shape sizeof_T raw s Hraw Hnew) as [Hs _].
  destruct (run_nonblocking_quiet cs s 0 0 Hs Hcs)
    as (rs & s' & E & D & Hrun & Hlen & Hs' & Hq1 & Hq2 & Hq3).
  assert (syscalls s = [] /\ writers s = [] /\ reader_asleep s = false)
    as (Hn1 & Hn2 & Hn3).
  { unfold MpscQueue in Hnew. apply Returns_state in Hnew. subst s.
    repeat split. }
  pose proof (shape_window _ _ _ Hs') as Hwin.
  exists s, rs, s'.
  rewrite (shape_write_length _ _ _ Hs'), (shape_tail _ _ _ Hs'),
    (shape_head _ _ _ Hs').
  split; [exact Hnew|]. split; [exact Hrun|]. split; [exact Hlen|].
  split; [congruence|]. split; [congruence|]. split; [congruence|].
  split; [lia|]. split; [apply ring_index|].
  split; [symmetry; apply head_from_tail|].
  intros k Hk.
  destruct (shape_lookup s' E D ((D mod kQueueCapacity + k) mod kQueueCapacity)
              Hs' (ring_index _)) as (node & Hnode & Hv & _).
  exists node. split; [exact Hnode|].
  rewrite occupied_offset in Hv by exact Hk. exact Hv.
Qed.

(** A new queue and a run of the non-blocking interface on it. *)
Lemma history raw cs :
  raw_block sizeof_T raw ->
  Forall (nonblocking sizeof_T) cs ->
  exists s rs s' E D,
    MpscQueue (Some raw) = Returns tt s
    /\ run sizeof_T value_addr cs s = Returns rs s'
    /\ shape s' E D
    /\ syscalls s' = [] /\ writers s' = [] /\ reader_asleep s' = false.
Proof.
  intros Hraw Hcs.
  destruct (MpscQueue_returns raw) as [s Hnew].
  destruct (MpscQueue_shape sizeof_T raw s Hraw Hnew) as [Hs _].
  destruct (run_nonblocking_quiet cs s 0 0 Hs Hcs)
    as (rs & s' & E & D & Hrun & Hlen & Hs' & Hq1 & Hq2 & Hq3).
  assert (syscalls s = [] /\ writers s = [] /\ reader_asleep s = false)
    as (Hn1 & Hn2 & Hn3).
  { unfold MpscQueue in Hnew. apply Returns_state in Hnew. subst s.
    repeat split. }
  exists s, rs, s', E, D. split_and!; try assumption; congruence.
Qed.

Lemma EnqueueBlocking_room src_int item s E D :
  shape s E D ->
  E - D < kQueueCapacity ->
  exists s',
    EnqueueBlocking sizeof_T value_addr src_int item s = Returns tt s'
    /\ Enqueue sizeof_T value_addr src_int item s = Returns true s'.
Proof.
  intros Hs Hroom. pose proof capacity_eq as HC.
  pose proof (shape_window _ _ _ Hs) as Hwin.
  destruct (shape_lookup s E D (E mod kQueueCapacity) Hs (ring_index E))
    as (node & Hnode & Hv & Hww).
  rewrite occupied_head in Hv by lia.
  rewrite (laps_free D E) in Hww by lia.
  pose proof (shape_write_length _ _ _ Hs) as Hwl.
  pose proof (shape_head _ _ _ Hs) as Hhead.
  rewrite <- Hhead in Hnode.
  eexists. split.
  - rewrite (EnqueueBlocking_ticket sizeof_T value_addr src_int item s node);
      try lia; try exact Hnode;
      [|rewrite Hhead; apply ring_index].
    rewrite Hww, low_half_halves, high_half_halves, uint16_idem, halves_succ_l.
    rewrite free_slot_lets_through.
    rewrite (DoEnqueue_publish_free sizeof_T value_addr _ _ _ _
               (set_write_waiters
                  (Word.halves (laps E (E mod kQueueCapacity) + 1)
                     (laps E (E mod kQueueCapacity))) node)).
    + rewrite with_node_twice. reflexivity.
    + apply lookup_with_node. cbn. apply lookup_lt_Some in Hnode. exact Hnode.
    + exact Hv.
  - rewrite (Enqueue_free sizeof_T value_addr src_int item s node);
      try lia; try exact Hnode; try exact Hv;
      [|rewrite Hhead; apply ring_index].
    rewrite Hww, low_half_halves, high_half_halves, halves_succ_l.
    reflexivity.
Qed.

(** X3.  On a queue with room, reached by any run of the non-blocking
    interface, [EnqueueBlocking] does not sleep: it returns at once and
    leaves the system [Enqueue] leaves when it returns true. *)
Theorem EnqueueBlocking_with_room raw cs src_int item :
  raw_block sizeof_T raw ->
  Forall (nonblocking sizeof_T) cs ->
  exists s rs s',
    MpscQueue (Some raw) = Returns tt s
    /\ run sizeof_T value_addr cs s = Returns rs s'
    /\ (write_length (queue_ s') < kQueueCapacity ->
        exists s'',
          EnqueueBlocking sizeof_T value_addr src_int item s' = Returns tt s''
          /\ Enqueue sizeof_T value_addr src_int item s' = Returns true s'').
Proof.
  intros Hraw Hcs.
  destruct (history raw cs Hraw Hcs) as (s & rs & s' & E & D & Hnew & Hrun & Hs' & _).
  exists s, rs, s'. split; [exact Hnew|]. split; [exact Hrun|].
  intros Hroom. rewrite (shape_write_length _ _ _ Hs') in Hroom.
  apply (EnqueueBlocking_room src_int item s' E D Hs' Hroom).
Qed.

Lemma DequeueNextBlocking_published s node :
  0 <= tail_index_ s < kQueueCapacity ->
  0 < write_length (queue_ s) <= kQueueCapacity ->
  array (queue_ s) !! Z.to_nat (tail_index_ s) = Some node ->
  valid node = 1 ->
  exists s',
    DequeueNextBlocking s = Returns (value node) s'
    /\ DequeueNext s = Returns (Some (value node)) s'.
Proof.
  intros Ht Hw Hnode Hvalid. pose proof capacity_eq as HC.
  eexists. split; [|apply DequeueNext_published; assumption].
  unfold DequeueNextBlocking. rewrite Hnode. unfold Atomics.CompareExchange.
  rewrite Hvalid. cbn [Z.eqb Pos.eqb].
  unfold DequeueNextBlocking_read. cbn [valid set_valid Z.eqb].
  unfold DoDequeue, Atomics.ExchangeAdd.
  cbn [tail_index_ with_node with_queue].
  rewrite (uint32_small (tail_index_ s + 1)), land_mask by lia.
  unfold Atomics.IncrementWord. rewrite halves_uint16_r.
  cbn [queue_ with_queue set_tail_index with_node write_length set_array
       set_write_length write_waiters value set_write_waiters tail_index_].
  rewrite int32_small by lia.
  destruct (Z.gtb_spec (write_length (queue_ s)) kQueueCapacity) as [Hgt|_];
    [lia|].
  replace (write_length (queue_ s) + -1) with (write_length (queue_ s) - 1)
    by lia.
  rewrite uint32_small by lia.
  unfold with_queue, set_tail_index, with_node, with_queue, set_array,
    set_write_length. cbn.
  rewrite list_insert_insert_eq. reflexivity.
Qed.

(** X4.  On a queue that holds an element, reached by any run of the
    non-blocking interface, [DequeueNextBlocking] does not sleep and makes no
    system call: it returns the value [DequeueNext] returns and leaves the
    same system. *)
Theorem DequeueNextBlocking_with_element raw cs :
  raw_block sizeof_T raw ->
  Forall (nonblocking sizeof_T) cs ->
  exists s rs s',
    MpscQueue (Some raw) = Returns tt s
    /\ run sizeof_T value_addr cs s = Returns rs s'
    /\ (0 < write_length (queue_ s') ->
        exists x s'',
          DequeueNextBlocking s' = Returns x s''
          /\ DequeueNext s' = Returns (Some x) s'').
Proof.
  intros Hraw Hcs. pose proof capacity_eq as HC.
  destruct (history raw cs Hraw Hcs) as (s & rs & s' & E & D & Hnew & Hrun & Hs' & _).
  exists s, rs, s'. split; [exact Hnew|]. split; [exact Hrun|].
  intros Hsome.
  pose proof (shape_window _ _ _ Hs') as Hwin.
  pose proof (shape_write_length _ _ _ Hs') as Hwl.
  pose proof (shape_tail _ _ _ Hs') as Htail.
  destruct (shape_lookup s' E D (D mod kQueueCapacity) Hs' (ring_index D))
    as (node & Hnode & Hv & _).
  rewrite occupied_tail in Hv by lia.
  rewrite <- Htail in Hnode.
  destruct (DequeueNextBlocking_published s' node) as (s'' & H1 & H2);
    try assumption; try lia.
  { rewrite Htail. apply ring_index. }
  exists (value node), s''. split; assumption.
Qed.

(** *** The consumer asleep on an empty queue *)

Lemma DequeueNextBlocking_sleeps s node :
  array (queue_ s) !! Z.to_nat (tail_index_ s) = Some node ->
  valid node = 0 ->
  DequeueNextBlocking s
  = Sleeps
      (set_reader_asleep true
         (log (FUTEX_WAIT (node_valid (Z.to_nat (tail_index_ s))) 2)
            (with_node (Z.to_nat (tail_index_ s)) (set_valid 2 node) s))).
Proof.
  intros Hnode Hvalid. unfold DequeueNextBlocking. rewrite Hnode.
  unfold Atomics.CompareExchange. rewrite Hvalid. cbn [Z.eqb].
  unfold DequeueNextBlocking_wait.
  rewrite lookup_with_node by (apply lookup_lt_Some in Hnode; exact Hnode).
  reflexivity.
Qed.

(** [Enqueue] on the slot the sleeping consumer has marked. *)
Lemma Enqueue_marked src_int item s node :
  0 <= write_length (queue_ s) < kQueueCapacity ->
  0 <= head_index (queue_ s) < kQueueCapacity ->
  array (queue_ s) !! Z.to_nat (head_index (queue_ s)) = Some node ->
  valid node = 2 ->
  reader_asleep s = true ->
  tail_index_ s = head_index (queue_ s) ->
  Enqueue sizeof_T value_addr src_int item s
  = Returns true
      (log (FUTEX_WAKE (node_valid (Z.to_nat (head_index (queue_ s)))) 1)
         (with_node (Z.to_nat (head_index (queue_ s)))
            {| value :=
                 internal.VolatileCopy
                   (value_addr (Z.to_nat (head_index (queue_ s)))) src_int
                   (value node) item (Z.of_nat sizeof_T);
               valid := 1;
               write_waiters :=
                 Word.halves (Word.low_half (write_waiters node) + 1)
                   (Word.high_half (write_waiters node)) |}
            (with_queue
               (fun q =>
                  set_head_index ((head_index q + 1) mod kQueueCapacity)
                    (set_write_length (write_length q + 1) q)) s))).
Proof.
  intros Hw Hh Hnode Hvalid Hasleep Htail. pose proof capacity_eq as HC.
  unfold Enqueue, EnqueueAt. rewrite Reserve_free by exact Hw.
  unfold DoEnqueue, Atomics.ExchangeAdd, Atomics.BitwiseAnd.
  cbn [with_queue queue_ set_write_length head_index array].
  rewrite int32_small, !uint32_small by lia.
  rewrite !land_mask. rewrite (Z.mod_small (head_index (queue_ s))) by exact Hh.
  cbn [array set_head_index set_write_length].
  rewrite Hnode.
  unfold Atomics.ExchangeAddWord. rewrite halves_uint16_l.
  unfold DoEnqueue_publish.
  rewrite lookup_with_node
    by (cbn; apply lookup_lt_Some in Hnode; exact Hnode).
  unfold Atomics.Exchange. cbn [valid set_write_waiters value write_waiters].
  rewrite Hvalid. cbn [Z.eqb Pos.eqb].
  rewrite with_node_twice.
  unfold sleeping_on.
  cbn [reader_asleep with_node with_queue tail_index_].
  rewrite Hasleep, Htail, Z2Nat.id, Z.eqb_refl by lia.
  reflexivity.
Qed.

(** The consumer, back from [FutexWait], on a slot that is now published. *)
Lemma resume_reader_published s node :
  0 <= tail_index_ s < kQueueCapacity ->
  0 < write_length (queue_ s) <= kQueueCapacity ->
  array (queue_ s) !! Z.to_nat (tail_index_ s) = Some node ->
  valid node = 1 ->
  exists s',
    DequeueNext s = Returns (Some (value node)) s'
    /\ resume_reader s = Returns (value node) (set_reader_asleep false s').
Proof.
  intros Ht Hw Hnode Hvalid. pose proof capacity_eq as HC.
  eexists. split; [apply DequeueNext_published; assumption|].
  unfold resume_reader, DequeueNextBlocking_wait. rewrite Hnode.
  rewrite Hvalid. cbn [Z.eqb Pos.eqb]. unfold Atomics.Exchange.
  unfold DequeueNextBlocking_read. cbn [valid set_valid Z.eqb].
  unfold DoDequeue, Atomics.ExchangeAdd.
  cbn [tail_index_ with_node with_queue set_reader_asleep].
  rewrite (uint32_small (tail_index_ s + 1)), land_mask by lia.
  unfold Atomics.IncrementWord. rewrite halves_uint16_r.
  cbn [queue_ with_queue set_tail_index with_node write_length set_array
       set_write_length write_waiters value set_write_waiters tail_index_
       set_reader_asleep].
  rewrite int32_small by lia.
  destruct (Z.gtb_spec (write_length (queue_ s)) kQueueCapacity) as [Hgt|_];
    [lia|].
  replace (write_length (queue_ s) + -1) with (write_length (queue_ s) - 1)
    by lia.
  rewrite uint32_small by lia.
  unfold with_queue, set_tail_index, with_node, with_queue, set_array,
    set_write_length, set_reader_asleep. cbn.
  rewrite list_insert_insert_eq. reflexivity.
Qed.

(** X5.  On an empty queue, reached by any run of the non-blocking
    interface, [DequeueNextBlocking] marks the slot at [tail_index_] and goes
    to sleep on its [valid] word.  An [Enqueue] then returns true and issues
    one [FUTEX_WAKE] on that word.  The consumer, resumed, returns the value
    and leaves the system that the same [Enqueue] followed by a [DequeueNext]
    leaves, but for the two system calls. *)
Theorem blocking_dequeue_handoff raw cs src_int item :
  raw_block sizeof_T raw ->
  Forall (nonblocking sizeof_T) cs ->
  exists s0 rs s,
    MpscQueue (Some raw) = Returns tt s0
    /\ run sizeof_T value_addr cs s0 = Returns rs s
    /\ (write_length (queue_ s) = 0 ->
        let word := node_valid (Z.to_nat (tail_index_ s)) in
        exists s1 s2 x sa sb,
          DequeueNextBlocking s = Sleeps s1
          /\ reader_asleep s1 = true
          /\ syscalls s1 = [FUTEX_WAIT word 2]
          /\ Enqueue sizeof_T value_addr src_int item s1 = Returns true s2
          /\ syscalls s2 = [FUTEX_WAIT word 2; FUTEX_WAKE word 1]
          /\ Enqueue sizeof_T value_addr src_int item s = Returns true sa
          /\ DequeueNext sa = Returns (Some x) sb
          /\ resume_reader s2
             = Returns x (log (FUTEX_WAKE word 1) (log (FUTEX_WAIT word 2) sb))).
Proof.
  intros Hraw Hcs. pose proof capacity_eq as HC.
  destruct (history raw cs Hraw Hcs)
    as (s0 & rs & s & E & D & Hnew & Hrun & Hs & Hsys & Hws & Hawake).
  exists s0, rs, s. split; [exact Hnew|]. split; [exact Hrun|].
  intros Hempty word.
  pose proof (shape_window _ _ _ Hs) as Hwin.
  pose proof (shape_write_length _ _ _ Hs) as Hwl.
  assert (E = D) as -> by lia.
  pose proof (shape_tail _ _ _ Hs) as Htail.
  pose proof (shape_head _ _ _ Hs) as Hhead.
  pose proof (ring_index D) as Hi.
  destruct (shape_lookup s D D (D mod kQueueCapacity) Hs Hi)
    as (node & Hnode & Hv & _).
  rewrite occupied_none in Hv.
  assert (Z.to_nat (D mod kQueueCapacity) < length (array (queue_ s)))%nat
    as Hlt by (apply lookup_lt_Some in Hnode; exact Hnode).
  subst word. rewrite Htail.
  set (i := Z.to_nat (D mod kQueueCapacity)) in *.
  set (s1 := set_reader_asleep true
               (log (FUTEX_WAIT (node_valid i) 2)
                  (with_node i (set_valid 2 node) s))).
  assert (DequeueNextBlocking s = Sleeps s1) as Hsleep.
  { rewrite (DequeueNextBlocking_sleeps s node); rewrite ?Htail;
      [reflexivity | exact Hnode | exact Hv]. }
  assert (array (queue_ s1) !! Z.to_nat (head_index (queue_ s1))
          = Some (set_valid 2 node)) as Hnode1.
  { subst s1. cbn [queue_ set_reader_asleep log with_node with_queue
                   head_index set_array array].
    rewrite Hhead. apply list_lookup_insert_eq. exact Hlt. }
  pose proof (Enqueue_marked src_int item s1 (set_valid 2 node)) as Henq1.
  unfold s1 in Henq1.
  cbn [queue_ set_reader_asleep log with_node with_queue head_index
       set_array array write_length reader_asleep tail_index_ valid set_valid
       value write_waiters] in Henq1.
  rewrite Hwl, Hhead, Htail in Henq1. fold i in Henq1.
  specialize (Henq1 ltac:(lia) Hi).
  match type of Henq1 with
  | ?A -> _ => assert A as Ha by (apply list_lookup_insert_eq; exact Hlt)
  end.
  specialize (Henq1 Ha eq_refl eq_refl eq_refl). clear Ha.
  match type of Henq1 with _ = Returns true ?t => set (s2 := t) in * end.
  pose proof (Enqueue_free sizeof_T value_addr src_int item s node) as Henq.
  rewrite Hwl, Hhead in Henq. fold i in Henq.
  specialize (Henq ltac:(lia) Hi Hnode Hv).
  match type of Henq with _ = Returns true ?t => set (sa := t) in * end.
  assert (array (queue_ sa) !! Z.to_nat (tail_index_ sa)
          = Some {| value :=
                      internal.VolatileCopy (value_addr i) src_int (value node)
                        item (Z.of_nat sizeof_T);
                    valid := 1;
                    write_waiters :=
                      Word.halves (Word.low_half (write_waiters node) + 1)
                        (Word.high_half (write_waiters node)) |}) as Hna.
  { subst sa. cbn [queue_ with_node with_queue array set_array tail_index_].
    rewrite Htail. apply list_lookup_insert_eq. exact Hlt. }
  pose proof (DequeueNext_published sa
                {| value :=
                      internal.VolatileCopy (value_addr i) src_int (value node)
                        item (Z.of_nat sizeof_T);
                    valid := 1;
                    write_waiters :=
                      Word.halves (Word.low_half (write_waiters node) + 1)
                        (Word.high_half (write_waiters node)) |}) as Hdeq.
  specialize (Hdeq ltac:(subst sa; cbn; rewrite Htail; exact Hi)
                   ltac:(subst sa; cbn; lia) Hna eq_refl).
  cbn [value] in Hdeq.
  match type of Hdeq with _ = Returns _ ?t => set (sb := t) in * end.
  destruct (resume_reader_published s2
              {| value :=
                   internal.VolatileCopy (value_addr i) src_int (value node)
                     item (Z.of_nat sizeof_T);
                 valid := 1;
                 write_waiters :=
                   Word.halves (Word.low_half (write_waiters node) + 1)
                     (Word.high_half (write_waiters node)) |})
    as (s' & Hdeq2 & Hresume).
  { subst s2 s1. cbn. rewrite Htail. exact Hi. }
  { subst s2 s1. cbn. lia. }
  { subst s2 s1. cbn [queue_ log with_node with_queue array set_array
                      tail_index_ set_reader_asleep].
    rewrite Htail. apply list_lookup_insert_eq.
    cbn; rewrite ?length_insert; exact Hlt. }
  { reflexivity. }
  exists s1, s2, (internal.VolatileCopy (value_addr i) src_int (value node)
                    item (Z.of_nat sizeof_T)), sa, sb.
  split; [exact Hsleep|]. split; [reflexivity|].
  split; [subst s1; cbn; rewrite Hsys; reflexivity|].
  split; [exact Henq1|].
  split; [subst s2 s1; cbn; rewrite Hsys; reflexivity|].
  split; [exact Henq|]. split; [exact Hdeq|].
  cbn [value] in Hresume. rewrite Hresume. f_equal.
  rewrite (DequeueNext_published s2
             {| value :=
                      internal.VolatileCopy (value_addr i) src_int (value node)
                        item (Z.of_nat sizeof_T);
                    valid := 1;
                    write_waiters :=
                      Word.halves (Word.low_half (write_waiters node) + 1)
                        (Word.high_half (write_waiters node)) |}) in Hdeq2.
  - apply Returns_state in Hdeq2. subst s'.
    subst sb sa s2 s1.
    clear -Hawake. destruct s as [[a wl h b] t r w l].
    cbn [reader_asleep] in Hawake. subst r.
    cbv [log set_reader_asleep with_queue set_tail_index with_node set_array
         set_write_length set_head_index queue_ tail_index_ reader_asleep
         writers syscalls array write_length head_index blocked_threads
         value valid write_waiters].
    rewrite !list_insert_insert_eq. reflexivity.
  - subst s2 s1. cbn. rewrite Htail. exact Hi.
  - subst s2 s1. cbn. lia.
  - subst s2 s1. cbn [queue_ log with_node with_queue array set_array
                      tail_index_ set_reader_asleep].
    rewrite Htail. apply list_lookup_insert_eq.
    cbn; rewrite ?length_insert; exact Hlt.
  - reflexivity.
Qed.

(** *** A producer asleep on a full queue *)

Lemma halves_low_succ a b :
  Word.halves (Word.uint16 a + 1) b = Word.halves (a + 1) b.
Proof. unfold Word.halves. rewrite uint16_succ. reflexivity. Qed.

Lemma halves_high_succ a b :
  Word.halves a (Word.uint16 b + 1) = Word.halves a (b + 1).
Proof. unfold Word.halves. rewrite uint16_succ. reflexivity. Qed.

(** [DequeueNextBlocking] on a published slot when more than
    [kQueueCapacity] slots are spoken for. *)
Lemma DequeueNextBlocking_oversubscribed s node :
  0 <= tail_index_ s < kQueueCapacity ->
  kQueueCapacity < write_length (queue_ s) < 2 ^ 31 ->
  array (queue_ s) !! Z.to_nat (tail_index_ s) = Some node ->
  valid node = 1 ->
  DequeueNextBlocking s
  = Returns (value node)
      (log (FUTEX_WAKE (node_write_waiters (Z.to_nat (tail_index_ s))) (-1))
         (with_queue (fun q => set_write_length (write_length q - 1) q)
            (set_tail_index ((tail_index_ s + 1) mod kQueueCapacity)
               (with_node (Z.to_nat (tail_index_ s))
                  {| value := value node;
                     valid := 0;
                     write_waiters :=
                       Word.halves (Word.low_half (write_waiters node))
                         (Word.high_half (write_waiters node) + 1) |} s)))).
Proof.
  intros Ht Hw Hnode Hvalid. pose proof capacity_eq as HC.
  unfold DequeueNextBlocking. rewrite Hnode. unfold Atomics.CompareExchange.
  rewrite Hvalid. cbn [Z.eqb Pos.eqb].
  unfold DequeueNextBlocking_read. cbn [valid set_valid Z.eqb].
  unfold DoDequeue, Atomics.ExchangeAdd.
  cbn [tail_index_ with_node with_queue].
  rewrite (uint32_small (tail_index_ s + 1)), land_mask by lia.
  unfold Atomics.IncrementWord. rewrite halves_uint16_r.
  cbn [queue_ with_queue set_tail_index with_node write_length set_array
       set_write_length write_waiters value set_write_waiters tail_index_].
  rewrite int32_small by lia.
  destruct (Z.gtb_spec (write_length (queue_ s)) kQueueCapacity) as [_|Hle];
    [|lia].
  replace (write_length (queue_ s) + -1) with (write_length (queue_ s) - 1)
    by lia.
  rewrite uint32_small by lia.
  cbv zeta. rewrite FutexWake_all. change (Word.int32 (2 ^ 32 - 1)) with (-1).
  clear. destruct s as [[a wl h b] t r w l].
  cbv [log set_reader_asleep with_queue set_tail_index with_node set_array
       set_write_length set_head_index queue_ tail_index_ reader_asleep
       writers syscalls array write_length head_index blocked_threads
       value valid write_waiters].
  rewrite list_insert_insert_eq. reflexivity.
Qed.

(** A sleeping producer comes back from [FutexWait]. *)
Lemma resume_writer_first w s node :
  writers s = [w] ->
  array (queue_ s) !! writer_slot w = Some node ->
  resume_writer sizeof_T value_addr 0 s
  = if keeps_waiting (Z.land (writer_wait_number w) 32767) (write_waiters node)
    then
      Sleeps (log (FUTEX_WAIT (node_write_waiters (writer_slot w))
                     (write_waiters node)) s)
    else
      DoEnqueue_publish sizeof_T value_addr (writer_slot w) (writer_src w)
        (writer_item w) (set_writers [] s).
Proof.
  intros Hws Hnode. unfold resume_writer. rewrite Hws. cbn [lookup list_lookup].
  unfold DoWriteBlocking. cbn [queue_ set_writers delete list_delete].
  rewrite Hnode.
  destruct (keeps_waiting _ _); [|reflexivity].
  f_equal. destruct s as [q t r ws l]. cbn in Hws. subst ws. reflexivity.
Qed.

Ltac halves_norm :=
  repeat (rewrite low_half_halves || rewrite high_half_halves
          || rewrite uint16_idem || rewrite uint16_succ
          || rewrite halves_uint16_l || rewrite halves_uint16_r
          || rewrite halves_low_succ || rewrite halves_high_succ).

(** X6.  On a full queue, reached by any run of the non-blocking
    interface, let [t] be the low 16 bits of the head slot's [write_waiters]:
    the taken counter together with its parity bit.  When [t] is below
    0x7FFF or is 0x8000, [EnqueueBlocking] raises [write_length] above the
    capacity and goes to sleep on the slot's [write_waiters]; resumed while
    the slot is still live, it goes back to sleep.  [DequeueNextBlocking]
    then returns the oldest element and issues a [FUTEX_WAKE] on that word
    with the count -1.  The producer, resumed, completes, and leaves the
    system that a [DequeueNext] followed by an [Enqueue] of the same item
    leaves, but for the two system calls.  For every other [t] the call does
    not sleep: the [assert] on overwriting a live slot fails. *)
Theorem blocking_enqueue_handoff raw cs src_int item :
  raw_block sizeof_T raw ->
  Forall (nonblocking sizeof_T) cs ->
  exists s0 rs s,
    MpscQueue (Some raw) = Returns tt s0
    /\ run sizeof_T value_addr cs s0 = Returns rs s
    /\ (write_length (queue_ s) = kQueueCapacity ->
        forall node,
          array (queue_ s) !! Z.to_nat (head_index (queue_ s)) = Some node ->
          Word.low_half (write_waiters node) < 32767
          \/ Word.low_half (write_waiters node) = 32768 ->
          let i := Z.to_nat (head_index (queue_ s)) in
          let seen :=
            Word.halves (Word.low_half (write_waiters node) + 1)
              (Word.high_half (write_waiters node)) in
          let wait := FUTEX_WAIT (node_write_waiters i) seen in
          let wake := FUTEX_WAKE (node_write_waiters i) (-1) in
          exists s1 x s2 sa sb,
            EnqueueBlocking sizeof_T value_addr src_int item s = Sleeps s1
            /\ length (writers s1) = 1%nat
            /\ write_length (queue_ s1) = kQueueCapacity + 1
            /\ syscalls s1 = [wait]
            /\ resume_writer sizeof_T value_addr 0 s1 = Sleeps (log wait s1)
            /\ DequeueNextBlocking s1 = Returns x s2
            /\ syscalls s2 = [wait; wake]
            /\ DequeueNext s = Returns (Some x) sa
            /\ Enqueue sizeof_T value_addr src_int item sa = Returns true sb
            /\ resume_writer sizeof_T value_addr 0 s2
               = Returns tt (log wake (log wait sb)))
    /\ (write_length (queue_ s) = kQueueCapacity ->
        forall node,
          array (queue_ s) !! Z.to_nat (head_index (queue_ s)) = Some node ->
          32767 <= Word.low_half (write_waiters node) ->
          Word.low_half (write_waiters node) <> 32768 ->
          EnqueueBlocking sizeof_T value_addr src_int item s
          = Fatal "Attempt to overwrite existing space!"%string).
Proof.
  intros Hraw Hcs. pose proof capacity_eq as HC.
  destruct (history raw cs Hraw Hcs)
    as (s0 & rs & s & E & D & Hnew & Hrun & Hs & Hsys & Hws & Hawake).
  exists s0, rs, s. split; [exact Hnew|]. split; [exact Hrun|].
  split; cycle 1.
  { intros Hfull node Hnode Hpast Hne.
    pose proof (shape_write_length _ _ _ Hs) as Hwl.
    assert (E - D = kQueueCapacity) as Hfull' by lia.
    pose proof (shape_head _ _ _ Hs) as Hhead.
    destruct (shape_lookup s E D (E mod kQueueCapacity) Hs (ring_index E))
      as (node' & Hnode' & _ & Hww).
    rewrite <- Hhead, Hnode in Hnode'. injection Hnode' as <-.
    rewrite Hww, low_half_halves in Hpast, Hne.
    apply (EnqueueBlocking_full sizeof_T value_addr src_int item s E D Hs Hfull').
    rewrite (laps_full D E) by (try apply ring_index; exact Hfull').
    apply live_slot_passes; assumption. }
  intros Hfull node Hnode Hticket i seen wait wake.
  pose proof (shape_window _ _ _ Hs) as Hwin.
  pose proof (shape_write_length _ _ _ Hs) as Hwl.
  assert (E - D = kQueueCapacity) as Hfull' by lia.
  pose proof (shape_tail _ _ _ Hs) as Htail.
  pose proof (shape_head _ _ _ Hs) as Hhead.
  rewrite (full_head_is_tail D E Hfull'), <- Hhead in Htail.
  assert (0 <= head_index (queue_ s) < kQueueCapacity) as Hi
    by (rewrite Hhead; apply ring_index).
  destruct (shape_lookup s E D (E mod kQueueCapacity) Hs (ring_index E))
    as (node' & Hnode' & Hv & Hww).
  rewrite <- Hhead, Hnode in Hnode'. injection Hnode' as <-.
  rewrite occupied_full in Hv by exact Hfull'.
  rewrite (laps_full D E) in Hww by (try apply ring_index; exact Hfull').
  set (t := laps E (E mod kQueueCapacity)) in *.
  assert (Z.to_nat (head_index (queue_ s)) < length (array (queue_ s)))%nat
    as Hlt by (apply lookup_lt_Some in Hnode; exact Hnode).
  assert (keeps_waiting
            (Z.land (Word.uint16 (Word.low_half (write_waiters node))) 32767)
            seen = true) as Hwait.
  { subst seen. rewrite Hww. halves_norm.
    apply live_slot_waits.
    rewrite Hww, low_half_halves in Hticket. exact Hticket. }
  assert (keeps_waiting
            (Z.land (Word.uint16 (Word.low_half (write_waiters node))) 32767)
            (Word.halves (Word.low_half seen) (Word.high_half seen + 1))
          = false) as Hgo.
  { subst seen. rewrite Hww. halves_norm.
    replace (t - 1 + 1) with t by lia. apply free_slot_lets_through. }
  assert (Word.halves (Word.low_half seen) (Word.high_half seen + 1)
          = Word.halves
              (Word.low_half
                 (Word.halves (Word.low_half (write_waiters node))
                    (Word.high_half (write_waiters node) + 1)) + 1)
              (Word.high_half
                 (Word.halves (Word.low_half (write_waiters node))
                    (Word.high_half (write_waiters node) + 1)))) as Hsame.
  { subst seen. rewrite Hww. halves_norm. reflexivity. }
  (* the producer goes to sleep *)
  pose proof (EnqueueBlocking_ticket sizeof_T value_addr src_int item s node
                ltac:(lia) Hi Hnode) as Hblock.
  cbv zeta in Hblock. fold i seen in Hblock. rewrite Hwait in Hblock.
  fold wait in Hblock.
  match type of Hblock with _ = Sleeps ?st => set (s1 := st) in * end.
  set (frame := {| writer_slot := i;
                   writer_wait_number :=
                     Word.uint16 (Word.low_half (write_waiters node));
                   writer_src := src_int; writer_item := item |}) in *.
  assert (writers s1 = [frame]) as Hws1
    by (subst s1; cbn [writers set_writers]; rewrite Hws; reflexivity).
  assert (array (queue_ s1) !! i = Some (set_write_waiters seen node)) as Hnode1.
  { subst s1. cbn [queue_ set_writers log with_node with_queue array set_array].
    apply list_lookup_insert_eq. exact Hlt. }
  assert (tail_index_ s1 = head_index (queue_ s)) as Htail1
    by (subst s1; exact Htail).
  assert (write_length (queue_ s1) = kQueueCapacity + 1) as Hwl1
    by (subst s1; cbn; lia).
  (* a wake that comes too early *)
  pose proof (resume_writer_first frame s1 _ Hws1 Hnode1) as Hearly.
  cbn [writer_slot writer_wait_number frame write_waiters set_write_waiters]
    in Hearly.
  rewrite Hwait in Hearly. fold wait in Hearly.
  (* the consumer frees the slot *)
  pose proof (DequeueNextBlocking_oversubscribed s1 (set_write_waiters seen node))
    as Hdeq1.
  rewrite Htail1 in Hdeq1. fold i in Hdeq1.
  specialize (Hdeq1 Hi ltac:(lia) Hnode1 Hv).
  cbn [value valid write_waiters set_write_waiters] in Hdeq1.
  fold wake in Hdeq1.
  match type of Hdeq1 with _ = Returns _ ?st => set (s2 := st) in * end.
  set (freed := {| value := value node; valid := 0;
                   write_waiters :=
                     Word.halves (Word.low_half seen)
                       (Word.high_half seen + 1) |}) in *.
  assert (writers s2 = [frame]) as Hws2 by (subst s2; exact Hws1).
  assert (array (queue_ s2) !! i = Some freed) as Hnode2.
  { subst s2 s1.
    cbn [queue_ set_writers log with_node with_queue array set_array
         set_tail_index set_write_length].
    apply list_lookup_insert_eq. rewrite length_insert. exact Hlt. }
  (* the producer completes *)
  pose proof (resume_writer_first frame s2 _ Hws2 Hnode2) as Hdone.
  cbn [writer_slot writer_wait_number writer_src writer_item frame
       write_waiters freed] in Hdone.
  rewrite Hgo in Hdone.
  rewrite (DoEnqueue_publish_free sizeof_T value_addr i src_int item
             (set_writers [] s2) freed Hnode2 eq_refl) in Hdone.
  cbn [value write_waiters freed] in Hdone.
  (* the same two operations, not blocking *)
  pose proof (DequeueNext_published s node) as Hdeq.
  rewrite Htail in Hdeq. fold i in Hdeq.
  specialize (Hdeq Hi ltac:(lia) Hnode Hv).
  match type of Hdeq with _ = Returns _ ?st => set (sa := st) in * end.
  pose proof (Enqueue_free sizeof_T value_addr src_int item sa
                {| value := value node; valid := 0;
                   write_waiters :=
                     Word.halves (Word.low_half (write_waiters node))
                       (Word.high_half (write_waiters node) + 1) |}) as Henq.
  assert (head_index (queue_ sa) = head_index (queue_ s)) as Hheada
    by (subst sa; reflexivity).
  rewrite Hheada in Henq. fold i in Henq.
  specialize (Henq ltac:(subst sa; cbn; lia) Hi).
  match type of Henq with
  | ?A -> _ =>
      assert A as Ha
        by (subst sa; cbn [queue_ with_queue set_tail_index with_node array
                           set_array set_write_length];
            apply list_lookup_insert_eq; exact Hlt)
  end.
  specialize (Henq Ha eq_refl). clear Ha.
  cbn [value write_waiters] in Henq.
  match type of Henq with _ = Returns _ ?st => set (sb := st) in * end.
  exists s1, (value node), s2, sa, sb.
  split; [exact Hblock|].
  split; [rewrite Hws1; reflexivity|].
  split; [exact Hwl1|].
  split; [subst s1; cbn; rewrite Hsys; reflexivity|].
  split; [exact Hearly|].
  split; [exact Hdeq1|].
  split; [subst s2 s1; cbn; rewrite Hsys; reflexivity|].
  split; [exact Hdeq|].
  split; [exact Henq|].
  rewrite Hdone. f_equal.
  subst sb sa s2 s1. rewrite Hsame.
  clear -Hws Hfull Htail. subst wait wake frame freed.
  destruct s as [[a wl h b] tl r w l].
  cbn [writers queue_ write_length tail_index_ head_index] in Hws, Hfull, Htail.
  subst w wl tl.
  cbv [log set_reader_asleep with_queue set_tail_index with_node set_array
       set_write_length set_head_index set_writers queue_ tail_index_
       reader_asleep writers syscalls array write_length head_index
       blocked_threads value valid write_waiters app].
  rewrite !list_insert_insert_eq. reflexivity.
Qed.

(** *** Reservations *)

(** X7.  On an empty queue, reached by any run of the non-blocking
    interface, [Reserve] succeeds and the reserved slot is counted in
    [write_length] but cannot be read: [DequeueNext] still returns false and
    changes nothing.  [EnqueueAt] then completes what [Enqueue] does in one
    call, and [CancelReservation] instead gives back the system as it was
    before [Reserve]. *)
Theorem reserved_slot_is_not_readable raw cs src_int item :
  raw_block sizeof_T raw ->
  Forall (nonblocking sizeof_T) cs ->
  exists s0 rs s,
    MpscQueue (Some raw) = Returns tt s0
    /\ run sizeof_T value_addr cs s0 = Returns rs s
    /\ (write_length (queue_ s) = 0 ->
        exists s1 s2,
          Reserve s = (true, s1)
          /\ write_length (queue_ s1) = 1
          /\ DequeueNext s1 = Returns None s1
          /\ EnqueueAt sizeof_T value_addr src_int item s1 = Returns tt s2
          /\ Enqueue sizeof_T value_addr src_int item s = Returns true s2
          /\ CancelReservation s1 = s).
Proof.
  intros Hraw Hcs. pose proof capacity_eq as HC.
  destruct (history raw cs Hraw Hcs)
    as (s0 & rs & s & E & D & Hnew & Hrun & Hs & _).
  exists s0, rs, s. split; [exact Hnew|]. split; [exact Hrun|].
  intros Hempty.
  pose proof (shape_window _ _ _ Hs) as Hwin.
  pose proof (shape_write_length _ _ _ Hs) as Hwl.
  assert (E = D) as -> by lia.
  pose proof (shape_tail _ _ _ Hs) as Htail.
  pose proof (shape_head _ _ _ Hs) as Hhead.
  pose proof (ring_index D) as Hi.
  destruct (shape_lookup s D D (D mod kQueueCapacity) Hs Hi)
    as (node & Hnode & Hv & _).
  rewrite occupied_none in Hv.
  set (s1 := with_queue (set_write_length (write_length (queue_ s) + 1)) s).
  assert (Reserve s = (true, s1)) as Hres
    by (apply Reserve_free; lia).
  pose proof (DoEnqueue_free sizeof_T value_addr src_int item s1 node) as Hat.
  pose proof (Enqueue_free sizeof_T value_addr src_int item s node) as Henq.
  assert (0 <= head_index (queue_ s) < kQueueCapacity) as Hh
    by (rewrite Hhead; exact Hi).
  assert (array (queue_ s) !! Z.to_nat (head_index (queue_ s)) = Some node)
    as Hnode' by (rewrite Hhead; exact Hnode).
  specialize (Hat Hh Hnode' Hv).
  specialize (Henq ltac:(lia) Hh Hnode' Hv).
  eexists s1, _. split_and!.
  - exact Hres.
  - subst s1. cbn. lia.
  - apply DequeueNext_empty with (node := node).
    + subst s1. cbn [tail_index_ with_queue queue_ array set_write_length].
      rewrite Htail. exact Hnode.
    + lia.
  - unfold EnqueueAt. exact Hat.
  - rewrite Henq. reflexivity.
  - subst s1. unfold CancelReservation, Atomics.Decrement.
    destruct s as [[a wl h b] t r w l]. cbn in Hempty. subst wl. reflexivity.
Qed.

End BlockingFacts.

(** X8.  [Reserve] succeeds exactly when [write_length], read as a signed
    word, is below the capacity.  When it fails it leaves the system as it
    was, and when it succeeds [CancelReservation] brings the system back to
    what it was. *)
Theorem Reserve_is_undone s :
  0 <= write_length (queue_ s) < 2 ^ 32 ->
  (fst (Reserve s) = true
   <-> Word.int32 (write_length (queue_ s)) < kQueueCapacity)
  /\ (fst (Reserve s) = false -> snd (Reserve s) = s)
  /\ (fst (Reserve s) = true -> CancelReservation (snd (Reserve s)) = s).
Proof.
  intros Hw.
  assert (Word.uint32 (Word.uint32 (write_length (queue_ s) + 1) - 1)
          = write_length (queue_ s)) as Hback.
  { unfold Word.uint32. rewrite Zminus_mod_idemp_l.
    replace (write_length (queue_ s) + 1 - 1) with (write_length (queue_ s))
      by lia.
    apply Z.mod_small. exact Hw. }
  unfold Reserve, CancelReservation, Atomics.ExchangeAdd, Atomics.Decrement.
  destruct (Z.geb_spec (Word.int32 (write_length (queue_ s))) kQueueCapacity)
    as [Hge|Hlt]; cbn [fst snd]; split_and!; try discriminate; try lia;
    try (intros _;
         destruct s as [[a wl h b] t r w l];
         cbn [queue_ write_length with_queue set_write_length] in *;
         rewrite Hback; reflexivity).
Qed.

(** ** More on internal::VolatileCopy *)

(** X9.  [VolatileCopy] leaves the source's bytes in the destination when
    the size is below 8 or a multiple of 8, and for every size when one of
    the two addresses is not 4-byte aligned. *)
Theorem VolatileCopy_exact dest_int src_int dest src :
  length dest = length src ->
  copies_whole (length src) = true
  \/ Z.land dest_int 3 <> 0 \/ Z.land src_int 3 <> 0 ->
  internal.VolatileCopy dest_int src_int dest src (Z.of_nat (length src)) = src.
Proof.
  intros Hd [Hwhole|Hunaligned].
  - apply VolatileCopy_whole; assumption.
  - apply list_eq. intros i. rewrite VolatileCopy_lookup by exact Hd.
    assert ((Z.land dest_int 3 =? 0) && (Z.land src_int 3 =? 0) = false) as ->.
    { apply andb_false_iff.
      destruct Hunaligned as [H|H]; [left | right]; apply Z.eqb_neq; exact H. }
    case_decide as Hin; [reflexivity|].
    rewrite (lookup_ge_None_2 src) by lia.
    apply lookup_ge_None_2. lia.
Qed.

(** X10.  With both addresses 4-byte aligned and a size of 8 or more,
    [VolatileCopy] leaves in the destination the source's bytes up to the
    last multiple of 8 and, past it, the bytes the destination held. *)
Theorem VolatileCopy_aligned_image dest_int src_int dest src :
  length dest = length src ->
  Z.land dest_int 3 = 0 -> Z.land src_int 3 = 0 ->
  (8 <= length src)%nat ->
  internal.VolatileCopy dest_int src_int dest src (Z.of_nat (length src))
  = take (8 * (length src / 8)) src ++ drop (8 * (length src / 8)) dest.
Proof.
  intros Hd Ha1 Ha2 Hlen. apply list_eq. intros i.
  rewrite VolatileCopy_lookup by exact Hd.
  rewrite Ha1, Ha2. change ((0 =? 0) && (0 =? 0)) with true. cbv iota.
  pose proof (Nat.div_mod_eq (length src) 8) as Hdm.
  pose proof (Nat.mod_upper_bound (length src) 8) as Hm.
  assert (1 <= length src / 8)%nat as Hq
    by (apply Nat.div_le_lower_bound; lia).
  set (q := (length src / 8)%nat) in *.
  destruct (decide (i < 8 * q)%nat) as [Hlow|Hhigh].
  - rewrite lookup_app_l by (rewrite length_take; lia).
    rewrite lookup_take_lt by exact Hlow.
    case_decide; [reflexivity | lia].
  - rewrite lookup_app_r by (rewrite length_take; lia).
    rewrite length_take, lookup_drop.
    case_decide; [lia | f_equal; lia].
Qed.

(** ** More on the deli ticket *)

(** X11.  The flag [DoWriteBlocking] computes is true when bit 15 or bit 31
    of the observed word is set.  Unless both are set it is the flag of the
    design document, and so is the decision to wait; when both are set it is
    true where the documented flag is false. *)
Theorem inverted_is_either_parity_bit w my_wait_number :
  inverted w = Z.testbit w 15 || Z.testbit w 31
  /\ (Z.testbit w 15 && Z.testbit w 31 = false ->
      inverted w = inverted_spec w
      /\ keeps_waiting my_wait_number w = keeps_waiting_spec my_wait_number w)
  /\ (Z.testbit w 15 && Z.testbit w 31 = true ->
      inverted w = true /\ inverted_spec w = false).
Proof.
  unfold keeps_waiting, keeps_waiting_spec, inverted_spec.
  rewrite inverted_bits.
  destruct (Z.testbit w 15), (Z.testbit w 31); cbn;
    repeat split; try reflexivity; discriminate.
Qed.

(** ** MutexGrab and MutexRelease together *)

(** X12.  A free mutex is taken without a system call: [MutexGrab] puts it
    in state 1, and the [MutexRelease] that follows gives back the mutex as
    it was, again without a system call. *)
Theorem MutexGrab_uncontended fuel w :
  state (mutex w) = 0 ->
  exists w1,
    MutexGrab fuel w = Some (Returns tt w1)
    /\ state (mutex w1) = 1
    /\ mutex_syscalls w1 = mutex_syscalls w
    /\ MutexRelease w1 = Returns tt w.
Proof.
  intros Hfree. destruct w as [[st] n l]. cbn in Hfree. subst st.
  eexists. split; [reflexivity|]. repeat split.
Qed.

(** X13.  A mutex that is held makes [MutexGrab] mark it contended (state
    2) and sleep on it.  The holder's [MutexRelease] then frees it and issues
    one [FUTEX_WAKE], which takes the sleeper off the word.  The sleeper,
    resumed, takes the mutex in state 2, so that its own [MutexRelease]
    issues a [FUTEX_WAKE] as well, whether anybody is waiting or not. *)
Theorem MutexGrab_contended fuel w :
  state (mutex w) = 1 \/ state (mutex w) = 2 ->
  exists w1 w2 w3 w4,
    MutexGrab (S fuel) w = Some (Sleeps w1)
    /\ state (mutex w1) = 2
    /\ mutex_sleeping w1 = S (mutex_sleeping w)
    /\ MutexRelease w1 = Returns tt w2
    /\ state (mutex w2) = 0
    /\ mutex_sleeping w2 = mutex_sleeping w
    /\ MutexGrab_resume fuel w2 = Some (Returns tt w3)
    /\ state (mutex w3) = 2
    /\ MutexRelease w3 = Returns tt w4
    /\ state (mutex w4) = 0
    /\ mutex_syscalls w4
       = mutex_syscalls w
         ++ [FUTEX_WAIT mutex_state 2; FUTEX_WAKE mutex_state 1;
             FUTEX_WAKE mutex_state 1].
Proof.
  intros Hheld. destruct w as [[st] n l]. cbn in Hheld.
  assert (Z.min (Z.of_nat (S n)) 1 = 1) as Hwake1 by lia.
  assert (MutexRelease
            {| mutex := {| state := 2 |}; mutex_sleeping := S n;
               mutex_syscalls := l ++ [FUTEX_WAIT mutex_state 2] |}
          = Returns tt
              {| mutex := {| state := 0 |}; mutex_sleeping := n;
                 mutex_syscalls :=
                   (l ++ [FUTEX_WAIT mutex_state 2])
                   ++ [FUTEX_WAKE mutex_state 1] |}) as Hrel1.
  { unfold MutexRelease, Atomics.CompareExchange.
    cbn [mutex state mutex_sleeping mutex_syscalls Z.eqb Pos.eqb].
    rewrite FutexWake_one, Hwake1. do 2 f_equal. lia. }
  assert (MutexRelease
            {| mutex := {| state := 2 |}; mutex_sleeping := n;
               mutex_syscalls :=
                 (l ++ [FUTEX_WAIT mutex_state 2])
                 ++ [FUTEX_WAKE mutex_state 1] |}
          = Returns tt
              {| mutex := {| state := 0 |};
                 mutex_sleeping := (n - Z.to_nat (Z.min (Z.of_nat n) 1))%nat;
                 mutex_syscalls :=
                   ((l ++ [FUTEX_WAIT mutex_state 2])
                    ++ [FUTEX_WAKE mutex_state 1])
                   ++ [FUTEX_WAKE mutex_state 1] |}) as Hrel2.
  { unfold MutexRelease, Atomics.CompareExchange.
    cbn [mutex state mutex_sleeping mutex_syscalls Z.eqb Pos.eqb].
    rewrite FutexWake_one. reflexivity. }
  eexists _, _, _, _.
  split.
  { destruct Hheld as [-> | ->]; reflexivity. }
  split; [reflexivity|]. split; [reflexivity|].
  split; [exact Hrel1|]. split; [reflexivity|]. split; [reflexivity|].
  split; [reflexivity|]. split; [reflexivity|].
  split; [exact Hrel2|]. split; [reflexivity|].
  cbn [mutex_syscalls]. rewrite <- !app_assoc. reflexivity.
Qed.

(** ** The further theorems at work on the example data *)

Lemma short_run_nonblocking : Forall (nonblocking 8) short_run.
Proof. repeat constructor. Qed.

Lemma fill_run_nonblocking : Forall (nonblocking 8) fill_run.
Proof.
  unfold fill_run, enqueues. apply Forall_fmap, Forall_replicate. reflexivity.
Qed.

Lemma one_element_run_nonblocking : Forall (nonblocking 8) one_element_run.
Proof. repeat constructor. Qed.

(** What a run from the used block ends in, found by running it. *)
Ltac run_example Hnew Hrun s0 s :=
  unfold MpscQueue in Hnew; apply Returns_state in Hnew; subst s0;
  vm_compute in Hrun; apply Returns_state in Hrun; subst s.

Lemma nonblocking_run_keeps_ring_witness :
  exists s rs s',
    MpscQueue (Some (used_block 8)) = Returns tt s
    /\ run 8 (node_at 4096 16) fill_run s = Returns rs s'
    /\ length rs = length fill_run
    /\ syscalls s' = []
    /\ 0 <= write_length (queue_ s') <= kQueueCapacity
    /\ head_index (queue_ s')
       = (tail_index_ s' + write_length (queue_ s')) mod kQueueCapacity.
Proof.
  destruct (nonblocking_run_keeps_ring 8 (node_at 4096 16) (used_block 8)
              fill_run (used_block_raw 8) fill_run_nonblocking)
    as (s & rs & s' & H1 & H2 & H3 & H4 & _ & _ & H5 & _ & H6 & _).
  exists s, rs, s'. repeat split; assumption || apply H5.
Defined.

Lemma EnqueueBlocking_with_room_witness :
  exists s rs s' s'',
    MpscQueue (Some (used_block 8)) = Returns tt s
    /\ run 8 (node_at 4096 16) short_run s = Returns rs s'
    /\ write_length (queue_ s') < kQueueCapacity
    /\ EnqueueBlocking 8 (node_at 4096 16) 1024 item8 s' = Returns tt s''
    /\ Enqueue 8 (node_at 4096 16) 1024 item8 s' = Returns true s''.
Proof.
  destruct (EnqueueBlocking_with_room 8 (node_at 4096 16) (used_block 8)
              short_run 1024 item8 (used_block_raw 8) short_run_nonblocking)
    as (s & rs & s' & Hnew & Hrun & Hcond).
  assert (write_length (queue_ s') < kQueueCapacity) as Hroom.
  { run_example Hnew Hrun s s'. reflexivity. }
  destruct (Hcond Hroom) as (s'' & H1 & H2).
  exists s, rs, s', s''. repeat split; assumption.
Defined.

Lemma DequeueNextBlocking_with_element_witness :
  exists s rs s' x s'',
    MpscQueue (Some (used_block 8)) = Returns tt s
    /\ run 8 (node_at 4096 16) one_element_run s = Returns rs s'
    /\ 0 < write_length (queue_ s')
    /\ DequeueNextBlocking s' = Returns x s''
    /\ DequeueNext s' = Returns (Some x) s''.
Proof.
  destruct (DequeueNextBlocking_with_element 8 (node_at 4096 16) (used_block 8)
              one_element_run (used_block_raw 8) one_element_run_nonblocking)
    as (s & rs & s' & Hnew & Hrun & Hcond).
  assert (0 < write_length (queue_ s')) as Hsome.
  { run_example Hnew Hrun s s'. reflexivity. }
  destruct (Hcond Hsome) as (x & s'' & H1 & H2).
  exists s, rs, s', x, s''. repeat split; assumption.
Defined.

Lemma blocking_dequeue_handoff_witness :
  exists s0 rs s s1 s2 x sb,
    MpscQueue (Some (used_block 8)) = Returns tt s0
    /\ run 8 (node_at 4096 16) short_run s0 = Returns rs s
    /\ write_length (queue_ s) = 0
    /\ DequeueNextBlocking s = Sleeps s1
    /\ Enqueue 8 (node_at 4096 16) 1024 item8 s1 = Returns true s2
    /\ resume_reader s2
       = Returns x
           (log (FUTEX_WAKE (node_valid (Z.to_nat (tail_index_ s))) 1)
              (log (FUTEX_WAIT (node_valid (Z.to_nat (tail_index_ s))) 2) sb)).
Proof.
  destruct (blocking_dequeue_handoff 8 (node_at 4096 16) (used_block 8)
              short_run 1024 item8 (used_block_raw 8) short_run_nonblocking)
    as (s0 & rs & s & Hnew & Hrun & Hcond).
  assert (write_length (queue_ s) = 0) as Hempty.
  { run_example Hnew Hrun s0 s. reflexivity. }
  destruct (Hcond Hempty)
    as (s1 & s2 & x & sa & sb & H1 & _ & _ & H2 & _ & _ & _ & H3).
  exists s0, rs, s, s1, s2, x, sb. repeat split; assumption.
Defined.

Lemma blocking_enqueue_handoff_witness :
  exists s0 rs s node s1 x s2 sb,
    MpscQueue (Some (used_block 8)) = Returns tt s0
    /\ run 8 (node_at 4096 16) fill_run s0 = Returns rs s
    /\ write_length (queue_ s) = kQueueCapacity
    /\ array (queue_ s) !! Z.to_nat (head_index (queue_ s)) = Some node
    /\ Word.low_half (write_waiters node) = 1
    /\ EnqueueBlocking 8 (node_at 4096 16) 1024 item8 s = Sleeps s1
    /\ DequeueNextBlocking s1 = Returns x s2
    /\ exists wait wake,
         resume_writer 8 (node_at 4096 16) 0 s2
         = Returns tt (log wake (log wait sb)).
Proof.
  destruct (blocking_enqueue_handoff 8 (node_at 4096 16) (used_block 8)
              fill_run 1024 item8 (used_block_raw 8) fill_run_nonblocking)
    as (s0 & rs & s & Hnew & Hrun & Hcond & _).
  assert (write_length (queue_ s) = kQueueCapacity
          /\ exists node,
               array (queue_ s) !! Z.to_nat (head_index (queue_ s)) = Some node
               /\ Word.low_half (write_waiters node) = 1)
    as (Hfull & node & Hnode & Hticket).
  { run_example Hnew Hrun s0 s. split; [reflexivity|].
    eexists. split; reflexivity. }
  destruct (Hcond Hfull node Hnode ltac:(left; lia))
    as (s1 & x & s2 & sa & sb & H1 & _ & _ & _ & _ & H2 & _ & _ & _ & H3).
  exists s0, rs, s, node, s1, x, s2, sb.
  split_and!; try assumption. eexists _, _. exact H3.
Defined.

Lemma reserved_slot_is_not_readable_witness :
  exists s0 rs s s1 s2,
    MpscQueue (Some (used_block 8)) = Returns tt s0
    /\ run 8 (node_at 4096 16) short_run s0 = Returns rs s
    /\ write_length (queue_ s) = 0
    /\ Reserve s = (true, s1)
    /\ DequeueNext s1 = Returns None s1
    /\ EnqueueAt 8 (node_at 4096 16) 1024 item8 s1 = Returns tt s2
    /\ CancelReservation s1 = s.
Proof.
  destruct (reserved_slot_is_not_readable 8 (node_at 4096 16) (used_block 8)
              short_run 1024 item8 (used_block_raw 8) short_run_nonblocking)
    as (s0 & rs & s & Hnew & Hrun & Hcond).
  assert (write_length (queue_ s) = 0) as Hempty.
  { run_example Hnew Hrun s0 s. reflexivity. }
  destruct (Hcond Hempty) as (s1 & s2 & H1 & _ & H2 & H3 & _ & H4).
  exists s0, rs, s, s1, s2. repeat split; assumption.
Defined.

Lemma Reserve_is_undone_witness :
  exists s,
    MpscQueue (Some (used_block 8)) = Returns tt s
    /\ fst (Reserve s) = true
    /\ CancelReservation (snd (Reserve s)) = s.
Proof.
  eexists. split; [reflexivity|]. split; [reflexivity|].
  apply Reserve_is_undone; [|reflexivity].
  split; [discriminate | reflexivity].
Defined.

Lemma VolatileCopy_exact_witness :
  internal.VolatileCopy 4096 1024 (replicate 8 xff) item8
    (Z.of_nat (length item8)) = item8.
Proof.
  apply VolatileCopy_exact; [reflexivity | left; reflexivity].
Defined.

Lemma VolatileCopy_aligned_image_witness :
  internal.VolatileCopy 4096 1024 (replicate 12 xff) item12
    (Z.of_nat (length item12))
  = take (8 * (length item12 / 8)) item12
    ++ drop (8 * (length item12 / 8)) (replicate 12 xff).
Proof.
  apply VolatileCopy_aligned_image; [reflexivity | reflexivity | reflexivity|].
  repeat constructor.
Defined.

Lemma MutexGrab_uncontended_witness :
  exists w1,
    MutexGrab 0 (MutexInit {| mutex := {| state := 7 |}; mutex_sleeping := 0;
                              mutex_syscalls := [] |})
    = Some (Returns tt w1)
    /\ state (mutex w1) = 1.
Proof.
  destruct (MutexGrab_uncontended 0
              (MutexInit {| mutex := {| state := 7 |}; mutex_sleeping := 0;
                            mutex_syscalls := [] |}) eq_refl)
    as (w1 & H1 & H2 & _).
  exists w1. split; assumption.
Defined.

Lemma MutexGrab_contended_witness :
  exists w1 w2 w3,
    MutexGrab 1 {| mutex := {| state := 1 |}; mutex_sleeping := 0;
                   mutex_syscalls := [] |} = Some (Sleeps w1)
    /\ MutexRelease w1 = Returns tt w2
    /\ MutexGrab_resume 0 w2 = Some (Returns tt w3)
    /\ state (mutex w3) = 2.
Proof.
  destruct (MutexGrab_contended 0
              {| mutex := {| state := 1 |}; mutex_sleeping := 0;
                 mutex_syscalls := [] |} (or_introl eq_refl))
    as (w1 & w2 & w3 & w4 & H1 & _ & _ & H2 & _ & _ & H3 & H4 & _).
  exists w1, w2, w3. repeat split; assumption.
Defined.

(** X14.  Whatever the system, the non-blocking calls do not sleep:
    [Enqueue] and [DequeueNext] never end inside [FutexWait].  [DequeueNext]
    moreover fails no [assert] and makes no system call, and when it returns
    false it has changed nothing. *)
Theorem nonblocking_calls_never_sleep sizeof_T value_addr src_int item s :
  (forall s', Enqueue sizeof_T value_addr src_int item s <> Sleeps s')
  /\ (forall s', DequeueNext s <> Sleeps s')
  /\ (forall msg, DequeueNext s <> Fatal msg)
  /\ (forall r s', DequeueNext s = Returns r s' -> syscalls s' = syscalls s)
  /\ (forall s', DequeueNext s = Returns None s' -> s' = s).
Proof.
  split_and!.
  - intros s'. unfold Enqueue, Reserve, EnqueueAt, DoEnqueue, DoEnqueue_publish,
      Atomics.ExchangeAdd, Atomics.ExchangeAddWord, Atomics.Exchange.
    repeat case_match; congruence.
  - intros s'. unfold DequeueNext, DoDequeue, Atomics.CompareExchange.
    repeat case_match; congruence.
  - intros msg. unfold DequeueNext, DoDequeue, Atomics.CompareExchange.
    repeat case_match; congruence.
  - intros r s'. unfold DequeueNext, DoDequeue, Atomics.CompareExchange.
    repeat case_match; intros Hret; try discriminate;
      apply Returns_state in Hret; subst s'; reflexivity.
  - intros s'. unfold DequeueNext, DoDequeue, Atomics.CompareExchange.
    repeat case_match; intros Hret; try discriminate.
    apply Returns_state in Hret. congruence.
Qed.
